(** * lovable-byte-beauty: the video variation core

    A shallow embedding of [src/utils/videoProcessor.ts] (the legacy
    processor), [src/utils/videoProcessorEnhanced.ts] (the enhanced
    processor), the queue loop and the queue operations of
    [src/components/video-spoofer/BatchVideoProcessor.tsx], the effect
    hook and the download buttons of the single-video components and
    [updateParameter] of
    [src/components/video-spoofer/VideoParameterControls.tsx].

    - A JavaScript [number] is an IEEE-754 binary64 value: it is Rocq's
      primitive [float], whose operations round to nearest, ties to even,
      exactly as the engine running the code does.
    - [Math.random], the transcoding engine and the clock are the outside
      world: they are variables of [Section Program].
    - Mutable fields of the processor singletons, the listener list of the
      shared engine instance and the state seen by the caller's callbacks
      are threaded explicitly through a state record. *)

From Stdlib Require Import Floats ZArith List String Ascii Bool Lia Arith.
From Stdlib Require Import Uint63 DecimalString DecimalPos DecimalN DecimalZ.
From Stdlib Require Import Sorted Zpower.
Import ListNotations.

Set Implicit Arguments.

(** ** The JavaScript runtime: numbers and their renderings *)

Module JS.

Local Open Scope Z_scope.

(** [Number(z)] for an integer [0 <= z < 2^63]. *)
Definition of_nonneg_Z (z : Z) : float := of_uint63 (Uint63.of_Z z).

(** [Number(z)] for a small integer of either sign. *)
Definition of_Z (z : Z) : float :=
if z <? 0 then (- of_nonneg_Z (- z))%float else of_nonneg_Z z.

(** [Math.floor].  A finite double is [(-1)^s * m * 2^e]; with [e >= 0] it
  is already an integer.  Otherwise the magnitude is cut at the binary
  point and a negative value with a fractional part moves one further
  down. *)
Definition Math_floor (x : float) : float :=
match Prim2SF x with
| S754_finite s m e =>
    if 0 <=? e then x
    else
      let q := Z.shiftr (Zpos m) (- e) in
      let exact := Z.eqb (Z.shiftl q (- e)) (Zpos m) in
      if exact then x
      else if s then (- of_nonneg_Z (q + 1))%float
      else of_nonneg_Z q
| _ => x
end.

(** The integer a finite double denotes, when it denotes one. *)
Definition integer_value (x : float) : option Z :=
match Prim2SF x with
| S754_zero _ => Some 0
| S754_finite s m e =>
    let mag :=
      if 0 <=? e then Some (Z.shiftl (Zpos m) e)
      else
        let q := Z.shiftr (Zpos m) (- e) in
        if Z.eqb (Z.shiftl q (- e)) (Zpos m) then Some q else None in
    option_map (fun v => if s then - v else v) mag
| _ => None
end.

Definition digits_of_N (n : N) : string :=
NilZero.string_of_uint (N.to_uint n).

Definition digits_of_Z (z : Z) : string :=
NilZero.string_of_int (Z.to_int z).

(** The character of a decimal digit. *)
Definition digit (z : Z) : ascii := ascii_of_nat (48 + Z.to_nat z).

(** The last [d] decimal digits of [f], zero-padded on the left. *)
Fixpoint padded_digits (d : nat) (f : Z) : string :=
  match d with
  | O => EmptyString
  | S d' =>
      (padded_digits d' (f / 10) ++ String (digit (f mod 10)) EmptyString)%string
  end.

(** [n / 10^d] written with exactly [d] digits after the point. *)
Definition fixed_digits (d : nat) (n : Z) : string :=
let p := 10 ^ Z.of_nat d in
match d with
| O => digits_of_Z n
| S _ => (digits_of_Z (n / p) ++ "." ++ padded_digits d (n mod p))%string
end.

(** The integer nearest to [m * 2^e * 10^d], the larger one at a tie: the
  [n] of Number.prototype.toFixed. *)
Definition toFixed_scaled (d : nat) (m : positive) (e : Z) : Z :=
let a := Zpos m * 10 ^ Z.of_nat d in
if 0 <=? e then a * 2 ^ e
else (2 * a + 2 ^ (- e)) / 2 ^ (1 - e).

Definition ten_to_21 : float := 1e21%float.



Section Rendering.

(** Number::toString away from the integers below [10^21] (a shortest
    round-trip search in the runtime) is left to the runtime. *)
Variable toString_other : float -> string.

(** [String(x)], which is also [`${x}`] and [x.toString()]. *)
Definition Number_toString (x : float) : string :=
  match Prim2SF x with
  | S754_nan => "NaN"
  | S754_zero _ => "0"
  | S754_infinity s => if s then "-Infinity" else "Infinity"
  | S754_finite _ _ _ =>
      if (abs x <? ten_to_21)%float then
        match integer_value x with
        | Some z => digits_of_Z z
        | None => toString_other x
        end
      else toString_other x
  end.

(** [x.toFixed(d)] for [0 <= d <= 100]. *)
Definition toFixed (x : float) (d : nat) : string :=
  match Prim2SF x with
  | S754_nan => "NaN"
  | S754_zero _ => fixed_digits d 0
  | S754_infinity _ => Number_toString x
  | S754_finite s m e =>
      if (abs x <? ten_to_21)%float then
        ((if s then "-" else "") ++ fixed_digits d (toFixed_scaled d m e))%string
      else Number_toString x
  end.

End Rendering.

End JS.

(** ** The parameter model ([VideoProcessingParameters]) *)

Module Range.
Record t := { enabled : bool; min : float; max : float }.
End Range.

Module Toggle.
Record t := { enabled : bool }.
End Toggle.

Record VideoProcessingParameters := {
  videoQuality : float;
  videoBitrate : Range.t;
  audioBitrate : Range.t;
  framerate : Range.t;
  saturation : Range.t;
  contrast : Range.t;
  brightness : Range.t;
  gamma : Range.t;
  vignette : Range.t;
  noise : Range.t;
  waveformShift : Range.t;
  pixelShift : Range.t;
  speed : Range.t;
  zoom : Range.t;
  volume : Range.t;
  rotation : Range.t;
  flipHorizontally : Toggle.t;
  randomPixelSize : Toggle.t;
  trim : Range.t
}.

(** ** Directives

    The source pushes plain strings.  Each pushed string carries here the
    name of the block of the source that pushed it; the text is what the
    engine receives. *)

Inductive Kind :=
| KEq | KNoise | KRotate | KHflip | KZoom | KCrop
| KVignette | KGeq | KResize | KSetpts | KFps.

Record Directive := { kind : Kind; text : string }.

Definition Kind_eqb (a b : Kind) : bool :=
  match a, b with
  | KEq, KEq | KNoise, KNoise | KRotate, KRotate | KHflip, KHflip
  | KZoom, KZoom | KCrop, KCrop | KVignette, KVignette | KGeq, KGeq
  | KResize, KResize | KSetpts, KSetpts | KFps, KFps => true
  | _, _ => false
  end.

(** The position of a block in [buildFilterChain]. *)
Definition rank (k : Kind) : nat :=
  match k with
  | KEq => 0 | KNoise => 1 | KRotate => 2 | KHflip => 3 | KZoom => 4
  | KCrop => 5 | KVignette => 6 | KGeq => 7 | KResize => 8
  | KSetpts => 9 | KFps => 10
  end.

Definition all_kinds : list Kind :=
  [KEq; KNoise; KRotate; KHflip; KZoom; KCrop; KVignette; KGeq; KResize;
   KSetpts; KFps].

(** ** Computations that draw from [Math.random] *)

Definition Rand (A : Type) : Type := nat -> A * nat.

Definition ret {A} (a : A) : Rand A := fun i => (a, i).

Definition bind {A B} (c : Rand A) (k : A -> Rand B) : Rand B :=
  fun i => let (a, j) := c i in k a j.

Declare Scope rand_scope.
Delimit Scope rand_scope with rand.
Notation "x <- c ;; k" := (bind c (fun x => k))
  (at level 61, c at next level, right associativity) : rand_scope.
Notation "' p <- c ;; k" := (bind c (fun x => match x with p => k end))
  (at level 61, p pattern, c at next level, right associativity) : rand_scope.

(** [filters.push(s)] *)
Definition push {A} (l : list A) (a : A) : list A := l ++ [a].

(** [args.push(a, b, ...)] *)
Definition pushes {A} (l l' : list A) : list A := l ++ l'.

(** [Math.PI] *)
Definition Math_PI : float := 0x1.921fb54442d18p+1%float.

(** ** Files, results and the transcoding engine *)

Module File.
(** [readable]: whether [arrayBuffer()] resolves. *)
Record t := { name : string; type : string; size : Z; readable : bool }.
End File.

(** What [URL.createObjectURL] was applied to. *)
Inductive Url :=
| UrlOfFile (f : File.t)
| UrlOfOutput (job : nat).

Record Metadata := {
  duration : float;
  size : Z;
  format : string;
  processing_time : Z
}.

Record ProcessingResult := {
  output_url : Url;
  applied_filters : list string;
  metadata : Metadata
}.

Module Blob.
Record t := { size : Z; type : string }.
End Blob.

(** The calls into the engine that may reject. *)
Inductive Stage := AtWriteFile | AtExec | AtReadFile | AtDeleteFile.

Inductive Error :=
| NotInitialized          (* Error('FFmpeg not initialized') *)
| FileUnreadable
| EngineFailed (s : Stage)
| LoadFailed.             (* Error('FFmpeg initialization failed: ...') *)

(** What the engine does on one job: the progress ratios it reports while
    [exec] runs, the first of its calls that rejects, the size of the file
    it produces and the time the job took. *)
Record EngineRun := {
  progressEvents : list float;
  failure : option Stage;
  outputSize : Z;
  elapsed : Z
}.

Definition Stage_eqb (a b : Stage) : bool :=
  match a, b with
  | AtWriteFile, AtWriteFile | AtExec, AtExec
  | AtReadFile, AtReadFile | AtDeleteFile, AtDeleteFile => true
  | _, _ => false
  end.

Definition fails_at (run : EngineRun) (s : Stage) : bool :=
  match failure run with
  | Some s' => Stage_eqb s s'
  | None => false
  end.

(** A callback registered with [ffmpeg.on('progress', ...)].  The engine
    object keeps every callback it was given and calls each of them, in the
    order of registration, for every progress event.  The legacy processor
    registers callbacks that count the events and forward every tenth one
    ([throttled]); [callback] is what a forwarded ratio does to the state
    of the caller. *)
Record Listener (U : Type) := {
  throttled : bool;
  progressCounter : nat;
  callback : float -> U -> U
}.

(** The fields of a processor singleton, the outside world it has consumed
    so far, and the state of its caller. *)
Record World (U : Type) := {
  randomCalls : nat;                    (* calls of Math.random() so far *)
  jobs : nat;                           (* engine jobs started so far *)
  execLog : list (list string);         (* argument lists given to exec *)
  ffmpeg : option (list (Listener U));  (* this.ffmpeg, with its listeners *)
  isLoaded : bool;
  supportsWebCodecs : bool;
  caller : U
}.

Inductive Outcome (A : Type) :=
| Resolved (a : A)
| Rejected (e : Error).
Arguments Rejected {A} e.

(** An [async] method: it may change the world and resolves or rejects. *)
Definition Async (U A : Type) : Type := World U -> Outcome A * World U.

Definition resolve {U A} (a : A) : Async U A := fun w => (Resolved a, w).

Definition reject {U A} (e : Error) : Async U A := fun w => (Rejected e, w).

Definition await {U A B} (c : Async U A) (k : A -> Async U B) : Async U B :=
  fun w =>
    match c w with
    | (Resolved a, w') => k a w'
    | (Rejected e, w') => (Rejected e, w')
    end.

Declare Scope async_scope.
Delimit Scope async_scope with async.
Notation "x <- c ;; k" := (await c (fun x => k))
  (at level 61, c at next level, right associativity) : async_scope.


(** ** The state of the components that drive the processors *)

Module Status.
Inductive t := pending | processing | completed | error.
End Status.

(** An entry of the queue of [BatchVideoProcessor]. *)
Record QueueItem := {
  id : string;
  file : File.t;
  status : Status.t;
  progress : float;
  variations : list Blob.t
}.

(** The React state of [BatchVideoProcessor]. *)
Record Batch := { queue : list QueueItem; processing : bool }.


Section Program.

Local Open Scope string_scope.
Local Open Scope float_scope.
Local Open Scope rand_scope.

(** The value of the [i]-th call of [Math.random()]. *)
Variable Math_random : nat -> float.

Variable toString_other : float -> string.

Local Abbreviation toFixed := (JS.toFixed toString_other).
Local Abbreviation str := (JS.Number_toString toString_other).
Local Abbreviation floor := JS.Math_floor.

Definition random : Rand float := fun i => (Math_random i, S i).

(** [getRandomValue], the same in both processors. *)
Definition getRandomValue (min max : float) : Rand float :=
  r <- random ;; ret (r * (max - min) + min).

Definition sample (p : Range.t) : Rand float :=
  getRandomValue (Range.min p) (Range.max p).

(** *** [VideoProcessorEnhanced.buildFilterChain] *)

Record Chain := { filters : list Directive; appliedFilters : list string }.

Definition emit (c : Chain) (k : Kind) (f a : string) : Chain :=
  {| filters := push (filters c) {| kind := k; text := f |};
     appliedFilters := push (appliedFilters c) a |}.

(** One of the four colour parameters: an entry of [eqParams] and an
    audit string. *)
Definition color_param (name : string) (p : Range.t)
    (st : list string * list string) : Rand (list string * list string) :=
  let (eqParams, applied) := st in
  if Range.enabled p then
    value <- sample p ;;
    ret (push eqParams (name ++ "=" ++ toFixed value 3),
         push applied (name ++ "=" ++ toFixed value 3))
  else ret st.

Definition color_block (params : VideoProcessingParameters) (c : Chain)
    : Rand Chain :=
  st <- color_param "saturation" (saturation params) ([], appliedFilters c) ;;
  st <- color_param "contrast" (contrast params) st ;;
  st <- color_param "brightness" (brightness params) st ;;
  st <- color_param "gamma" (gamma params) st ;;
  let (eqParams, applied) := st in
  ret {| filters :=
           if (0 <? List.length eqParams)%nat
           then push (filters c)
                  {| kind := KEq; text := "eq=" ++ String.concat ":" eqParams |}
           else filters c;
         appliedFilters := applied |}.

Definition noise_block (params : VideoProcessingParameters) (c : Chain)
    : Rand Chain :=
  if Range.enabled (noise params) then
    value <- sample (noise params) ;;
    let noiseStrength := floor (value * 10) in
    ret (emit c KNoise ("noise=alls=" ++ str noiseStrength ++ ":allf=t")
                       ("noise=" ++ str noiseStrength))
  else ret c.

Definition rotation_block (params : VideoProcessingParameters) (c : Chain)
    : Rand Chain :=
  if Range.enabled (rotation params) then
    degrees <- sample (rotation params) ;;
    let radians := (degrees * Math_PI) / 180 in
    ret (emit c KRotate ("rotate=" ++ toFixed radians 4)
                        ("rotate=" ++ toFixed degrees 2 ++ "°"))
  else ret c.

Definition flip_block (params : VideoProcessingParameters) (c : Chain)
    : Rand Chain :=
  if Toggle.enabled (flipHorizontally params) then
    ret (emit c KHflip "hflip" "hflip")
  else ret c.

Definition zoom_block (params : VideoProcessingParameters) (c : Chain)
    : Rand Chain :=
  if Range.enabled (zoom params) then
    zoomValue <- sample (zoom params) ;;
    if 0 <? zoomValue then
      let scale := 1 + zoomValue in
      ret (emit c KZoom
             ("scale=iw*" ++ toFixed scale 3 ++ ":ih*" ++ toFixed scale 3)
             ("zoom=" ++ toFixed zoomValue 3))
    else ret c
  else ret c.

Definition pixelShift_block (params : VideoProcessingParameters) (c : Chain)
    : Rand Chain :=
  if Range.enabled (pixelShift params) then
    shiftValue <- sample (pixelShift params) ;;
    if 0 <? shiftValue then
      let shiftPixels := floor (shiftValue * 5) in
      ret (emit c KCrop
             ("crop=iw-" ++ str shiftPixels ++ ":ih-" ++ str shiftPixels
               ++ ":" ++ str (floor (shiftPixels / 2))
               ++ ":" ++ str (floor (shiftPixels / 2)))
             ("pixelShift=" ++ str shiftPixels ++ "px"))
    else ret c
  else ret c.

Definition vignette_block (params : VideoProcessingParameters) (c : Chain)
    : Rand Chain :=
  if Range.enabled (vignette params) then
    value <- sample (vignette params) ;;
    if 0 <? value then
      ret (emit c KVignette "vignette=angle=PI/4:eval=frame"
                            ("vignette=" ++ toFixed value 3))
    else ret c
  else ret c.

Definition waveformShift_block (params : VideoProcessingParameters)
    (c : Chain) : Rand Chain :=
  if Range.enabled (waveformShift params) then
    value <- sample (waveformShift params) ;;
    if 0 <? value then
      let shift := floor (value * 3) in
      ret (emit c KGeq
             ("geq=r='r(X+" ++ str shift ++ ",Y)':g='g(X,Y+" ++ str shift
               ++ ")':b='b(X,Y)'")
             ("waveformShift=" ++ toFixed value 3))
    else ret c
  else ret c.

Definition randomPixelSize_block (params : VideoProcessingParameters)
    (c : Chain) : Rand Chain :=
  if Toggle.enabled (randomPixelSize params) then
    r <- random ;;
    let baseHeight := 720 + floor (r * 360) in
    let width := floor (baseHeight * 9 / 16 / 2) * 2 in
    let height := floor (baseHeight / 2) * 2 in
    ret (emit c KResize ("scale=" ++ str width ++ ":" ++ str height)
                        ("randomSize=" ++ str width ++ "x" ++ str height))
  else ret c.

Definition speed_block (params : VideoProcessingParameters) (c : Chain)
    : Rand Chain :=
  if Range.enabled (speed params) then
    speedValue <- sample (speed params) ;;
    let pts := toFixed (1 / speedValue) 3 in
    ret (emit c KSetpts ("setpts=" ++ pts ++ "*PTS")
                        ("speed=" ++ toFixed speedValue 3 ++ "x"))
  else ret c.

Definition framerate_block (params : VideoProcessingParameters) (c : Chain)
    : Rand Chain :=
  if Range.enabled (framerate params) then
    v <- sample (framerate params) ;;
    let fps := floor v in
    ret (emit c KFps ("fps=" ++ str fps) ("fps=" ++ str fps))
  else ret c.

Definition buildFilterChain (params : VideoProcessingParameters)
    : Rand Chain :=
  c <- color_block params {| filters := []; appliedFilters := [] |} ;;
  c <- noise_block params c ;;
  c <- rotation_block params c ;;
  c <- flip_block params c ;;
  c <- zoom_block params c ;;
  c <- pixelShift_block params c ;;
  c <- vignette_block params c ;;
  c <- waveformShift_block params c ;;
  c <- randomPixelSize_block params c ;;
  c <- speed_block params c ;;
  framerate_block params c.

(** [videoFilters] of the returned object. *)
Definition videoFilters (c : Chain) : list string := map text (filters c).

(** *** [VideoProcessor.buildFilterString] (the legacy processor) *)

Definition legacy_color (name : string) (p : Range.t)
    (fs : list Directive) : Rand (list Directive) :=
  if Range.enabled p then
    value <- sample p ;;
    ret (push fs {| kind := KEq;
                    text := "eq=" ++ name ++ "=" ++ toFixed value 2 |})
  else ret fs.

Definition legacyFilters (params : VideoProcessingParameters)
    : Rand (list Directive) :=
  fs <- legacy_color "saturation" (saturation params) [] ;;
  fs <- legacy_color "contrast" (contrast params) fs ;;
  fs <- legacy_color "brightness" (brightness params) fs ;;
  fs <- legacy_color "gamma" (gamma params) fs ;;
  fs <- (if Range.enabled (noise params) then
           noiseValue <- sample (noise params) ;;
           ret (push fs {| kind := KNoise;
                           text := "noise=alls=" ++ str (floor (noiseValue * 100))
                                     ++ ":allf=t" |})
         else ret fs) ;;
  fs <- (if Range.enabled (rotation params) then
           rotationValue <- sample (rotation params) ;;
           let radians := (rotationValue * Math_PI) / 180 in
           ret (push fs {| kind := KRotate;
                           text := "rotate=" ++ toFixed radians 4 |})
         else ret fs) ;;
  fs <- (if Toggle.enabled (flipHorizontally params) then
           ret (push fs {| kind := KHflip; text := "hflip" |})
         else ret fs) ;;
  fs <- (if Range.enabled (zoom params) then
           zoomValue <- sample (zoom params) ;;
           let scale := 1 + zoomValue in
           ret (push fs {| kind := KZoom;
                           text := "scale=iw*" ++ toFixed scale 2
                                     ++ ":ih*" ++ toFixed scale 2 |})
         else ret fs) ;;
  fs <- (if Range.enabled (pixelShift params) then
           shiftValue <- sample (pixelShift params) ;;
           let cropPixels := floor (shiftValue * 10) in
           if 0 <? cropPixels then
             ret (push fs {| kind := KCrop;
                             text := "crop=iw-" ++ str cropPixels
                                       ++ ":ih-" ++ str cropPixels
                                       ++ ":" ++ str (floor (cropPixels / 2))
                                       ++ ":" ++ str (floor (cropPixels / 2)) |})
           else ret fs
         else ret fs) ;;
  (if Range.enabled (vignette params) then
     vignetteValue <- sample (vignette params) ;;
     ret (push fs {| kind := KVignette;
                     text := "vignette=PI/4+" ++ toFixed vignetteValue 2 |})
   else ret fs).

Definition buildFilterString (params : VideoProcessingParameters)
    : Rand string :=
  fs <- legacyFilters params ;;
  ret (if (0 <? List.length fs)%nat
       then String.concat "," (map text fs) else "").

(** *** The quality mapping, the same expression in both [processVideo] *)

Definition crf (videoQuality : float) : float :=
  51 - floor (videoQuality * 0x1.051eb851eb852p-1).

(** *** The processors *)

(** The behaviour of the engine on its [n]-th job. *)
Variable engine : nat -> EngineRun.

Section Processor.

Variable U : Type.

Local Open Scope async_scope.

Definition set_caller (u : U) (w : World U) : World U :=
  {| randomCalls := randomCalls w; jobs := jobs w; execLog := execLog w;
     ffmpeg := ffmpeg w; isLoaded := isLoaded w;
     supportsWebCodecs := supportsWebCodecs w; caller := u |}.

Definition set_ffmpeg (f : option (list (Listener U))) (w : World U)
    : World U :=
  {| randomCalls := randomCalls w; jobs := jobs w; execLog := execLog w;
     ffmpeg := f; isLoaded := isLoaded w;
     supportsWebCodecs := supportsWebCodecs w; caller := caller w |}.

Definition set_isLoaded (b : bool) (w : World U) : World U :=
  {| randomCalls := randomCalls w; jobs := jobs w; execLog := execLog w;
     ffmpeg := ffmpeg w; isLoaded := b;
     supportsWebCodecs := supportsWebCodecs w; caller := caller w |}.

(** A computation that only draws random numbers. *)
Definition draw {A} (c : Rand A) : Async U A :=
  fun w =>
    let (a, n) := c (randomCalls w) in
    (Resolved a,
     {| randomCalls := n; jobs := jobs w; execLog := execLog w;
        ffmpeg := ffmpeg w; isLoaded := isLoaded w;
        supportsWebCodecs := supportsWebCodecs w; caller := caller w |}).

(** The engine takes up its next job. *)
Definition startJob : Async U (nat * EngineRun) :=
  fun w =>
    (Resolved (jobs w, engine (jobs w)),
     {| randomCalls := randomCalls w; jobs := S (jobs w);
        execLog := execLog w; ffmpeg := ffmpeg w; isLoaded := isLoaded w;
        supportsWebCodecs := supportsWebCodecs w; caller := caller w |}).

(** [await inputFile.arrayBuffer()] *)
Definition arrayBuffer (f : File.t) : Async U unit :=
  if File.readable f then resolve tt else reject FileUnreadable.

(** A call into the engine at stage [s] of the current job. *)
Definition engineCall (run : EngineRun) (s : Stage) : Async U unit :=
  if fails_at run s then reject (EngineFailed s) else resolve tt.

(** [this.ffmpeg.on('progress', l)] *)
Definition on_progress (l : Listener U) : Async U unit :=
  fun w =>
    (Resolved tt,
     set_ffmpeg (option_map (fun ls => push ls l) (ffmpeg w)) w).

(** One listener receives one progress event. *)
Definition notify (p : float) (l : Listener U) (u : U) : Listener U * U :=
  if throttled l then
    let n := S (progressCounter l) in
    ({| throttled := true; progressCounter := n;
        callback := callback l |},
     if (n mod 10 =? 0)%nat then callback l p u else u)
  else (l, callback l p u).

Fixpoint notify_all (p : float) (ls : list (Listener U)) (u : U)
    : list (Listener U) * U :=
  match ls with
  | [] => ([], u)
  | l :: rest =>
      let (l', u') := notify p l u in
      let (rest', u'') := notify_all p rest u' in
      (l' :: rest', u'')
  end.

Fixpoint report (events : list float) (ls : list (Listener U)) (u : U)
    : list (Listener U) * U :=
  match events with
  | [] => (ls, u)
  | p :: rest =>
      let (ls', u') := notify_all p ls u in
      report rest ls' u'
  end.

(** [await this.ffmpeg.exec(args)]: the engine reports its progress to
    every registered listener, then resolves or rejects. *)
Definition exec (run : EngineRun) (args : list string) : Async U unit :=
  fun w =>
    let ls := match ffmpeg w with Some ls => ls | None => [] end in
    let (ls', u') := report (progressEvents run) ls (caller w) in
    engineCall run AtExec
      {| randomCalls := randomCalls w; jobs := jobs w;
         execLog := push (execLog w) args;
         ffmpeg := option_map (fun _ => ls') (ffmpeg w);
         isLoaded := isLoaded w;
         supportsWebCodecs := supportsWebCodecs w; caller := u' |}.

(** [new VideoProcessorEnhanced()], with what [detectWebCodecs] finds. *)
Definition construct (webCodecs : bool) (u : U) : World U :=
  {| randomCalls := 0; jobs := 0; execLog := []; ffmpeg := None;
     isLoaded := false; supportsWebCodecs := webCodecs; caller := u |}.

(** [initialize()]; [loads] tells whether [ffmpeg.load] resolves. *)
Definition initialize (loads : bool) : Async U unit :=
  fun w =>
    if isLoaded w then (Resolved tt, w)
    else
      let w := set_ffmpeg (Some []) w in
      if loads then (Resolved tt, set_isLoaded true w)
      else (Rejected LoadFailed, w).

(** **** [VideoProcessorEnhanced] *)

Definition processWithWebCodecs (inputFile : File.t)
    (params : VideoProcessingParameters)
    (onProgress : option (float -> U -> U)) : Async U ProcessingResult :=
  resolve {| output_url := UrlOfFile inputFile;
             applied_filters := ["webcodecs-fallback"];
             metadata := {| duration := 0; size := File.size inputFile;
                            format := "original";
                            processing_time := 100 |} |}.

Definition processWithCanvas (inputFile : File.t)
    (params : VideoProcessingParameters)
    (onProgress : option (float -> U -> U)) : Async U ProcessingResult :=
  resolve {| output_url := UrlOfFile inputFile;
             applied_filters := ["canvas-fallback"];
             metadata := {| duration := 0; size := File.size inputFile;
                            format := "original";
                            processing_time := 200 |} |}.

Definition inputFileName : string := "input.mp4".

(** The argument list of the enhanced processor and the audit list. *)
Definition enhancedArgs (params : VideoProcessingParameters)
    : Rand (list string * list string) :=
  (let args := ["-i"; inputFileName] in
   args <- (if Range.enabled (trim params) then
              trimValue <- sample (trim params) ;;
              ret (pushes args ["-ss"; toFixed trimValue 2])
            else ret args) ;;
   c <- buildFilterChain params ;;
   let applied := appliedFilters c in
   let args :=
     if (0 <? List.length (videoFilters c))%nat
     then pushes args ["-vf"; String.concat "," (videoFilters c)]
     else args in
   let args := pushes args ["-crf"; str (crf (videoQuality params))] in
   args <- (if Range.enabled (videoBitrate params) then
              v <- sample (videoBitrate params) ;;
              ret (pushes args ["-b:v"; str (floor v) ++ "k"])
            else ret args) ;;
   args <- (if Range.enabled (audioBitrate params) then
              v <- sample (audioBitrate params) ;;
              ret (pushes args ["-b:a"; str (floor v) ++ "k"])
            else ret args) ;;
   st <- (if Range.enabled (volume params) then
            volumeValue <- sample (volume params) ;;
            ret (pushes args ["-af"; "volume=" ++ toFixed volumeValue 3],
                 push applied ("volume=" ++ toFixed volumeValue 3))
          else ret (args, applied)) ;;
   let (args, applied) := st in
   ret (pushes args ["-c:v"; "libvpx-vp9"; "-c:a"; "libopus"; "output.webm"],
        applied))%rand.

Definition processVideo (inputFile : File.t)
    (params : VideoProcessingParameters)
    (onProgress : option (float -> U -> U)) : Async U ProcessingResult :=
  fun w =>
    if negb (isLoaded w) then
      if supportsWebCodecs w
      then processWithWebCodecs inputFile params onProgress w
      else processWithCanvas inputFile params onProgress w
    else
      match ffmpeg w with
      | None => (Rejected NotInitialized, w)
      | Some _ =>
          (_ <- arrayBuffer inputFile ;;
           job <- startJob ;;
           let (n, run) := job : nat * EngineRun in
           _ <- engineCall run AtWriteFile ;;
           st <- draw (enhancedArgs params) ;;
           let (args, applied) := st : list string * list string in
           _ <- match onProgress with
                | Some cb =>
                    on_progress
                      {| throttled := false; progressCounter := 0;
                         callback := fun ratio => cb (ratio * 100) |}
                | None => resolve tt
                end ;;
           _ <- exec run args ;;
           _ <- engineCall run AtReadFile ;;
           _ <- engineCall run AtDeleteFile ;;
           resolve {| output_url := UrlOfOutput n;
                      applied_filters := applied;
                      metadata := {| duration := 0;
                                     size := outputSize run;
                                     format := "webm";
                                     processing_time := elapsed run |} |})
            w
      end.

(** The loop of [generateVariations], from iteration [i] on. *)
Fixpoint variationLoop {R} (process : option (float -> U -> U) -> Async U R)
    (onProgress : option (nat -> float -> U -> U))
    (i count : nat) (results : list R) : Async U (list R) :=
  match count with
  | O => resolve results
  | S count' =>
      result <- process
                  (Some (fun ratio u =>
                           match onProgress with
                           | Some cb => cb (i + 1)%nat ratio u
                           | None => u
                           end)) ;;
      variationLoop process onProgress (S i) count' (push results result)
  end.

Definition generateVariations (inputFile : File.t)
    (params : VideoProcessingParameters) (numberOfVariations : nat)
    (onProgress : option (nat -> float -> U -> U))
    : Async U (list ProcessingResult) :=
  variationLoop (processVideo inputFile params) onProgress 0
    numberOfVariations [].

(** **** [VideoProcessor] (the legacy processor) *)

(** [args.indexOf(s)], [None] for -1. *)
Fixpoint indexOf (s : string) (args : list string) : option nat :=
  match args with
  | [] => None
  | a :: rest =>
      if String.eqb a s then Some O
      else option_map S (indexOf s rest)
  end.

(** [args[i] += suffix] for a position [i] inside the array. *)
Fixpoint append_at (i : nat) (suffix : string) (args : list string)
    : list string :=
  match args, i with
  | [], _ => []
  | a :: rest, O => (a ++ suffix) :: rest
  | a :: rest, S i' => a :: append_at i' suffix rest
  end.

(** [s.substring(1)] *)
Definition substring1 (s : string) : string :=
  match s with
  | EmptyString => EmptyString
  | String _ rest => rest
  end.

(** Truthiness of a string. *)
Definition nonempty (s : string) : bool :=
  match s with
  | EmptyString => false
  | String _ _ => true
  end.

Definition legacyArgs (params : VideoProcessingParameters)
    : Rand (list string) :=
  (let args := ["-i"; inputFileName] in
   filterString <- buildFilterString params ;;
   let args :=
     if nonempty filterString then pushes args ["-vf"; filterString]
     else args in
   let args := pushes args ["-crf"; str (crf (videoQuality params))] in
   args <- (if Range.enabled (videoBitrate params) then
              bitrate <- sample (videoBitrate params) ;;
              ret (pushes args ["-b:v"; str (floor bitrate) ++ "k"])
            else ret args) ;;
   args <- (if Range.enabled (audioBitrate params) then
              bitrate <- sample (audioBitrate params) ;;
              ret (pushes args ["-b:a"; str (floor bitrate) ++ "k"])
            else ret args) ;;
   args <- (if Range.enabled (framerate params) then
              fps <- sample (framerate params) ;;
              ret (pushes args ["-r"; str (floor fps)])
            else ret args) ;;
   args <- (if Range.enabled (speed params) then
              speedValue <- sample (speed params) ;;
              let filterPrefix :=
                if nonempty filterString then "," else "" in
              let speedFilter :=
                filterPrefix ++ "setpts=" ++ toFixed (1 / speedValue) 3
                  ++ "*PTS" in
              if nonempty filterString then
                ret (append_at
                       (match indexOf filterString args with
                        | Some i => i + 1
                        | None => 0
                        end)%nat
                       speedFilter args)
              else ret (pushes args ["-vf"; substring1 speedFilter])
            else ret args) ;;
   args <- (if Range.enabled (volume params) then
              volumeValue <- sample (volume params) ;;
              ret (pushes args ["-af"; "volume=" ++ toFixed volumeValue 2])
            else ret args) ;;
   args <- (if Range.enabled (trim params) then
              trimValue <- sample (trim params) ;;
              ret (pushes args ["-ss"; toFixed trimValue 2])
            else ret args) ;;
   ret (pushes args ["output.mp4"]))%rand.

Definition legacy_processVideo (inputFile : File.t)
    (params : VideoProcessingParameters)
    (onProgress : option (float -> U -> U)) : Async U Blob.t :=
  fun w =>
    match ffmpeg w with
    | None => (Rejected NotInitialized, w)
    | Some _ =>
        (_ <- arrayBuffer inputFile ;;
         job <- startJob ;;
         let (n, run) := job : nat * EngineRun in
         _ <- engineCall run AtWriteFile ;;
         args <- draw (legacyArgs params) ;;
         _ <- match onProgress with
              | Some cb =>
                  on_progress
                    {| throttled := true; progressCounter := 0;
                       callback := fun ratio => cb (ratio * 100) |}
              | None => resolve tt
              end ;;
         _ <- exec run args ;;
         _ <- engineCall run AtReadFile ;;
         _ <- engineCall run AtDeleteFile ;;
         resolve {| Blob.size := outputSize run;
                    Blob.type := "video/mp4" |})
          w
    end.

Definition legacy_generateVariations (inputFile : File.t)
    (params : VideoProcessingParameters) (numberOfVariations : nat)
    (onProgress : option (nat -> float -> U -> U))
    : Async U (list Blob.t) :=
  variationLoop (legacy_processVideo inputFile params) onProgress 0
    numberOfVariations [].

(** [setState(prev => f(prev))] in the calling component. *)
Definition setState (f : U -> U) : Async U unit :=
  fun w => (Resolved tt, set_caller (f (caller w)) w).

(** [try { c } catch (error) { handler }] *)
Definition try_catch {A} (c : Async U A) (handler : Error -> Async U A)
    : Async U A :=
  fun w =>
    match c w with
    | (Resolved a, w') => (Resolved a, w')
    | (Rejected e, w') => handler e w'
    end.

(** [try { c } finally { f }] *)
Definition try_finally {A} (c : Async U A) (f : Async U unit)
    : Async U A :=
  fun w =>
    match c w with
    | (r, w') =>
        match f w' with
        | (Resolved _, w'') => (r, w'')
        | (Rejected e, w'') => (Rejected e, w'')
        end
    end.

Record Capabilities := { c_ffmpeg : bool; c_webcodecs : bool; canvas : bool }.

(** [get capabilities()] *)
Definition capabilities : Async U Capabilities :=
  fun w =>
    (Resolved {| c_ffmpeg := isLoaded w;
                 c_webcodecs := supportsWebCodecs w;
                 canvas := true |}, w).

End Processor.

(** *** [EnhancedSingleVideoProcessor.handleProcess] *)

Local Open Scope async_scope.


(** *** [BatchVideoProcessor.processQueue] *)

(** [setQueue(prev => prev.map(q => q.id === itemId ? f(q) : q))] *)
Definition updateItem (itemId : string) (f : QueueItem -> QueueItem)
    : Async Batch unit :=
  setState (fun b : Batch =>
    {| queue := map (fun q => if String.eqb (id q) itemId then f q else q)
                    (queue b);
       processing := processing b |}).

Definition with_progress (p : float) (q : QueueItem) : QueueItem :=
  {| id := id q; file := file q; status := status q; progress := p;
     variations := variations q |}.

Definition with_status (st : Status.t) (q : QueueItem) : QueueItem :=
  {| id := id q; file := file q; status := st; progress := progress q;
     variations := variations q |}.

Definition mark_completed (vs : list Blob.t) (q : QueueItem) : QueueItem :=
  {| id := id q; file := file q; status := Status.completed;
     progress := 100; variations := vs |}.

(** The simulated progress of the fallback branch, steps [step] to
    [totalSteps]. *)
Fixpoint simulate (itemId : string) (totalSteps : float) (step : float)
    (remaining : nat) : Async Batch unit :=
  match remaining with
  | O => resolve tt
  | S remaining' =>
      _ <- updateItem itemId (with_progress (step / totalSteps * 100)) ;;
      simulate itemId totalSteps (step + 1) remaining'
  end.

Fixpoint mockVariations (f : File.t) (count : nat) (acc : list Blob.t)
    : Async Batch (list Blob.t) :=
  match count with
  | O => resolve acc
  | S count' =>
      _ <- arrayBuffer f ;;
      mockVariations f count'
        (push acc {| Blob.size := File.size f; Blob.type := File.type f |})
  end.

(** The [try] block of the loop of [processQueue]. *)
Definition itemBody (parameters : VideoProcessingParameters)
    (numberOfVariations : nat) (ffmpegLoaded : bool) (item : QueueItem)
    : Async Batch unit :=
  if ffmpegLoaded then
    processedVariations <-
      legacy_generateVariations (file item) parameters numberOfVariations
        (Some (fun (variation : nat) ratio (b : Batch) =>
                 {| queue := map (fun q =>
                                    if String.eqb (id q) (id item)
                                    then with_progress ratio q else q)
                                 (queue b);
                    processing := processing b |})) ;;
    updateItem (id item) (mark_completed processedVariations)
  else
    let totalSteps := (numberOfVariations * 20)%nat in
    _ <- simulate (id item)
           (JS.of_Z (Z.of_nat totalSteps)) 0 (S totalSteps) ;;
    vs <- mockVariations (file item) numberOfVariations [] ;;
    updateItem (id item) (mark_completed vs).

(** The body of the [for] loop of [processQueue] for one item. *)
Definition processItem (parameters : VideoProcessingParameters)
    (numberOfVariations : nat) (ffmpegLoaded : bool) (item : QueueItem)
    : Async Batch unit :=
  _ <- updateItem (id item)
         (fun q => with_progress 0 (with_status Status.processing q)) ;;
  try_catch (itemBody parameters numberOfVariations ffmpegLoaded item)
    (fun _ => updateItem (id item) (with_status Status.error)).

Fixpoint processItems (parameters : VideoProcessingParameters)
    (numberOfVariations : nat) (ffmpegLoaded : bool)
    (items : list QueueItem) : Async Batch unit :=
  match items with
  | [] => resolve tt
  | item :: rest =>
      _ <- processItem parameters numberOfVariations ffmpegLoaded item ;;
      processItems parameters numberOfVariations ffmpegLoaded rest
  end.

Definition setProcessing (b : bool) : Async Batch unit :=
  setState (fun s : Batch => {| queue := queue s; processing := b |}).

Definition processQueue (parameters : VideoProcessingParameters)
    (numberOfVariations : nat) (ffmpegLoaded : bool) : Async Batch unit :=
  fun w =>
    let snapshot := queue (caller w) in
    if (List.length snapshot =? 0)%nat || processing (caller w)
    then (Resolved tt, w)
    else
      (_ <- setProcessing true ;;
       _ <- processItems parameters numberOfVariations ffmpegLoaded snapshot ;;
       setProcessing false) w.


End Program.

(** ** Auxiliary definitions of the statements *)

(** The callback [generateVariations] hands to iteration [i]. *)
Definition iterationCallback {U : Type}
    (onProgress : option (nat -> float -> U -> U)) (i : nat)
    : option (float -> U -> U) :=
  Some (fun ratio u =>
          match onProgress with
          | Some cb => cb (i + 1)%nat ratio u
          | None => u
          end).

(** What [processWithCanvas] resolves with. *)
Definition canvasResult (f : File.t) : ProcessingResult :=
  {| output_url := UrlOfFile f;
     applied_filters := ["canvas-fallback"%string];
     metadata := {| duration := 0; size := File.size f;
                    format := "original"; processing_time := 200 |} |}.

(** A relation on caller states that every call of the listener respects. *)
Definition Respects {U : Type} (rel : U -> U -> Prop) (l : Listener U) : Prop :=
  forall ratio u, rel u (callback l ratio u).

(** Every listener of the engine object respects [rel]. *)
Definition AllRespect {U : Type} (rel : U -> U -> Prop) (w : World U) : Prop :=
  match ffmpeg w with
  | Some ls => Forall (Respects rel) ls
  | None => True
  end.

(** The capability tier is the same in both worlds. *)
Definition sameTier {U : Type} (w w' : World U) : Prop :=
  isLoaded w' = isLoaded w /\ supportsWebCodecs w' = supportsWebCodecs w /\
  (ffmpeg w = None <-> ffmpeg w' = None).

(** What [processQueue] decides about the items: identifier and status. *)
Definition verdicts (b : Batch) : list (string * Status.t) :=
  map (fun q => (id q, status q)) (queue b).

(** Two queue states that differ at most in the progress of their items. *)
Definition sameButProgress (b b' : Batch) : Prop :=
  processing b' = processing b /\
  map (fun q => (id q, file q, status q, variations q)) (queue b') =
  map (fun q => (id q, file q, status q, variations q)) (queue b).

(** The verdicts with the one on [itemId] replaced. *)
Definition decide (itemId : string) (st : Status.t)
    (vs : list (string * Status.t)) : list (string * Status.t) :=
  map (fun v => if String.eqb (fst v) itemId then (fst v, st) else v) vs.

(** The status the loop leaves on an item whose [try] block ended in [r]. *)
Definition verdict {A : Type} (r : Outcome A) : Status.t :=
  match r with
  | Resolved _ => Status.completed
  | Rejected _ => Status.error
  end.


(** An action that keeps the listeners respectful, moves the caller state
    along [rel] and stays in the capability tier. *)
Definition Keeps {U A : Type} (rel : U -> U -> Prop) (c : Async U A) : Prop :=
  forall w,
    AllRespect rel w ->
    AllRespect rel (snd (c w)) /\
    rel (caller w) (caller (snd (c w))) /\
    sameTier w (snd (c w)).

(** The [try] block of [processQueue] without its last step, the update
    to [completed]. *)
Definition itemWork (Math_random : nat -> float)
    (toString_other : float -> string) (engine : nat -> EngineRun)
    (parameters : VideoProcessingParameters) (numberOfVariations : nat)
    (ffmpegLoaded : bool) (item : QueueItem) : Async Batch (list Blob.t) :=
  if ffmpegLoaded then
    legacy_generateVariations Math_random toString_other engine (file item)
      parameters numberOfVariations
      (Some (fun (variation : nat) ratio (b : Batch) =>
               {| queue := map (fun q =>
                                  if String.eqb (id q) (id item)
                                  then with_progress ratio q else q)
                               (queue b);
                  processing := processing b |}))
  else
    (_ <- simulate (id item)
            (JS.of_Z (Z.of_nat (numberOfVariations * 20))) 0
            (S (numberOfVariations * 20)) ;;
     mockVariations (file item) numberOfVariations [])%async.

(** The world in which the [try] block of [item] starts. *)
Definition started (item : QueueItem) (w : World Batch) : World Batch :=
  snd (updateItem (id item)
         (fun q => with_progress 0 (with_status Status.processing q)) w).

(** How the loop over the items with identifiers [ids] relates an old
    verdict to the new one in the same position: same identifier; settled to
    [completed] or [error] if the identifier is one of [ids]; untouched
    otherwise. *)
Definition settled (ids : list string) (v v' : string * Status.t) : Prop :=
  fst v' = fst v /\
  (In (fst v) ids -> snd v' = Status.completed \/ snd v' = Status.error) /\
  (~ In (fst v) ids -> snd v' = snd v).

(** The directive of a block, if the block fired. *)
Definition opt {A : Type} (b : bool) (a : A) : list A :=
  if b then [a] else [].

(** The kinds of the directives of a chain, in order. *)
Definition kinds (fs : list Directive) : list Kind := map kind fs.

(** A guarded block fires only if its parameter is enabled and the sampled
    value of some draw is positive. *)
Definition guarded (Math_random : nat -> float) (p : Range.t) (b : bool)
    : Prop :=
  b = true ->
  Range.enabled p = true /\
  exists j, (0 <? fst (sample Math_random p j))%float = true.

(** ** Doubles as exact values

    What the statements about the sampler need of the format: the exact
    value of a finite double, and what it means for a double to be a
    correctly rounded result. *)

Module Binary64.

Local Open Scope Z_scope.

(** The exponent of the normal form of a number of [k] binary digits
    before the point. *)
Definition fexp (k : Z) : Z := SpecFloat.fexp prec emax k.

(** A mantissa and an exponent in the normal form of the format, with no
    bound on the exponent. *)
Definition canonical (m : positive) (e : Z) : Prop :=
  fexp (Z.pos (digits2_pos m) + e) = e.

(** The result for a mantissa and an exponent, unless the exponent is too
    large for the format. *)
Definition finite_or_inf (s : bool) (m : positive) (e : Z) : spec_float :=
  if e <=? 971 then S754_finite s m e else S754_infinity s.

(** The state of the shift register after [k] steps on a non-negative
    mantissa [m0]: the quotient, the last bit shifted out and whether any
    earlier one was set. *)
Definition shifted (m0 : Z) (k : nat) (r : shr_record) : Prop :=
  shr_m r = m0 / 2 ^ Z.of_nat k /\
  match k with
  | O => shr_r r = false /\ shr_s r = false
  | S k' =>
      shr_r r = Z.odd (m0 / 2 ^ Z.of_nat k') /\
      shr_s r = negb (m0 mod 2 ^ Z.of_nat k' =? 0)
  end.

(** Neither an infinity nor NaN. *)
Definition finite (f : spec_float) : bool :=
  match f with
  | S754_zero _ | S754_finite _ _ _ => true
  | _ => false
  end.

(** The value of a finite number, as a multiple of the smallest positive
    number of the format (2^-1074). *)
Definition sval (f : spec_float) : Z :=
  match f with
  | S754_finite s m e => cond_Zopp s (Z.pos m * 2 ^ (e + 1074))
  | _ => 0
  end.

(** A finite number of the format, in its normal form. *)
Definition representable (f : spec_float) : Prop :=
  valid_binary f = true /\ finite f = true.

(** [f] is a result of rounding the exact value [X / c] (in units of
    2^-1074) to the format: a finite number at least as close to it as
    every other one and of the same sign, or an infinity when the value is
    beyond all of them. *)
Definition Nearest (c X : Z) (f : spec_float) : Prop :=
  match f with
  | S754_nan => False
  | S754_infinity _ =>
      forall b, representable b -> c * Z.abs (sval b) < Z.abs X
  | _ =>
      (0 <= X -> 0 <= sval f) /\ (X <= 0 -> sval f <= 0) /\
      forall b, representable b ->
        Z.abs (c * sval f - X) <= Z.abs (c * sval b - X)
  end.

(** The exact value of a finite double, in units of 2^-1074. *)
Definition value (x : float) : Z := sval (Prim2SF x).

End Binary64.

(** ** Concrete inputs used below *)

Module Example.

Local Open Scope float_scope.

(** A runtime whose unmodelled renderings are never reached. *)
Definition toString_other (x : float) : string := "".

(** [Math.random()] always returns one half. *)
Definition half (i : nat) : float := 0.5.

Definition range (b : bool) (lo hi : float) : Range.t :=
  {| Range.enabled := b; Range.min := lo; Range.max := hi |}.

Definition off : Range.t := range false 0 0.

(** Every parameter disabled, at the default quality. *)
Definition disabled : VideoProcessingParameters :=
  {| videoQuality := 80;
     videoBitrate := off; audioBitrate := off; framerate := off;
     saturation := off; contrast := off; brightness := off; gamma := off;
     vignette := off; noise := off; waveformShift := off; pixelShift := off;
     speed := off; zoom := off; volume := off; rotation := off;
     flipHorizontally := {| Toggle.enabled := false |};
     randomPixelSize := {| Toggle.enabled := false |};
     trim := off |}.

Definition clip : File.t :=
  {| File.name := "clip.mp4"; File.type := "video/mp4"; File.size := 4242;
     File.readable := true |}.

(** An engine that reports two progress events on every job and succeeds. *)
Definition steady (n : nat) : EngineRun :=
  {| progressEvents := [0.25; 0.75]; failure := None; outputSize := 1000;
     elapsed := 5 |}.

(** The record a caller keeps of the calls of its progress callback. *)
Definition Calls : Type := list (nat * float).

Definition record_call (variation : nat) (percent : float) (log : Calls)
    : Calls :=
  log ++ [(variation, percent)].

(** The enhanced processor after a successful [initialize()]. *)
Definition loaded (U : Type) (u : U) : World U :=
  {| randomCalls := 0; jobs := 0; execLog := []; ffmpeg := Some [];
     isLoaded := true; supportsWebCodecs := false; caller := u |}.


Definition itemA : QueueItem :=
  {| id := "1_a.mp4"; file := clip; status := Status.pending; progress := 0;
     variations := [] |}.

Definition itemB : QueueItem :=
  {| id := "1_b.mp4"; file := clip; status := Status.pending; progress := 0;
     variations := [] |}.

(** The legacy processor after [initialize()], with two files queued. *)
Definition batchWorld : World Batch :=
  loaded {| queue := [itemA; itemB]; processing := false |}.

(** Zoom enabled with the range [0, 0], everything else disabled. *)
Definition zeroZoom : VideoProcessingParameters :=
  {| videoQuality := 80;
     videoBitrate := off; audioBitrate := off; framerate := off;
     saturation := off; contrast := off; brightness := off; gamma := off;
     vignette := off; noise := off; waveformShift := off; pixelShift := off;
     speed := off; zoom := range true 0 0; volume := off; rotation := off;
     flipHorizontally := {| Toggle.enabled := false |};
     randomPixelSize := {| Toggle.enabled := false |};
     trim := off |}.



(** [Math.random()] always returns the largest double below one,
    [1 - 2^-53]. *)
Definition almostOne (i : nat) : float := 0x1.fffffffffffffp-1.

(** [Math.random()] always returns three quarters. *)
Definition threeQuarters (i : nat) : float := 0.75.

(** [2^53] and the next double, [2^53 + 2]. *)
Definition big : float := 0x1p+53.

Definition bigNext : float := 0x1.0000000000001p+53.

End Example.

(** * Further parts of the program

    The downloads, the buttons and hooks of the components, the queue
    operations and the parameter controls, with what the statements about
    them need. *)

(** ** Counting what [buildFilterChain] does *)

(** The number of colour parameters that are enabled. *)
Definition enabledColours (params : VideoProcessingParameters) : nat :=
  Nat.b2n (Range.enabled (saturation params))
  + Nat.b2n (Range.enabled (contrast params))
  + Nat.b2n (Range.enabled (brightness params))
  + Nat.b2n (Range.enabled (gamma params)).

(** The number of parameters for which [buildFilterChain] calls
    [Math.random]: every enabled range it reads and the resize toggle. *)
Definition chainDraws (params : VideoProcessingParameters) : nat :=
  enabledColours params
  + Nat.b2n (Range.enabled (noise params))
  + Nat.b2n (Range.enabled (rotation params))
  + Nat.b2n (Range.enabled (zoom params))
  + Nat.b2n (Range.enabled (pixelShift params))
  + Nat.b2n (Range.enabled (vignette params))
  + Nat.b2n (Range.enabled (waveformShift params))
  + Nat.b2n (Toggle.enabled (randomPixelSize params))
  + Nat.b2n (Range.enabled (speed params))
  + Nat.b2n (Range.enabled (framerate params)).

(** A block that pushed [n] directives and [n] audit strings and drew [d]
    random numbers. *)
Definition Grows (n d : nat) (c : Chain) (i : nat) (r : Chain * nat) : Prop :=
  List.length (filters (fst r)) = (List.length (filters c) + n)%nat /\
  List.length (appliedFilters (fst r)) =
    (List.length (appliedFilters c) + n)%nat /\
  snd r = (i + d)%nat.

(** ** The argument list of the legacy processor *)

(** [s.startsWith(c)] for a character that is none of [-] and [i]. *)
Definition filterHead (s : string) : Prop :=
  exists c rest, s = String c rest /\ c <> "-"%char /\ c <> "i"%char.

Module ExampleSpeed.
Local Open Scope float_scope.
Import Example.
(** Speed enabled with its default range, everything else disabled. *)
Definition spedUp : VideoProcessingParameters :=
  {| videoQuality := 80;
     videoBitrate := off; audioBitrate := off; framerate := off;
     saturation := off; contrast := off; brightness := off; gamma := off;
     vignette := off; noise := off; waveformShift := off; pixelShift := off;
     speed := range true 0x1.ccccccccccccdp-1 0x1.3333333333333p+0;
     zoom := off; volume := off; rotation := off;
     flipHorizontally := {| Toggle.enabled := false |};
     randomPixelSize := {| Toggle.enabled := false |};
     trim := off |}.

(** Speed and the horizontal flip enabled, everything else disabled. *)
Definition spedUpFlipped : VideoProcessingParameters :=
  {| videoQuality := 80;
     videoBitrate := off; audioBitrate := off; framerate := off;
     saturation := off; contrast := off; brightness := off; gamma := off;
     vignette := off; noise := off; waveformShift := off; pixelShift := off;
     speed := range true 0x1.ccccccccccccdp-1 0x1.3333333333333p+0;
     zoom := off; volume := off; rotation := off;
     flipHorizontally := {| Toggle.enabled := true |};
     randomPixelSize := {| Toggle.enabled := false |};
     trim := off |}.
End ExampleSpeed.

(** ** Progress events and listeners *)

(** The progress events the throttle of the legacy processor lets
    through: the tenth, the twentieth, ... of those a listener has
    received. *)
Definition everyTenth (events : list float) : list float :=
  map snd
    (filter (fun kp : nat * float => (S (fst kp) mod 10 =? 0)%nat)
       (combine (seq 0 (List.length events)) events)).

(** What a caller has seen once its callback was called with the
    percentages of [events], in order. *)
Definition seen {U : Type} (cb : float -> U -> U) (events : list float)
    (u : U) : U :=
  fold_left (fun u ratio => cb (ratio * 100)%float u) events u.

(** An engine run with no failing call. *)
Definition succeeds (run : EngineRun) : Prop := failure run = None.

(** The number of progress listeners the engine instance holds. *)
Definition listenerCount {U : Type} (w : World U) : option nat :=
  option_map (@List.length (Listener U)) (ffmpeg w).

Module ExampleEngine.

Local Open Scope float_scope.

(** An engine that reports twelve progress events on every job and
    succeeds. *)
Definition busy (n : nat) : EngineRun :=
  {| progressEvents :=
       [0.0625; 0.125; 0.1875; 0.25; 0.3125; 0.375; 0.4375; 0.5; 0.5625;
        0.625; 0.6875; 0.75];
     failure := None; outputSize := 1000; elapsed := 5 |}.

End ExampleEngine.

(** ** Downloads ([downloadBlob], [createZipWithVariations]) *)

Module Download.

Local Open Scope string_scope.

(** What [a.href] is set to: a URL that was passed in as a string, or the
    [n]-th URL made by [URL.createObjectURL]. *)
Inductive Href :=
| Given (u : Url)
| ObjectUrl (n : nat).

(** What a Blob handed to [downloadBlob] holds. *)
Inductive Payload :=
| Variation (b : Blob.t)
    (* a Blob of the legacy processor *)
| MetadataJson (r : ProcessingResult).
    (* new Blob([JSON.stringify(r, null, 2)], { type: 'application/json' }) *)

(** The first argument of the enhanced [downloadBlob]: [Blob | string]. *)
Inductive Source :=
| FromBlob (b : Payload)
| FromString (u : Url).

Record Anchor := { href : Href; download : string }.

(** The part of the page that [downloadBlob] touches.  Elements and object
    URLs are numbered in the order of their creation. *)
Record Page := {
  objectUrls : nat;                 (* URLs made by createObjectURL so far *)
  liveUrls : list (nat * Payload);  (* those not revoked yet *)
  elements : nat;                   (* elements made by createElement so far *)
  body : list nat;                  (* the children of document.body *)
  clicked : list Anchor             (* the links clicked so far *)
}.

(** [parent.appendChild(node)]: a node that is already a child moves to the
    end. *)
Definition appendChild (node : nat) (children : list nat) : list nat :=
  (filter (fun c => negb (Nat.eqb c node)) children ++ [node])%list.

(** [parent.removeChild(node)]; [None] is the NotFoundError thrown when
    [node] is not a child. *)
Fixpoint removeChild (node : nat) (children : list nat) : option (list nat) :=
  match children with
  | [] => None
  | c :: rest =>
      if Nat.eqb c node then Some rest
      else option_map (cons c) (removeChild node rest)
  end.

(** [URL.revokeObjectURL(url)] *)
Definition revoke (n : nat) (live : list (nat * Payload))
    : list (nat * Payload) :=
  filter (fun u => negb (Nat.eqb (fst u) n)) live.

(** How a call ended, with the page it left. *)
Inductive Attempt :=
| Completed (p : Page)
| Threw (p : Page).

(** [VideoProcessorEnhanced.downloadBlob] *)
Definition downloadBlob (blob : Source) (filename : string) (p : Page)
    : Attempt :=
  (* const url = typeof blob === 'string' ? blob : URL.createObjectURL(blob) *)
  let '(url, made, live) :=
    match blob with
    | FromString u => (Given u, objectUrls p, liveUrls p)
    | FromBlob b =>
        (ObjectUrl (objectUrls p), S (objectUrls p),
         (liveUrls p ++ [(objectUrls p, b)])%list)
    end in
  (* const a = document.createElement('a'); a.href = url; a.download = ... *)
  let a := elements p in
  let anchor := {| href := url; download := filename |} in
  (* document.body.appendChild(a); a.click() *)
  let children := appendChild a (body p) in
  let links := (clicked p ++ [anchor])%list in
  (* document.body.removeChild(a) *)
  match removeChild a children with
  | None =>
      Threw {| objectUrls := made; liveUrls := live; elements := S a;
               body := children; clicked := links |}
  | Some children' =>
      Completed
        {| objectUrls := made;
           liveUrls :=
             (* if (typeof blob !== 'string') URL.revokeObjectURL(url) *)
             match blob with
             | FromString _ => live
             | FromBlob _ => revoke (objectUrls p) live
             end;
           elements := S a;
           body := children';
           clicked := links |}
  end.

(** [VideoProcessor.downloadBlob] (the legacy processor): always a Blob. *)
Definition legacy_downloadBlob (blob : Blob.t) (filename : string) (p : Page)
    : Attempt :=
  downloadBlob (FromBlob (Variation blob)) filename p.

(** [`${i + 1}`] for an array index [i]. *)
Definition ordinal (i : nat) : string := JS.digits_of_Z (Z.of_nat (i + 1)).

(** The loop of the enhanced [createZipWithVariations], from index [i]. *)
Fixpoint zipLoop (baseFileName : string) (i : nat)
    (results : list ProcessingResult) (p : Page) : Attempt :=
  match results with
  | [] => Completed p
  | result :: rest =>
      let filename := baseFileName ++ "_variation_" ++ ordinal i ++ ".webm" in
      match downloadBlob (FromString (output_url result)) filename p with
      | Threw p => Threw p
      | Completed p =>
          let metadataBlob := MetadataJson result in
          let metadataFilename :=
            baseFileName ++ "_variation_" ++ ordinal i ++ "_metadata.json" in
          match downloadBlob (FromBlob metadataBlob) metadataFilename p with
          | Threw p => Threw p
          | Completed p => zipLoop baseFileName (S i) rest p
          end
      end
  end.

Definition createZipWithVariations (results : list ProcessingResult)
    (baseFileName : string) : Page -> Attempt :=
  zipLoop baseFileName 0 results.

(** The loop of the legacy [createZipWithVariations]. *)
Fixpoint legacy_zipLoop (baseFileName : string) (i : nat)
    (variations : list Blob.t) (p : Page) : Attempt :=
  match variations with
  | [] => Completed p
  | variation :: rest =>
      let filename := baseFileName ++ "_variation_" ++ ordinal i ++ ".mp4" in
      match legacy_downloadBlob variation filename p with
      | Threw p => Threw p
      | Completed p => legacy_zipLoop baseFileName (S i) rest p
      end
  end.

Definition legacy_createZipWithVariations (variations : list Blob.t)
    (baseFileName : string) : Page -> Attempt :=
  legacy_zipLoop baseFileName 0 variations.

End Download.

(** A page whose children were all made by [createElement] and whose live
    object URLs were all made by [createObjectURL]. *)
Definition tidy (p : Download.Page) : bool :=
  forallb (fun c => c <? Download.elements p) (Download.body p)
  && forallb (fun u => fst u <? Download.objectUrls p) (Download.liveUrls p).

(** The file names of the links clicked from the [k]-th one on. *)
Definition downloadsSince (k : nat) (p : Download.Page) : list string :=
  map Download.download (skipn k (Download.clicked p)).

(** A string of decimal digits. *)
Fixpoint digitString (s : string) : bool :=
  match s with
  | EmptyString => true
  | String c rest =>
      (48 <=? nat_of_ascii c)%nat && (nat_of_ascii c <=? 57)%nat
      && digitString rest
  end.

(** The names under which the enhanced [createZipWithVariations] saves
    result [i]. *)
Definition zipNames (baseFileName : string) (i : nat) : list string :=
  [(baseFileName ++ "_variation_" ++ Download.ordinal i ++ ".webm")%string;
   (baseFileName ++ "_variation_" ++ Download.ordinal i
      ++ "_metadata.json")%string].

(** The name under which the legacy one saves variation [i]. *)
Definition legacyZipName (baseFileName : string) (i : nat) : string :=
  (baseFileName ++ "_variation_" ++ Download.ordinal i ++ ".mp4")%string.

(** ** The download buttons of the components *)

Module Text.

(** [s.split(sep)] for a separator of one character: the pieces between
    the separators, at least one. *)
Fixpoint split (sep : ascii) (s : string) : list string :=
  match s with
  | EmptyString => [EmptyString]
  | String c rest =>
      if Ascii.eqb c sep then EmptyString :: split sep rest
      else
        match split sep rest with
        | piece :: pieces => String c piece :: pieces
        | [] => [String c EmptyString]
        end
  end.

(** [s.startsWith(p)] *)
Definition startsWith (p s : string) : bool := String.prefix p s.

End Text.

Record Toast := { title : string; description : string; destructive : bool }.

Section Buttons.

Import Download.

Local Open Scope string_scope.

(** [name.split('.')[0]] *)
Definition firstPart (name : string) : string :=
  hd EmptyString (Text.split "." name).

(** [`${uploadedFile?.name.split('.')[0]}`] *)
Definition shownBase (uploadedFile : option File.t) : string :=
  match uploadedFile with
  | Some f => firstPart (File.name f)
  | None => "undefined"
  end.

(** [uploadedFile?.name.split('.')[0] || 'video'] *)
Definition zipBase (uploadedFile : option File.t) : string :=
  match uploadedFile with
  | Some f =>
      if nonempty (firstPart (File.name f)) then firstPart (File.name f)
      else "video"
  | None => "video"
  end.

(** [`${n}`] for a length [n]. *)
Definition numeral (n : nat) : string := JS.digits_of_Z (Z.of_nat n).

(** [EnhancedSingleVideoProcessor.downloadResult] *)
Definition downloadResult (uploadedFile : option File.t)
    (result : ProcessingResult) (index : nat) (p : Page) : Page * Toast :=
  let filename :=
    shownBase uploadedFile ++ "_variation_" ++ ordinal index ++ ".webm" in
  match downloadBlob (FromString (output_url result)) filename p with
  | Completed p =>
      (p, {| title := "Download started";
             description := "Downloading " ++ filename;
             destructive := false |})
  | Threw p =>
      (p, {| title := "Download failed";
             description :=
               "Could not download the variation. Please try again.";
             destructive := true |})
  end.

(** [EnhancedSingleVideoProcessor.downloadAllResults] *)
Definition downloadAllResults (uploadedFile : option File.t)
    (results : list ProcessingResult) (p : Page) : Page * option Toast :=
  if (List.length results =? 0)%nat then (p, None)
  else
    let baseFileName := zipBase uploadedFile in
    match createZipWithVariations results baseFileName p with
    | Completed p =>
        (p, Some {| title := "Download started";
                    description :=
                      "Downloading all " ++ numeral (List.length results)
                        ++ " variations with metadata";
                    destructive := false |})
    | Threw p =>
        (p, Some {| title := "Download failed";
                    description :=
                      "Could not download variations. Please try again.";
                    destructive := true |})
    end.

(** [BatchVideoProcessor]: [queue.filter(item => item.status ===
    'completed')] *)
Definition completedItems (queue : list QueueItem) : list QueueItem :=
  filter (fun item => match status item with
                      | Status.completed => true
                      | _ => false
                      end) queue.

(** [completedItems.reduce((sum, item) => sum + item.variations.length, 0)] *)
Definition totalVariations (queue : list QueueItem) : nat :=
  fold_left (fun sum item => (sum + List.length (variations item))%nat)
    (completedItems queue) 0%nat.

(** [BatchVideoProcessor.downloadAllAsZip] *)
Definition downloadAllAsZip (queue : list QueueItem) (p : Page)
    : Page * Toast :=
  let allVariations :=
    fold_left (fun all item => (all ++ variations item)%list)
      (completedItems queue) [] in
  match legacy_createZipWithVariations allVariations "batch_processing" p with
  | Completed p =>
      (p, {| title := "Download started";
             description :=
               "Downloading all " ++ numeral (List.length allVariations)
                 ++ " variations from batch processing";
             destructive := false |})
  | Threw p =>
      (p, {| title := "Download failed";
             description :=
               "Could not download batch variations. Please try again.";
             destructive := true |})
  end.

(** [BatchVideoProcessor.downloadVideoVariations] *)
Definition downloadVideoVariations (variations : list Blob.t)
    (fileName : string) (p : Page) : Page * Toast :=
  let baseFileName := firstPart fileName in
  match legacy_createZipWithVariations variations baseFileName p with
  | Completed p =>
      (p, {| title := "Download started";
             description :=
               "Downloading " ++ numeral (List.length variations)
                 ++ " variations for " ++ fileName;
             destructive := false |})
  | Threw p =>
      (p, {| title := "Download failed";
             description :=
               "Could not download variations. Please try again.";
             destructive := true |})
  end.

End Buttons.

Module ExamplePage.

Local Open Scope string_scope.

(** An empty page. *)
Definition blankPage : Download.Page :=
  {| Download.objectUrls := 0; Download.liveUrls := []; Download.elements := 0;
     Download.body := []; Download.clicked := [] |}.

(** Two results of the enhanced processor. *)
Definition resultOf (job : nat) : ProcessingResult :=
  {| output_url := UrlOfOutput job; applied_filters := [];
     metadata := {| duration := 0; size := 1000; format := "webm";
                    processing_time := 5 |} |}.

Definition mp4 : Blob.t := {| Blob.size := 1000; Blob.type := "video/mp4" |}.

(** A file whose name has two dots. *)
Definition dotted : File.t :=
  {| File.name := "holiday.2024.mp4"; File.type := "video/mp4";
     File.size := 4242; File.readable := true |}.

Definition doneItem (i : string) (f : File.t) (vs : list Blob.t) : QueueItem :=
  {| id := i; file := f; status := Status.completed; progress := 100;
     variations := vs |}.
End ExamplePage.

(** Whether a string holds the character. *)
Fixpoint contains (c : ascii) (s : string) : bool :=
  match s with
  | EmptyString => false
  | String a rest => Ascii.eqb a c || contains c rest
  end.

(** ** The queue of [BatchVideoProcessor] *)

Section Uploads.

Local Open Scope string_scope.

(** [Date.now()]: the value the clock shows at the k-th reading. *)
Variable Date_now : nat -> Z.

(** [file.type.startsWith('video/')] *)
Definition isVideo (f : File.t) : bool := Text.startsWith "video/" (File.type f).

(** [`${Date.now()}_${file.name}`] *)
Definition uploadId (now : Z) (f : File.t) : string :=
  JS.digits_of_Z now ++ "_" ++ File.name f.

Definition pendingItem (now : Z) (f : File.t) : QueueItem :=
  {| id := uploadId now f; file := f; status := Status.pending;
     progress := 0; variations := [] |}.

(** [videoFiles.map(file => ({ id: ..., file, status: 'pending', progress:
    0, variations: [] }))], the clock read once for every file. *)
Fixpoint newItems (readings : nat) (videoFiles : list File.t)
    : list QueueItem :=
  match videoFiles with
  | [] => []
  | f :: rest => pendingItem (Date_now readings) f :: newItems (S readings) rest
  end.

(** [BatchVideoProcessor.handleFileUpload]: the new queue, the toast shown
    and the number of readings of the clock. *)
Definition handleFileUpload (files : list File.t) (readings : nat)
    (queue : list QueueItem) : list QueueItem * Toast * nat :=
  let videoFiles := filter isVideo files in
  if (List.length videoFiles =? 0)%nat then
    (queue,
     {| title := "No valid video files";
        description := "Please select video files to add to the queue";
        destructive := true |},
     readings)
  else
    ((queue ++ newItems readings videoFiles)%list,
     {| title := "Files added to queue";
        description :=
          "Added " ++ numeral (List.length videoFiles)
            ++ " video(s) to processing queue";
        destructive := false |},
     (readings + List.length videoFiles)%nat).

End Uploads.

(** [BatchVideoProcessor.removeFromQueue] *)
Definition removeFromQueue (itemId : string) (queue : list QueueItem)
    : list QueueItem :=
  filter (fun item => negb (String.eqb (id item) itemId)) queue.

(** [BatchVideoProcessor.clearQueue] *)
Definition clearQueue (queue : list QueueItem) : list QueueItem := [].

(** Removing the entries of [items] one after the other, as clicks on
    their buttons do. *)
Definition removeEach (items queue : list QueueItem) : list QueueItem :=
  fold_left (fun q item => removeFromQueue (id item) q) items queue.

(** The queue after an upload. *)
Definition uploaded (Date_now : nat -> Z) (files : list File.t)
    (readings : nat) (queue : list QueueItem) : list QueueItem :=
  fst (fst (handleFileUpload Date_now files readings queue)).

Module ExampleUpload.

Local Open Scope string_scope.

Definition still : File.t :=
  {| File.name := "cover.png"; File.type := "image/png"; File.size := 10;
     File.readable := true |}.

Definition other : File.t :=
  {| File.name := "other.mp4"; File.type := "video/mp4"; File.size := 20;
     File.readable := true |}.

(** A clock that does not advance during the upload. *)
Definition frozen (k : nat) : Z := 1700000000000%Z.

(** A clock that advances by one millisecond at every reading. *)
Definition ticking (k : nat) : Z := (1700000000000 + Z.of_nat k)%Z.

End ExampleUpload.

(** ** The engine shown by [EnhancedSingleVideoProcessor] *)

Module Init.
Inductive t := idle | loading | success | failed.
End Init.

(** The part of the React state of the component that its effect hook
    writes, with the toasts shown so far. *)
Record Panel := {
  shownCapabilities : Capabilities;
  initializationStatus : Init.t;
  toasts : list Toast
}.

Section Initialization.

Local Open Scope string_scope.
Local Open Scope async_scope.

Definition setCapabilities (caps : Capabilities) : Async Panel unit :=
  setState (fun s : Panel =>
              {| shownCapabilities := caps;
                 initializationStatus := initializationStatus s;
                 toasts := toasts s |}).

Definition setInitializationStatus (st : Init.t) : Async Panel unit :=
  setState (fun s : Panel =>
              {| shownCapabilities := shownCapabilities s;
                 initializationStatus := st;
                 toasts := toasts s |}).

Definition toast (t : Toast) : Async Panel unit :=
  setState (fun s : Panel =>
              {| shownCapabilities := shownCapabilities s;
                 initializationStatus := initializationStatus s;
                 toasts := push (toasts s) t |}).

(** [initializeProcessor] of the effect hook; [loads] tells whether
    [ffmpeg.load] resolves. *)
Definition initializeProcessor (loads : bool) : Async Panel unit :=
  _ <- setInitializationStatus Init.loading ;;
  try_catch
    (_ <- @initialize Panel loads ;;
     caps <- @capabilities Panel ;;
     _ <- setCapabilities caps ;;
     _ <- setInitializationStatus Init.success ;;
     toast {| title := "Video processor ready";
              description :=
                "FFmpeg loaded successfully "
                  ++ (if c_ffmpeg caps then "with full threading support"
                      else "in fallback mode");
              destructive := false |})
    (fun _ =>
       caps <- @capabilities Panel ;;
       _ <- setCapabilities caps ;;
       _ <- setInitializationStatus Init.failed ;;
       toast {| title := "Processing engine limited";
                description :=
                  "FFmpeg unavailable. Using "
                    ++ (if c_webcodecs caps then "WebCodecs" else "Canvas")
                    ++ " fallback.";
                destructive := true |}).

(** [getEngineLabel] *)
Definition getEngineLabel (caps : Capabilities) : string :=
  if c_ffmpeg caps then "FFmpeg.wasm"
  else if c_webcodecs caps then "WebCodecs"
  else "Canvas".

End Initialization.

(** What [processWithWebCodecs] resolves with. *)
Definition webCodecsResult (f : File.t) : ProcessingResult :=
  {| output_url := UrlOfFile f;
     applied_filters := ["webcodecs-fallback"%string];
     metadata := {| duration := 0; size := File.size f;
                    format := "original"; processing_time := 100 |} |}.

(** ** [VideoParameterControls.updateParameter]

    The parameters are a JavaScript object whose range and toggle
    properties are objects of their own.  [updateParameter] copies the
    outer object only, so the objects are modelled where they live: in a
    store, with references between them. *)

Module Heap.

Inductive Value :=
| VUndefined
| VNumber (x : float)
| VBoolean (b : bool)
| VObject (l : nat).

(** A plain object: its own properties, in the order of their creation. *)
Definition Object : Type := list (string * Value).

(** The objects allocated so far; a reference is a position. *)
Definition Store : Type := list Object.

(** The own property [key], if there is one. *)
Fixpoint get (o : Object) (key : string) : option Value :=
  match o with
  | [] => None
  | (k, v) :: rest => if String.eqb k key then Some v else get rest key
  end.

(** [o[key] = v] on a plain object: the property keeps its place, a new
    one comes last. *)
Fixpoint set (o : Object) (key : string) (v : Value) : Object :=
  match o with
  | [] => [(key, v)]
  | (k, x) :: rest =>
      if String.eqb k key then (k, v) :: rest else (k, x) :: set rest key v
  end.

Definition object (s : Store) (l : nat) : option Object := nth_error s l.

Fixpoint write (s : Store) (l : nat) (o : Object) : Store :=
  match s, l with
  | [], _ => []
  | _ :: rest, O => o :: rest
  | x :: rest, S l' => x :: write rest l' o
  end.

(** [{ ...o }]: a new object with the own properties of [o]. *)
Definition spread (s : Store) (o : Object) : Store * nat :=
  ((s ++ [o])%list, List.length s).

End Heap.

Section Controls.

Import Heap.

Local Open Scope string_scope.

(** The loop [current = current[keys[i]]] over the keys before the last
    one, as long as it stays on own properties that hold objects. *)
Fixpoint walk (s : Store) (current : nat) (keys : list string)
    : option nat :=
  match keys with
  | [] => Some current
  | key :: rest =>
      match object s current with
      | Some o =>
          match get o key with
          | Some (VObject l) => walk s l rest
          | _ => None
          end
      | None => None
      end
  end.

(** [updateParameter(path, value)] on the state [parameters]: the store
    after the call and the object handed to [onParametersChange].  The
    result is [None] for the runs that leave the own data properties of
    plain objects: a step through a property that is missing or holds no
    object, and an assignment to [__proto__]. *)
Definition updateParameter (parameters : nat) (path : string)
    (value : Value) (s : Store) : option (Store * nat) :=
  match object s parameters with
  | None => None
  | Some o =>
      let (s, newParams) := spread s o in
      let keys := Text.split "." path in
      match walk s newParams (removelast keys) with
      | Some current =>
          match object s current with
          | Some oc =>
              let key := last keys "" in
              if String.eqb key "__proto__" then None
              else Some (write s current (set oc key value), newParams)
          | None => None
          end
      | None => None
      end
  end.

(** [state[k1][k2]...]: a read along own properties. *)
Fixpoint read (s : Store) (l : nat) (keys : list string) : option Value :=
  match keys with
  | [] => Some (VObject l)
  | key :: rest =>
      match object s l with
      | Some o =>
          match get o key with
          | Some v =>
              match rest, v with
              | [], _ => Some v
              | _ :: _, VObject l' => read s l' rest
              | _ :: _, _ => None
              end
          | None => None
          end
      | None => None
      end
  end.

End Controls.

Module ExampleStore.

Import Heap.

Local Open Scope string_scope.
Local Open Scope float_scope.

(** A state with a quality and one range, the range object at position 0
    and the outer object at position 1. *)
Definition store : Store :=
  [ [("enabled", VBoolean false); ("min", VNumber 1); ("max", VNumber 1.5)];
    [("videoQuality", VNumber 80); ("saturation", VObject 0)] ].

End ExampleStore.

(** ** The frame sizes of [randomPixelSize] *)

(** The two numbers the block writes for the base height [720 + q], as
    the code computes and renders them. *)
Definition renderedSize (toString_other : float -> string) (q : Z)
    : string * string :=
  let baseHeight := (720 + JS.of_nonneg_Z q)%float in
  let width := (JS.Math_floor (baseHeight * 9 / 16 / 2) * 2)%float in
  let height := (JS.Math_floor (baseHeight / 2) * 2)%float in
  (JS.Number_toString toString_other width,
   JS.Number_toString toString_other height).

(** The same two numbers in exact integer arithmetic. *)
Definition exactSize (B : Z) : Z * Z := (2 * (9 * B / 32), 2 * (B / 2))%Z.

Definition sameSize (toString_other : float -> string) (n : nat) : bool :=
  let q := Z.of_nat n in
  let (w, h) := exactSize (720 + q) in
  String.eqb (fst (renderedSize toString_other q)) (JS.digits_of_Z w)
  && String.eqb (snd (renderedSize toString_other q)) (JS.digits_of_Z h).

(** The largest double below 360. *)
Definition below360 : float := 0x1.67fffffffffffp+8%float.

Module ExampleSize.

Import Example.

(** The size toggle enabled, everything else disabled. *)
Definition resized : VideoProcessingParameters :=
  {| videoQuality := 80;
     videoBitrate := off; audioBitrate := off; framerate := off;
     saturation := off; contrast := off; brightness := off; gamma := off;
     vignette := off; noise := off; waveformShift := off; pixelShift := off;
     speed := off; zoom := off; volume := off; rotation := off;
     flipHorizontally := {| Toggle.enabled := false |};
     randomPixelSize := {| Toggle.enabled := true |};
     trim := off |}.

Definition emptyChain : Chain := {| filters := []; appliedFilters := [] |}.

End ExampleSize.

(** ** The closing toast of [processQueue] *)

Section Announcement.

Variable Math_random : nat -> float.
Variable toString_other : float -> string.
Variable engine : nat -> EngineRun.

Local Open Scope string_scope.

(** [queue.filter(q => q.status === 'completed').length] *)
Definition completedCount (queue : list QueueItem) : nat :=
  List.length (completedItems queue).

(** The toast [processQueue] ends with, from the queue its closure holds. *)
Definition closingToast (queue : list QueueItem) (numberOfVariations : nat)
    : Toast :=
  {| title := "Batch processing complete";
     description :=
       "Successfully processed " ++ numeral (completedCount queue) ++ " of "
         ++ numeral (List.length queue) ++ " videos with "
         ++ numeral numberOfVariations ++ " variations each";
     destructive := false |}.

(** [processQueue] with the toast it shows: none when it returns at
    once. *)
Definition processQueue_toast (parameters : VideoProcessingParameters)
    (numberOfVariations : nat) (ffmpegLoaded : bool)
    : Async Batch (option Toast) :=
  fun w =>
    let snapshot := queue (caller w) in
    if (List.length snapshot =? 0)%nat || processing (caller w)
    then (Resolved None, w)
    else
      await
        (processQueue Math_random toString_other engine parameters
           numberOfVariations ffmpegLoaded)
        (fun _ => resolve (Some (closingToast snapshot numberOfVariations)))
        w.

End Announcement.

(** The verdicts once the items with the identifiers [ids] have all been
    completed. *)
Definition allCompleted (ids : list string) (vs : list (string * Status.t))
    : list (string * Status.t) :=
  map (fun v => if existsb (String.eqb (fst v)) ids
                then (fst v, Status.completed) else v) vs.

(** ** [SingleVideoProcessor.handleProcess] (the legacy single-video
    component) *)

(** The React state of the component, with the toasts shown so far. *)
Record LegacySingle := {
  l_processing : bool;
  l_progress : float;
  l_currentVariation : nat;
  l_variations : list Blob.t;
  l_toasts : list Toast
}.

Section LegacyComponent.

Variable Math_random : nat -> float.
Variable toString_other : float -> string.
Variable engine : nat -> EngineRun.

Local Open Scope string_scope.
Local Open Scope async_scope.








End LegacyComponent.



Module ExampleLegacy.

(** The legacy component before its first run, the engine loaded. *)
Definition idle : LegacySingle :=
  {| l_processing := false; l_progress := 0; l_currentVariation := 0;
     l_variations := []; l_toasts := [] |}.

End ExampleLegacy.

(** * Properties *)

Unset Implicit Arguments.

Local Open Scope Z_scope.

(** ** Quality to compression level *)






(** ** The loop of [generateVariations] *)

Section Variations.

Variable U R : Type.
Variable process : option (float -> U -> U) -> Async U R.
Variable onProgress : option (nat -> float -> U -> U).

Local Abbreviation iterationCallback := (iterationCallback onProgress).

Lemma variationLoop_step (i count : nat) (acc : list R) (w : World U) :
  variationLoop process onProgress i (S count) acc w =
  match process (iterationCallback i) w with
  | (Resolved r, w') =>
      variationLoop process onProgress (S i) count (push acc r) w'
  | (Rejected e, w') => (Rejected e, w')
  end.
Proof. reflexivity. Qed.

(** When the loop resolves it has appended one result per iteration. *)
Lemma variationLoop_length (count : nat) :
  forall i acc w rs w',
    variationLoop process onProgress i count acc w = (Resolved rs, w') ->
    List.length rs = (List.length acc + count)%nat.
Proof.
  induction count as [|count IH]; intros i acc w rs w' H.
  - cbn in H. inversion H; subst. lia.
  - rewrite variationLoop_step in H.
    destruct (process (iterationCallback i) w) as [[r|e] w1]; [|discriminate].
    apply IH in H. unfold push in H. rewrite length_app in H. cbn in H. lia.
Qed.

(** The results collected so far stay in front, in their order. *)
Lemma variationLoop_prefix (count : nat) :
  forall i acc w rs w',
    variationLoop process onProgress i count acc w = (Resolved rs, w') ->
    exists new, rs = (acc ++ new)%list.
Proof.
  induction count as [|count IH]; intros i acc w rs w' H.
  - cbn in H. inversion H; subst. exists []. now rewrite app_nil_r.
  - rewrite variationLoop_step in H.
    destruct (process (iterationCallback i) w) as [[r|e] w1]; [|discriminate].
    apply IH in H. destruct H as (new & ->). unfold push.
    exists (r :: new). now rewrite <- app_assoc.
Qed.



End Variations.

(** ** The fallback tiers *)

Section Fallback.

Variable Math_random : nat -> float.
Variable toString_other : float -> string.
Variable engine : nat -> EngineRun.
Variable U : Type.

Lemma processVideo_canvas (f : File.t) (params : VideoProcessingParameters)
    (cb : option (float -> U -> U)) (w : World U) :
  isLoaded w = false -> supportsWebCodecs w = false ->
  processVideo Math_random toString_other engine f params cb w =
  (Resolved (canvasResult f), w).
Proof.
  intros Hl Hc. unfold processVideo. now rewrite Hl, Hc.
Qed.

(** C8.  With the full engine not loaded and no platform codec, a request
    for one variation resolves with exactly one result: its audit list is
    the marker [canvas-fallback], its handle is the input file itself and
    its size is the size of the input.  Nothing else changes. *)
Theorem canvas_fallback_single_variation (f : File.t)
    (params : VideoProcessingParameters)
    (cb : option (nat -> float -> U -> U)) (w : World U) :
  isLoaded w = false -> supportsWebCodecs w = false ->
  exists result,
    generateVariations Math_random toString_other engine f params 1 cb w =
      (Resolved [result], w) /\
    In "canvas-fallback"%string (applied_filters result) /\
    size (metadata result) = File.size f /\
    output_url result = UrlOfFile f.
Proof.
  intros Hl Hc. exists (canvasResult f).
  unfold generateVariations. rewrite variationLoop_step.
  rewrite (processVideo_canvas f params _ w Hl Hc). cbn.
  repeat split. now left.
Qed.

End Fallback.

Lemma canvas_fallback_single_variation_witness :
  exists result,
    generateVariations Example.half Example.toString_other Example.steady
      Example.clip Example.disabled 1 (Some Example.record_call)
      (construct false []) =
      (Resolved [result], construct false []) /\
    In "canvas-fallback"%string (applied_filters result) /\
    size (metadata result) = 4242 /\
    output_url result = UrlOfFile Example.clip.
Proof.
  apply (canvas_fallback_single_variation Example.half Example.toString_other
           Example.steady Example.Calls Example.clip Example.disabled
           (Some Example.record_call) (construct false []));
    reflexivity.
Defined.

(** ** The capability set *)

(** C7.  Two reads of the capability set in a row return the same triple
    [{ffmpeg: isLoaded, webcodecs: supportsWebCodecs, canvas: true}] and
    leave the processor as it was; the [canvas] component is [true] in every
    state. *)
Theorem capabilities_idempotent (U : Type) (w : World U) :
  let c := {| c_ffmpeg := isLoaded w; c_webcodecs := supportsWebCodecs w;
              canvas := true |} in
  (c1 <- @capabilities U ;; c2 <- @capabilities U ;; resolve (c1, c2))%async w
    = (Resolved (c, c), w) /\
  canvas c = true.
Proof. split; reflexivity. Qed.

(** ** What the registered listeners can do to the caller *)

Lemma sameTier_refl {U : Type} (w : World U) : sameTier w w.
Proof. unfold sameTier. tauto. Qed.

Lemma sameTier_trans {U : Type} (a b c : World U) :
  sameTier a b -> sameTier b c -> sameTier a c.
Proof. unfold sameTier. intros (-> & -> & H1) (-> & -> & H2). tauto. Qed.

Section Listeners.

Variable U : Type.
Variable rel : U -> U -> Prop.
Hypothesis rel_refl : forall u, rel u u.
Hypothesis rel_trans : forall a b c, rel a b -> rel b c -> rel a c.

Lemma notify_respects (p : float) (l : Listener U) (u : U) :
  Respects rel l ->
  Respects rel (fst (notify p l u)) /\ rel u (snd (notify p l u)).
Proof.
  intros Hl. unfold notify. destruct (throttled l) eqn:Ht; cbn.
  - split; [exact Hl|]. destruct (_ =? _)%nat; [apply Hl | apply rel_refl].
  - split; [exact Hl | apply Hl].
Qed.

Lemma notify_all_respects (p : float) (ls : list (Listener U)) :
  forall u,
    Forall (Respects rel) ls ->
    Forall (Respects rel) (fst (notify_all p ls u)) /\
    rel u (snd (notify_all p ls u)).
Proof.
  induction ls as [|l ls IH]; intros u H; cbn.
  - split; [constructor | apply rel_refl].
  - inversion H as [|? ? Hl Hls]; subst.
    destruct (notify_respects p l u Hl) as [Hl' Hu].
    destruct (notify p l u) as [l' u'] eqn:E; cbn in *.
    destruct (IH u' Hls) as [Hls' Hu'].
    destruct (notify_all p ls u') as [ls' u''] eqn:E'; cbn in *.
    split; [constructor; assumption | eapply rel_trans; eassumption].
Qed.

Lemma report_respects (events : list float) :
  forall ls u,
    Forall (Respects rel) ls ->
    Forall (Respects rel) (fst (report events ls u)) /\
    rel u (snd (report events ls u)).
Proof.
  induction events as [|p events IH]; intros ls u H; cbn.
  - split; [assumption | apply rel_refl].
  - destruct (notify_all_respects p ls u H) as [Hls Hu].
    destruct (notify_all p ls u) as [ls' u'] eqn:E; cbn in *.
    destruct (IH ls' u' Hls) as [Hls' Hu'].
    split; [assumption | eapply rel_trans; eassumption].
Qed.

Lemma Keeps_resolve {A} (a : A) : Keeps rel (@resolve U A a).
Proof.
  intros w H. cbn. auto using sameTier_refl.
Qed.

Lemma Keeps_reject {A} (e : Error) : Keeps rel (@reject U A e).
Proof.
  intros w H. cbn. auto using sameTier_refl.
Qed.

Lemma Keeps_await {A B} (c : Async U A) (k : A -> Async U B) :
  Keeps rel c -> (forall a, Keeps rel (k a)) -> Keeps rel (await c k).
Proof.
  intros Hc Hk w H. unfold await.
  destruct (Hc w H) as (H1 & H2 & H3).
  destruct (c w) as [[a|e] w1]; cbn in *.
  - destruct (Hk a w1 H1) as (H4 & H5 & H6).
    split; [assumption|]. split; [eapply rel_trans; eassumption|].
    eapply sameTier_trans; eassumption.
  - auto.
Qed.

Lemma Keeps_if {A} (b : bool) (c1 c2 : Async U A) :
  Keeps rel c1 -> Keeps rel c2 -> Keeps rel (if b then c1 else c2).
Proof. destruct b; auto. Qed.

Lemma Keeps_arrayBuffer (f : File.t) : Keeps rel (@arrayBuffer U f).
Proof.
  unfold arrayBuffer. apply Keeps_if; [apply Keeps_resolve | apply Keeps_reject].
Qed.

Lemma Keeps_engineCall (run : EngineRun) (s : Stage) :
  Keeps rel (@engineCall U run s).
Proof.
  unfold engineCall. apply Keeps_if; [apply Keeps_reject | apply Keeps_resolve].
Qed.

Lemma Keeps_startJob (engine : nat -> EngineRun) : Keeps rel (@startJob engine U).
Proof.
  intros w H. cbn. split; [exact H|]. split; [apply rel_refl|].
  unfold sameTier; cbn. tauto.
Qed.

Lemma Keeps_draw {A} (c : Rand A) : Keeps rel (@draw U A c).
Proof.
  intros w H. unfold draw. destruct (c (randomCalls w)) as [a n]; cbn.
  split; [exact H|]. split; [apply rel_refl|].
  unfold sameTier; cbn. tauto.
Qed.

Lemma Keeps_setState (f : U -> U) :
  (forall u, rel u (f u)) -> Keeps rel (setState f).
Proof.
  intros Hf w H. cbn. split; [exact H|]. split; [apply Hf|].
  unfold sameTier; cbn. tauto.
Qed.

Lemma Keeps_on_progress (l : Listener U) :
  Respects rel l -> Keeps rel (on_progress l).
Proof.
  intros Hl w H. unfold on_progress, AllRespect in *. cbn.
  destruct (ffmpeg w) as [ls|] eqn:E; cbn.
  - split.
    + unfold push. apply Forall_app. split; [assumption|]. now constructor.
    + split; [apply rel_refl|]. unfold sameTier; cbn. rewrite E.
      intuition discriminate.
  - split; [exact I|]. split; [apply rel_refl|].
    unfold sameTier; cbn. rewrite E. tauto.
Qed.

Lemma Keeps_exec (run : EngineRun) (args : list string) :
  Keeps rel (@exec U run args).
Proof.
  intros w H. unfold exec, AllRespect in *.
  destruct (ffmpeg w) as [ls|] eqn:E.
  - destruct (report_respects (progressEvents run) ls (caller w) H)
      as [Hls Hu].
    destruct (report (progressEvents run) ls (caller w)) as [ls' u'].
    cbn in *. unfold engineCall.
    destruct (fails_at run AtExec); cbn; rewrite ?E; cbn;
      (split; [assumption|]; split; [assumption|]);
      unfold sameTier; cbn; rewrite E; cbn; intuition discriminate.
  - destruct (report_respects (progressEvents run) [] (caller w)
                (Forall_nil _)) as [Hls Hu].
    destruct (report (progressEvents run) [] (caller w)) as [ls' u'].
    cbn in *. unfold engineCall.
    destruct (fails_at run AtExec); cbn; rewrite ?E; cbn;
      (split; [exact I|]; split; [assumption|]);
      unfold sameTier; cbn; rewrite E; cbn; tauto.
Qed.

Lemma Keeps_try_catch {A} (c : Async U A) (h : Error -> Async U A) :
  Keeps rel c -> (forall e, Keeps rel (h e)) -> Keeps rel (try_catch c h).
Proof.
  intros Hc Hh w H. unfold try_catch.
  destruct (Hc w H) as (H1 & H2 & H3).
  destruct (c w) as [[a|e] w1]; cbn in *; [auto|].
  destruct (Hh e w1 H1) as (H4 & H5 & H6).
  split; [assumption|]. split; [eapply rel_trans; eassumption|].
  eapply sameTier_trans; eassumption.
Qed.

Lemma Keeps_try_finally {A} (c : Async U A) (f : Async U unit) :
  Keeps rel c -> Keeps rel f -> Keeps rel (try_finally c f).
Proof.
  intros Hc Hf w H. unfold try_finally.
  destruct (Hc w H) as (H1 & H2 & H3).
  destruct (c w) as [r w1]; cbn in *.
  destruct (Hf w1 H1) as (H4 & H5 & H6).
  destruct (f w1) as [[[]|e] w2]; cbn in *;
    (split; [assumption|]; split; [eapply rel_trans; eassumption|];
     eapply sameTier_trans; eassumption).
Qed.

Lemma Keeps_variationLoop {R} (process : option (float -> U -> U) -> Async U R)
    (onProgress : option (nat -> float -> U -> U)) :
  (forall i, Keeps rel (process (iterationCallback onProgress i))) ->
  forall count i acc,
    Keeps rel (variationLoop process onProgress i count acc).
Proof.
  intros Hp. induction count as [|count IH]; intros i acc.
  - apply Keeps_resolve.
  - change (variationLoop process onProgress i (S count) acc)
      with (await (process (iterationCallback onProgress i))
              (fun r => variationLoop process onProgress (S i) count
                          (push acc r))).
    apply Keeps_await; auto.
Qed.

End Listeners.

(** ** The processors keep what their callbacks keep *)

Section ProcessorsKeep.

Variable Math_random : nat -> float.
Variable toString_other : float -> string.
Variable engine : nat -> EngineRun.
Variable U : Type.
Variable rel : U -> U -> Prop.
Hypothesis rel_refl : forall u, rel u u.
Hypothesis rel_trans : forall a b c, rel a b -> rel b c -> rel a c.

Ltac keeps :=
  repeat first
    [ apply Keeps_resolve; assumption
    | apply Keeps_reject; assumption
    | apply Keeps_arrayBuffer; assumption
    | apply Keeps_engineCall; assumption
    | apply Keeps_startJob; assumption
    | apply Keeps_draw; assumption
    | apply Keeps_exec; assumption
    | apply Keeps_await; try assumption; [ | intros ? ]
    | match goal with
      | |- Keeps _ (let (_, _) := ?p in _) => destruct p
      end ].

Ltac as_action w H :=
  lazymatch goal with
  | |- AllRespect _ (snd (?c w)) /\ _ =>
      cut (Keeps rel c); [intros HK; exact (HK w H)|]
  end.

Lemma Keeps_processVideo (f : File.t) (params : VideoProcessingParameters)
    (cb : option (float -> U -> U)) :
  (forall g, cb = Some g -> forall ratio u, rel u (g ratio u)) ->
  Keeps rel (processVideo Math_random toString_other engine f params cb).
Proof.
  intros Hcb w H. unfold processVideo.
  destruct (negb (isLoaded w)).
  - destruct (supportsWebCodecs w);
      [apply (Keeps_resolve U rel rel_refl) | apply (Keeps_resolve U rel rel_refl)];
      exact H.
  - destruct (ffmpeg w) eqn:E.
    + as_action w H. keeps.
      destruct cb as [g|]; [|keeps].
      apply Keeps_on_progress; try assumption.
      intros ratio u. cbn. now apply (Hcb g).
    + cbn. auto using sameTier_refl.
Qed.

Lemma Keeps_legacy_processVideo (f : File.t)
    (params : VideoProcessingParameters) (cb : option (float -> U -> U)) :
  (forall g, cb = Some g -> forall ratio u, rel u (g ratio u)) ->
  Keeps rel (legacy_processVideo Math_random toString_other engine f params cb).
Proof.
  intros Hcb w H. unfold legacy_processVideo.
  destruct (ffmpeg w) eqn:E.
  - as_action w H. keeps.
    destruct cb as [g|]; [|keeps].
    apply Keeps_on_progress; try assumption.
    intros ratio u. cbn. now apply (Hcb g).
  - cbn. auto using sameTier_refl.
Qed.

Lemma iterationCallback_respects
    (onProgress : option (nat -> float -> U -> U)) (i : nat) :
  (forall g, onProgress = Some g -> forall v ratio u, rel u (g v ratio u)) ->
  forall g, iterationCallback onProgress i = Some g ->
            forall ratio u, rel u (g ratio u).
Proof.
  intros H g Hg ratio u. unfold iterationCallback in Hg.
  inversion Hg; subst; clear Hg.
  destruct onProgress as [cb|]; [now apply (H cb) | apply rel_refl].
Qed.

Lemma Keeps_generateVariations (f : File.t)
    (params : VideoProcessingParameters) (n : nat)
    (onProgress : option (nat -> float -> U -> U)) :
  (forall g, onProgress = Some g -> forall v ratio u, rel u (g v ratio u)) ->
  Keeps rel
    (generateVariations Math_random toString_other engine f params n onProgress).
Proof.
  intros H. unfold generateVariations.
  apply Keeps_variationLoop; try assumption.
  intros i. apply Keeps_processVideo.
  now apply iterationCallback_respects.
Qed.

Lemma Keeps_legacy_generateVariations (f : File.t)
    (params : VideoProcessingParameters) (n : nat)
    (onProgress : option (nat -> float -> U -> U)) :
  (forall g, onProgress = Some g -> forall v ratio u, rel u (g v ratio u)) ->
  Keeps rel
    (legacy_generateVariations Math_random toString_other engine f params n
       onProgress).
Proof.
  intros H. unfold legacy_generateVariations.
  apply Keeps_variationLoop; try assumption.
  intros i. apply Keeps_legacy_processVideo.
  now apply iterationCallback_respects.
Qed.

End ProcessorsKeep.

(** Processing does not move the processor to another capability tier:
    reads of the capability set before and after a job agree. *)
Lemma capabilities_after_generateVariations
    (Math_random : nat -> float) (toString_other : float -> string)
    (engine : nat -> EngineRun) (U : Type) (f : File.t)
    (params : VideoProcessingParameters) (n : nat)
    (onProgress : option (nat -> float -> U -> U)) (w : World U) :
  fst (capabilities
         (snd (generateVariations Math_random toString_other engine f params n
                 onProgress w))) =
  fst (capabilities w).
Proof.
  destruct (Keeps_generateVariations Math_random toString_other engine U
              (fun _ _ => True) (fun _ => I) (fun _ _ _ _ _ => I)
              f params n onProgress (fun _ _ _ _ _ => I) w)
    as (_ & _ & Hl & Hc & _).
  - unfold AllRespect. destruct (ffmpeg w) as [ls|]; [|exact I].
    apply Forall_forall. intros l _ ratio u. exact I.
  - unfold capabilities. cbn. now rewrite Hl, Hc.
Qed.

(** ** Results and progress callbacks of [generateVariations] *)

(** A call that resolves returns one result per requested variation. *)
Lemma generateVariations_count
    (Math_random : nat -> float) (toString_other : float -> string)
    (engine : nat -> EngineRun) (U : Type) (f : File.t)
    (params : VideoProcessingParameters) (n : nat)
    (onProgress : option (nat -> float -> U -> U)) (w w' : World U)
    (rs : list ProcessingResult) :
  generateVariations Math_random toString_other engine f params n onProgress w
    = (Resolved rs, w') ->
  List.length rs = n.
Proof.
  intros H. unfold generateVariations in H.
  apply variationLoop_length in H. exact H.
Qed.

(** C5, at the failing input.  The engine is loaded, two variations are
    requested and the engine reports two progress events per job.  The call
    resolves with two results, those of jobs 0 and 1 in that order, but the
    callback is called with the variation indices 1, 1, 1, 2, 1, 2: the
    listener registered for the first variation is still registered while the
    second one runs. *)
Theorem progress_indices_regress :
  let (r, w') :=
    generateVariations Example.half Example.toString_other Example.steady
      Example.clip Example.disabled 2 (Some Example.record_call)
      (Example.loaded ([] : Example.Calls)) in
  (exists r1 r2,
      r = Resolved [r1; r2] /\
      output_url r1 = UrlOfOutput 0 /\ output_url r2 = UrlOfOutput 1) /\
  map fst (caller w') = [1; 1; 1; 2; 1; 2]%nat /\
  ~ Sorted le (map fst (caller w')).
Proof.
  vm_compute. split; [|split].
  - do 2 eexists. repeat split.
  - reflexivity.
  - intros H.
    repeat match goal with
           | H : Sorted _ (_ :: _) |- _ => inversion H; subst; clear H
           | H : HdRel _ _ (_ :: _) |- _ => inversion H; subst; clear H
           end.
    lia.
Qed.

(** ** The queue of the batch component *)

Lemma sameButProgress_refl (b : Batch) : sameButProgress b b.
Proof. split; reflexivity. Qed.

Lemma sameButProgress_trans (a b c : Batch) :
  sameButProgress a b -> sameButProgress b c -> sameButProgress a c.
Proof.
  intros [H1 H2] [H3 H4]. split; congruence.
Qed.

Lemma sameButProgress_verdicts (b b' : Batch) :
  sameButProgress b b' -> verdicts b' = verdicts b.
Proof.
  intros [_ H]. unfold verdicts.
  apply (f_equal (map (fun t : string * File.t * Status.t * list Blob.t =>
                         (fst (fst (fst t)), snd (fst t))))) in H.
  rewrite !map_map in H. exact H.
Qed.

Lemma sameButProgress_with_progress (i : string) (p : float) (b : Batch) :
  sameButProgress b
    {| queue := map (fun q => if String.eqb (id q) i
                              then with_progress p q else q) (queue b);
       processing := processing b |}.
Proof.
  split; [reflexivity|]. cbn. rewrite map_map. apply map_ext.
  intros q. now destruct (String.eqb (id q) i).
Qed.

Lemma decide_decide (i : string) (s1 s2 : Status.t)
    (vs : list (string * Status.t)) :
  decide i s2 (decide i s1 vs) = decide i s2 vs.
Proof.
  unfold decide. rewrite map_map. apply map_ext. intros [j s]; cbn.
  destruct (String.eqb j i) eqn:E; cbn; now rewrite ?E.
Qed.

Lemma decide_ids (i : string) (s : Status.t) (vs : list (string * Status.t)) :
  map fst (decide i s vs) = map fst vs.
Proof.
  unfold decide. rewrite map_map. apply map_ext. intros [j t]; cbn.
  now destruct (String.eqb j i).
Qed.

Section Queue.

Variable Math_random : nat -> float.
Variable toString_other : float -> string.
Variable engine : nat -> EngineRun.
Variable parameters : VideoProcessingParameters.
Variable numberOfVariations : nat.
Variable ffmpegLoaded : bool.

Local Abbreviation Keeps' := (@Keeps Batch _ sameButProgress).
Local Abbreviation Calm := (AllRespect sameButProgress).

(** Updating the items with identifier [i] so that they get status [st]
    changes the verdict on [i] and nothing else. *)
Lemma updateItem_verdicts (i : string) (f : QueueItem -> QueueItem)
    (st : Status.t) (w : World Batch) :
  (forall q, id (f q) = id q /\ status (f q) = st) ->
  fst (updateItem i f w) = Resolved tt /\
  verdicts (caller (snd (updateItem i f w))) = decide i st (verdicts (caller w))
  /\ ffmpeg (snd (updateItem i f w)) = ffmpeg w
  /\ processing (caller (snd (updateItem i f w))) = processing (caller w).
Proof.
  intros Hf. cbn. split; [reflexivity|]. split; [|split; reflexivity].
  unfold verdicts, decide. cbn. rewrite !map_map. apply map_ext.
  intros q. cbn. destruct (String.eqb (id q) i); [|reflexivity].
  destruct (Hf q) as [-> ->]. reflexivity.
Qed.

Lemma Keeps_updateItem_progress (i : string) (p : float) :
  Keeps' (updateItem i (with_progress p)).
Proof.
  unfold updateItem. apply Keeps_setState.
  intros b. apply sameButProgress_with_progress.
Qed.

Lemma Keeps_simulate (i : string) (total : float) (remaining : nat) :
  forall step, Keeps' (simulate i total step remaining).
Proof.
  induction remaining as [|remaining IH]; intros step; cbn.
  - apply Keeps_resolve, sameButProgress_refl.
  - apply Keeps_await.
    + apply sameButProgress_trans.
    + apply Keeps_updateItem_progress.
    + intros _. apply IH.
Qed.

Lemma Keeps_mockVariations (f : File.t) (count : nat) :
  forall acc, Keeps' (mockVariations f count acc).
Proof.
  induction count as [|count IH]; intros acc; cbn.
  - apply Keeps_resolve, sameButProgress_refl.
  - apply Keeps_await.
    + apply sameButProgress_trans.
    + apply Keeps_arrayBuffer, sameButProgress_refl.
    + intros _. apply IH.
Qed.

Local Abbreviation itemWork :=
  (itemWork Math_random toString_other engine parameters numberOfVariations
     ffmpegLoaded).

Lemma itemBody_itemWork (item : QueueItem) (w : World Batch) :
  itemBody Math_random toString_other engine parameters numberOfVariations
    ffmpegLoaded item w =
  (vs <- itemWork item ;;
   updateItem (id item) (mark_completed vs))%async w.
Proof.
  unfold itemBody, itemWork. destruct ffmpegLoaded; [reflexivity|].
  unfold await.
  destruct (simulate _ _ _ _ w) as [[[]|e] w1]; reflexivity.
Qed.

Lemma Keeps_itemWork (item : QueueItem) : Keeps' (itemWork item).
Proof.
  unfold itemWork. destruct ffmpegLoaded.
  - apply Keeps_legacy_generateVariations.
    + apply sameButProgress_refl.
    + apply sameButProgress_trans.
    + intros g Hg v ratio u. inversion Hg; subst.
      apply sameButProgress_with_progress.
  - apply Keeps_await.
    + apply sameButProgress_trans.
    + apply Keeps_simulate.
    + intros _. apply Keeps_mockVariations.
Qed.

(** One turn of the loop never rejects; it replaces the verdict on the
    identifier of its item by [error] if its [try] block rejected and by
    [completed] otherwise, and leaves every other verdict as it was. *)
Lemma processItem_verdict (item : QueueItem) (w : World Batch) :
  Calm w ->
  let turn :=
    processItem Math_random toString_other engine parameters
      numberOfVariations ffmpegLoaded item w in
  let block :=
    itemBody Math_random toString_other engine parameters
      numberOfVariations ffmpegLoaded item (started item w) in
  fst turn = Resolved tt /\
  verdicts (caller (snd turn)) =
    decide (id item) (verdict (fst block)) (verdicts (caller w)) /\
  Calm (snd turn) /\
  processing (caller (snd turn)) = processing (caller w).
Proof.
  intros Hw turn block. subst turn block.
  unfold processItem, await.
  destruct (updateItem_verdicts (id item)
              (fun q => with_progress 0 (with_status Status.processing q))
              Status.processing w (fun q => conj eq_refl eq_refl))
    as (H1 & H2 & H3 & P1).
  unfold started.
  destruct (updateItem (id item) _ w) as [r1 w1]; cbn in H1, H2, H3, P1.
  subst r1. cbn [snd].
  assert (Hw1 : Calm w1) by (unfold AllRespect in *; now rewrite H3).
  unfold try_catch. rewrite itemBody_itemWork. unfold await.
  destruct (Keeps_itemWork item w1 Hw1) as (K1 & K2 & _).
  destruct (itemWork item w1) as [[vs|e] w2]; cbn [fst snd] in *.
  - destruct (updateItem_verdicts (id item) (mark_completed vs)
                Status.completed w2 (fun q => conj eq_refl eq_refl))
      as (H4 & H5 & H6 & P2).
    destruct (updateItem (id item) (mark_completed vs) w2) as [r3 w3].
    cbn in H4, H5, H6, P2. subst r3. cbn.
    split; [reflexivity|]. split; [|split].
    + rewrite H5, (sameButProgress_verdicts _ _ K2), H2.
      apply decide_decide.
    + unfold AllRespect in *. now rewrite H6.
    + destruct K2 as [K2 _]. congruence.
  - destruct (updateItem_verdicts (id item) (with_status Status.error)
                Status.error w2 (fun q => conj eq_refl eq_refl))
      as (H4 & H5 & H6 & P2).
    destruct (updateItem (id item) (with_status Status.error) w2) as [r3 w3].
    cbn in H4, H5, H6, P2. subst r3. cbn.
    split; [reflexivity|]. split; [|split].
    + rewrite H5, (sameButProgress_verdicts _ _ K2), H2.
      apply decide_decide.
    + unfold AllRespect in *. now rewrite H6.
    + destruct K2 as [K2 _]. congruence.
Qed.

End Queue.

Lemma settled_decide (i : string) (st : Status.t)
    (vs : list (string * Status.t)) :
  st = Status.completed \/ st = Status.error ->
  Forall2 (settled [i]) vs (decide i st vs).
Proof.
  intros Hst. induction vs as [|[j s] vs IH]; cbn; [constructor|].
  constructor; [|exact IH].
  unfold settled. cbn. destruct (String.eqb_spec j i) as [->|Hne]; cbn.
  - split; [reflexivity|]. split; [tauto|].
    intros H. exfalso. apply H. now left.
  - split; [reflexivity|]. split; [|reflexivity].
    intros [H|[]]. congruence.
Qed.

Lemma settled_refl (vs : list (string * Status.t)) :
  Forall2 (settled []) vs vs.
Proof.
  induction vs; constructor; [|assumption].
  unfold settled. cbn. tauto.
Qed.

Lemma settled_cons (i : string) (ids : list string) :
  forall a b c,
    Forall2 (settled [i]) a b -> Forall2 (settled ids) b c ->
    Forall2 (settled (i :: ids)) a c.
Proof.
  intros a b c H1. revert c. induction H1 as [|x y a b Hxy _ IH]; intros c H2.
  - inversion H2. constructor.
  - inversion H2 as [|? z ? c' Hyz Hrest]; subst. constructor; [|now apply IH].
    destruct Hxy as (E1 & S1 & K1). destruct Hyz as (E2 & S2 & K2).
    unfold settled. rewrite E1 in E2, S2, K2. split; [congruence|]. split.
    + intros Hin.
      destruct (in_dec string_dec (fst x) ids) as [Hi|Ho].
      * now apply S2.
      * rewrite (K2 Ho). apply S1. destruct Hin as [Hin|Hin]; [now left|].
        contradiction.
    + intros Hnot.
      assert (Ho : ~ In (fst x) ids) by (intros Hi; apply Hnot; now right).
      assert (Hi : ~ In (fst x) [i]).
      { intros [Hi|[]]. apply Hnot. now left. }
      rewrite (K2 Ho). now apply K1.
Qed.


Lemma verdict_settles {A : Type} (r : Outcome A) :
  verdict r = Status.completed \/ verdict r = Status.error.
Proof. destruct r; cbn; tauto. Qed.

Section WholeQueue.

Variable Math_random : nat -> float.
Variable toString_other : float -> string.
Variable engine : nat -> EngineRun.
Variable parameters : VideoProcessingParameters.
Variable numberOfVariations : nat.
Variable ffmpegLoaded : bool.

(** The loop visits every item, whatever happened to the ones before. *)
Lemma processItems_settled (items : list QueueItem) :
  forall w,
    AllRespect sameButProgress w ->
    let run :=
      processItems Math_random toString_other engine parameters
        numberOfVariations ffmpegLoaded items w in
    fst run = Resolved tt /\
    AllRespect sameButProgress (snd run) /\
    processing (caller (snd run)) = processing (caller w) /\
    Forall2 (settled (map id items)) (verdicts (caller w))
      (verdicts (caller (snd run))).
Proof.
  induction items as [|item rest IH]; intros w Hw; cbn.
  - repeat split; [assumption|]. apply settled_refl.
  - unfold await.
    destruct (processItem_verdict Math_random toString_other engine
                parameters numberOfVariations ffmpegLoaded item w Hw)
      as (H1 & H2 & H3 & H4).
    destruct (processItem _ _ _ _ _ _ item w) as [r1 w1]; cbn in H1, H2, H3, H4.
    subst r1.
    destruct (IH w1 H3) as (I1 & I2 & I3 & I4).
    split; [exact I1|]. split; [exact I2|]. split; [congruence|].
    eapply settled_cons; [|exact I4].
    rewrite H2. apply settled_decide, verdict_settles.
Qed.


End WholeQueue.

(** ** Failures *)

Section Failures.

Variable Math_random : nat -> float.
Variable toString_other : float -> string.
Variable engine : nat -> EngineRun.





End Failures.


(** ** The order of the directives *)

Lemma bind_run {A B} (c : Rand A) (k : A -> Rand B) (i : nat) :
  bind c k i = k (fst (c i)) (snd (c i)).
Proof. unfold bind. now destruct (c i). Qed.

Lemma kinds_emit (c : Chain) (k : Kind) (f a : string) :
  kinds (filters (emit c k f a)) = (kinds (filters c) ++ [k])%list.
Proof. unfold kinds, emit, push. cbn. now rewrite map_app. Qed.

Section Order.

Variable Math_random : nat -> float.
Variable toString_other : float -> string.
Variable params : VideoProcessingParameters.

Local Abbreviation run block c i :=
  (fst (block Math_random toString_other params c i)).

Lemma color_block_kinds (c : Chain) (i : nat) :
  kinds (filters (run color_block c i)) =
  (kinds (filters c) ++
   opt (Range.enabled (saturation params) || Range.enabled (contrast params)
        || Range.enabled (brightness params) || Range.enabled (gamma params))
       KEq)%list.
Proof.
  unfold color_block, color_param, sample, getRandomValue, random.
  rewrite !bind_run.
  destruct (Range.enabled (saturation params)),
           (Range.enabled (contrast params)),
           (Range.enabled (brightness params)),
           (Range.enabled (gamma params)); cbn;
    unfold kinds, push; rewrite ?map_app, ?app_nil_r; reflexivity.
Qed.

Ltac fires :=
  cbv beta iota; rewrite ?bind_run; unfold ret; cbn [fst snd opt];
  apply kinds_emit.

Ltac skips :=
  cbv beta iota; unfold ret; cbn [fst snd opt]; now rewrite app_nil_r.

Lemma noise_block_kinds (c : Chain) (i : nat) :
  kinds (filters (run noise_block c i)) =
  (kinds (filters c) ++ opt (Range.enabled (noise params)) KNoise)%list.
Proof.
  unfold noise_block. destruct (Range.enabled (noise params)).
  - fires.
  - skips.
Qed.

Lemma rotation_block_kinds (c : Chain) (i : nat) :
  kinds (filters (run rotation_block c i)) =
  (kinds (filters c) ++ opt (Range.enabled (rotation params)) KRotate)%list.
Proof.
  unfold rotation_block. destruct (Range.enabled (rotation params)).
  - fires.
  - skips.
Qed.

Lemma flip_block_kinds (c : Chain) (i : nat) :
  kinds (filters (fst (flip_block params c i))) =
  (kinds (filters c) ++ opt (Toggle.enabled (flipHorizontally params)) KHflip)%list.
Proof.
  unfold flip_block. destruct (Toggle.enabled (flipHorizontally params)).
  - fires.
  - skips.
Qed.

Lemma zoom_block_kinds (c : Chain) (i : nat) :
  exists b, guarded Math_random (zoom params) b /\
    kinds (filters (run zoom_block c i)) =
    (kinds (filters c) ++ opt b KZoom)%list.
Proof.
  unfold zoom_block. destruct (Range.enabled (zoom params)) eqn:E.
  - cbv beta iota. rewrite bind_run.
    destruct (0 <? fst (sample Math_random (zoom params) i))%float eqn:G.
    + exists true. split; [intros _; split; [exact E | now exists i]|].
      fires.
    + exists false. split; [discriminate|]. skips.
  - exists false. split; [discriminate|]. skips.
Qed.

Lemma pixelShift_block_kinds (c : Chain) (i : nat) :
  exists b, guarded Math_random (pixelShift params) b /\
    kinds (filters (run pixelShift_block c i)) =
    (kinds (filters c) ++ opt b KCrop)%list.
Proof.
  unfold pixelShift_block. destruct (Range.enabled (pixelShift params)) eqn:E.
  - cbv beta iota. rewrite bind_run.
    destruct (0 <? fst (sample Math_random (pixelShift params) i))%float eqn:G.
    + exists true. split; [intros _; split; [exact E | now exists i]|].
      fires.
    + exists false. split; [discriminate|]. skips.
  - exists false. split; [discriminate|]. skips.
Qed.

Lemma vignette_block_kinds (c : Chain) (i : nat) :
  exists b, guarded Math_random (vignette params) b /\
    kinds (filters (run vignette_block c i)) =
    (kinds (filters c) ++ opt b KVignette)%list.
Proof.
  unfold vignette_block. destruct (Range.enabled (vignette params)) eqn:E.
  - cbv beta iota. rewrite bind_run.
    destruct (0 <? fst (sample Math_random (vignette params) i))%float eqn:G.
    + exists true. split; [intros _; split; [exact E | now exists i]|].
      fires.
    + exists false. split; [discriminate|]. skips.
  - exists false. split; [discriminate|]. skips.
Qed.

Lemma waveformShift_block_kinds (c : Chain) (i : nat) :
  exists b, guarded Math_random (waveformShift params) b /\
    kinds (filters (run waveformShift_block c i)) =
    (kinds (filters c) ++ opt b KGeq)%list.
Proof.
  unfold waveformShift_block. destruct (Range.enabled (waveformShift params)) eqn:E.
  - cbv beta iota. rewrite bind_run.
    destruct (0 <? fst (sample Math_random (waveformShift params) i))%float eqn:G.
    + exists true. split; [intros _; split; [exact E | now exists i]|].
      fires.
    + exists false. split; [discriminate|]. skips.
  - exists false. split; [discriminate|]. skips.
Qed.

Lemma randomPixelSize_block_kinds (c : Chain) (i : nat) :
  kinds (filters (run randomPixelSize_block c i)) =
  (kinds (filters c) ++ opt (Toggle.enabled (randomPixelSize params)) KResize)%list.
Proof.
  unfold randomPixelSize_block. destruct (Toggle.enabled (randomPixelSize params)).
  - fires.
  - skips.
Qed.

Lemma speed_block_kinds (c : Chain) (i : nat) :
  kinds (filters (run speed_block c i)) =
  (kinds (filters c) ++ opt (Range.enabled (speed params)) KSetpts)%list.
Proof.
  unfold speed_block. destruct (Range.enabled (speed params)).
  - fires.
  - skips.
Qed.

Lemma framerate_block_kinds (c : Chain) (i : nat) :
  kinds (filters (run framerate_block c i)) =
  (kinds (filters c) ++ opt (Range.enabled (framerate params)) KFps)%list.
Proof.
  unfold framerate_block. destruct (Range.enabled (framerate params)).
  - fires.
  - skips.
Qed.

(** The directive list of the enhanced builder: at most one directive per
    block, in the order of the blocks; the combined colour directive is
    there exactly when one of the four colour parameters is enabled. *)
Lemma buildFilterChain_order (i : nat) :
  exists zoomed cropped vignetted shifted : bool,
    guarded Math_random (zoom params) zoomed /\
    guarded Math_random (pixelShift params) cropped /\
    guarded Math_random (vignette params) vignetted /\
    guarded Math_random (waveformShift params) shifted /\
    kinds (filters (fst (buildFilterChain Math_random toString_other params i)))
    = (opt (Range.enabled (saturation params)
            || Range.enabled (contrast params)
            || Range.enabled (brightness params)
            || Range.enabled (gamma params)) KEq
       ++ opt (Range.enabled (noise params)) KNoise
       ++ opt (Range.enabled (rotation params)) KRotate
       ++ opt (Toggle.enabled (flipHorizontally params)) KHflip
       ++ opt zoomed KZoom
       ++ opt cropped KCrop
       ++ opt vignetted KVignette
       ++ opt shifted KGeq
       ++ opt (Toggle.enabled (randomPixelSize params)) KResize
       ++ opt (Range.enabled (speed params)) KSetpts
       ++ opt (Range.enabled (framerate params)) KFps)%list.
Proof.
  unfold buildFilterChain. rewrite !bind_run.
  rewrite framerate_block_kinds, speed_block_kinds,
    randomPixelSize_block_kinds.
  match goal with
  | |- context [waveformShift_block _ _ _ ?c ?j] =>
      destruct (waveformShift_block_kinds c j) as (shifted & Hs & ->)
  end.
  match goal with
  | |- context [vignette_block _ _ _ ?c ?j] =>
      destruct (vignette_block_kinds c j) as (vignetted & Hv & ->)
  end.
  match goal with
  | |- context [pixelShift_block _ _ _ ?c ?j] =>
      destruct (pixelShift_block_kinds c j) as (cropped & Hc & ->)
  end.
  match goal with
  | |- context [zoom_block _ _ _ ?c ?j] =>
      destruct (zoom_block_kinds c j) as (zoomed & Hz & ->)
  end.
  rewrite flip_block_kinds, rotation_block_kinds, noise_block_kinds,
    color_block_kinds.
  exists zoomed, cropped, vignetted, shifted.
  repeat (split; [assumption|]).
  cbn [kinds filters map app]. rewrite <- !app_assoc. reflexivity.
Qed.

End Order.

Lemma if_step (b : bool) (m : Rand (list Directive)) (fs : list Directive)
    (k : Kind) (i : nat) :
  (forall j, kinds (fst (m j)) = (kinds fs ++ [k])%list) ->
  kinds (fst ((if b then m else ret fs) i)) = (kinds fs ++ opt b k)%list.
Proof.
  intros H. destruct b; cbn [opt].
  - apply H.
  - unfold ret. cbn [fst]. now rewrite app_nil_r.
Qed.

Section LegacyOrder.

Variable Math_random : nat -> float.
Variable toString_other : float -> string.
Variable params : VideoProcessingParameters.

Ltac pushed :=
  intros; rewrite ?bind_run; unfold ret; cbn [fst snd];
  unfold kinds, push; rewrite map_app; reflexivity.

Lemma legacy_color_kinds (name : string) (p : Range.t) (fs : list Directive)
    (i : nat) :
  kinds (fst (legacy_color Math_random toString_other name p fs i)) =
  (kinds fs ++ opt (Range.enabled p) KEq)%list.
Proof.
  unfold legacy_color. apply (if_step _ _ _ KEq). pushed.
Qed.

(** The directive list of the legacy builder: one [eq] directive for every
    enabled colour parameter, then noise, rotation, flip, zoom, crop and
    vignette.  The zoom directive is there whenever zoom is enabled. *)
Lemma legacyFilters_order (i : nat) :
  exists cropped : bool,
    (cropped = true -> Range.enabled (pixelShift params) = true) /\
    kinds (fst (legacyFilters Math_random toString_other params i))
    = (opt (Range.enabled (saturation params)) KEq
       ++ opt (Range.enabled (contrast params)) KEq
       ++ opt (Range.enabled (brightness params)) KEq
       ++ opt (Range.enabled (gamma params)) KEq
       ++ opt (Range.enabled (noise params)) KNoise
       ++ opt (Range.enabled (rotation params)) KRotate
       ++ opt (Toggle.enabled (flipHorizontally params)) KHflip
       ++ opt (Range.enabled (zoom params)) KZoom
       ++ opt cropped KCrop
       ++ opt (Range.enabled (vignette params)) KVignette)%list.
Proof.
  unfold legacyFilters. rewrite !bind_run.
  rewrite (if_step _ _ _ KVignette) by pushed.
  match goal with
  | |- context [kinds (fst ((if Range.enabled (pixelShift params)
                             then ?m else ret ?fs) ?j))] =>
      assert (Hcrop : exists cropped : bool,
                 (cropped = true -> Range.enabled (pixelShift params) = true) /\
                 kinds (fst ((if Range.enabled (pixelShift params)
                              then m else ret fs) j)) =
                 (kinds fs ++ opt cropped KCrop)%list)
  end.
  { destruct (Range.enabled (pixelShift params)).
    - rewrite bind_run. cbv zeta.
      match goal with
      | |- context [if ?t then _ else _] => destruct t
      end.
      + exists true. split; [reflexivity|]. unfold ret. cbn [fst snd opt].
        unfold kinds, push. now rewrite map_app.
      + exists false. split; [discriminate|]. unfold ret. cbn [fst snd opt].
        now rewrite app_nil_r.
    - exists false. split; [discriminate|]. unfold ret. cbn [fst snd opt].
      now rewrite app_nil_r. }
  destruct Hcrop as (cropped & Hc & ->).
  rewrite (if_step _ _ _ KZoom) by pushed.
  rewrite (if_step _ _ _ KHflip) by pushed.
  rewrite (if_step _ _ _ KRotate) by pushed.
  rewrite (if_step _ _ _ KNoise) by pushed.
  rewrite !legacy_color_kinds.
  exists cropped. split; [exact Hc|].
  cbn [kinds map app]. rewrite <- !app_assoc. reflexivity.
Qed.

End LegacyOrder.



(** ** A zoom of magnitude zero *)

(** A draw from the range [0, 0] is never positive, whatever the random
    source returns. *)
Lemma zero_range_not_positive (r lo hi : float) :
  (lo =? 0)%float = true -> (hi =? 0)%float = true ->
  (0 <? r * (hi - lo) + lo)%float = false.
Proof.
  rewrite !FloatAxioms.eqb_spec, FloatAxioms.ltb_spec, FloatAxioms.add_spec,
    FloatAxioms.mul_spec, FloatAxioms.sub_spec.
  change (Prim2SF 0) with (S754_zero false).
  destruct (Prim2SF lo) as [sl|sl| |sl ml el];
    try discriminate; try (destruct sl; discriminate).
  destruct (Prim2SF hi) as [sh|sh| |sh mh eh];
    try discriminate; try (destruct sh; discriminate).
  intros _ _.
  destruct (Prim2SF r) as [sr|sr| |sr mr er], sl, sh;
    try destruct sr; reflexivity.
Qed.

(** The enhanced builder: with the zoom range [0, 0] no zoom directive is
    emitted. *)
Lemma enhanced_zero_zoom_no_scale (Math_random : nat -> float)
    (toString_other : float -> string) (params : VideoProcessingParameters)
    (i : nat) :
  (Range.min (zoom params) =? 0)%float = true ->
  (Range.max (zoom params) =? 0)%float = true ->
  ~ In KZoom
      (kinds (filters (fst (buildFilterChain Math_random toString_other
                              params i)))).
Proof.
  intros Hlo Hhi.
  destruct (buildFilterChain_order Math_random toString_other params i)
    as (zoomed & cropped & vignetted & shifted & Hz & _ & _ & _ & ->).
  assert (zoomed = false) as ->.
  { destruct zoomed; [|reflexivity].
    destruct (Hz eq_refl) as (_ & j & Hj).
    unfold sample, getRandomValue, random, bind, ret in Hj. cbn in Hj.
    now rewrite zero_range_not_positive in Hj. }
  intros H. change (opt false KZoom) with (@nil Kind) in H.
  repeat (apply in_app_or in H; destruct H as [H|H]);
    try (exact H);
    match type of H with
    | In _ (opt ?b _) =>
        destruct b; cbn in H; [destruct H as [H|[]]; discriminate | exact H]
    end.
Qed.

(** The legacy builder emits its zoom directive whenever zoom is enabled. *)
Lemma legacy_zoom_always_scales (Math_random : nat -> float)
    (toString_other : float -> string) (params : VideoProcessingParameters)
    (i : nat) :
  Range.enabled (zoom params) = true ->
  In KZoom (kinds (fst (legacyFilters Math_random toString_other params i))).
Proof.
  intros Hz.
  destruct (legacyFilters_order Math_random toString_other params i)
    as (cropped & _ & ->).
  rewrite Hz. rewrite !in_app_iff. do 7 right. left. now left.
Qed.

(** C3, at the failing input: zoom enabled with the range [0, 0] and
    nothing else.  The enhanced builder emits nothing; the legacy builder
    emits the directive [scale=iw*1.00:ih*1.00]. *)
Theorem zero_zoom_directive :
  buildFilterString Example.half Example.toString_other Example.zeroZoom 0%nat
    = ("scale=iw*1.00:ih*1.00"%string, 1%nat) /\
  fst (buildFilterChain Example.half Example.toString_other
         Example.zeroZoom 0%nat)
    = {| filters := []; appliedFilters := [] |}.
Proof. vm_compute. split; reflexivity. Qed.

(** ** What a rendering in fixed notation determines *)

Lemma string_length_append (s t : string) :
  String.length (s ++ t) = (String.length s + String.length t)%nat.
Proof. induction s; cbn; [reflexivity | now rewrite IHs]. Qed.






Lemma to_int_not_nil (z : Z) :
  Z.to_int z <> Decimal.Pos Decimal.Nil /\
  Z.to_int z <> Decimal.Neg Decimal.Nil.
Proof.
  destruct z as [|p|p]; cbn; split; try discriminate;
    intros H; inversion H as [H']; now apply Unsigned.to_uint_nonnil in H'.
Qed.

Lemma digits_of_Z_inj (a b : Z) : JS.digits_of_Z a = JS.digits_of_Z b -> a = b.
Proof.
  unfold JS.digits_of_Z. intros H.
  apply (f_equal NilZero.int_of_string) in H.
  destruct (to_int_not_nil a) as [A1 A2], (to_int_not_nil b) as [B1 B2].
  rewrite !NilZero.isi in H by assumption.
  inversion H as [H']. now apply DecimalZ.to_int_inj.
Qed.











Lemma append_cancel (s t1 t2 : string) :
  (s ++ t1 = s ++ t2)%string -> t1 = t2.
Proof.
  induction s; cbn; intros H; [exact H|]. inversion H; auto.
Qed.

(** ** The precision of the directives *)




(** ** Rounding to nearest

    The arithmetic of doubles, [SFadd], [SFsub] and [SFmul], returns a
    nearest number of the format; the sampler needs no more of it. *)

Import Binary64.

(** *** Digits and powers of two *)

Lemma fexp_eq (k : Z) : fexp k = Z.max (k - 53) (-1074).
Proof. reflexivity. Qed.

Lemma digits_bounds (m : positive) :
  2 ^ (Z.pos (digits2_pos m) - 1) <= Z.pos m < 2 ^ Z.pos (digits2_pos m).
Proof.
  induction m as [m IH|m IH|]; cbn [digits2_pos].
  - rewrite Pos2Z.inj_succ.
    replace (Z.succ (Z.pos (digits2_pos m)) - 1) with
      (Z.succ (Z.pos (digits2_pos m) - 1)) by lia.
    rewrite !Z.pow_succ_r by lia. lia.
  - rewrite Pos2Z.inj_succ.
    replace (Z.succ (Z.pos (digits2_pos m)) - 1) with
      (Z.succ (Z.pos (digits2_pos m) - 1)) by lia.
    rewrite !Z.pow_succ_r by lia. lia.
  - cbn. lia.
Qed.

Lemma pow2_pos (k : Z) : 0 <= k -> 0 < 2 ^ k.
Proof. intros. apply Z.pow_pos_nonneg; lia. Qed.

Lemma pow2_le (a b : Z) : 0 <= a <= b -> 2 ^ a <= 2 ^ b.
Proof. intros. apply Z.pow_le_mono_r; lia. Qed.

Lemma pow2_lt (a b : Z) : 0 <= a < b -> 2 ^ a < 2 ^ b.
Proof. intros. apply Z.pow_lt_mono_r; lia. Qed.

Lemma pow2_add (a b : Z) : 0 <= a -> 0 <= b -> 2 ^ (a + b) = 2 ^ a * 2 ^ b.
Proof. intros. apply Z.pow_add_r; lia. Qed.

Lemma digits_le (m : positive) (k : Z) :
  0 <= k -> Z.pos m < 2 ^ k -> Z.pos (digits2_pos m) <= k.
Proof.
  intros Hk H. destruct (digits_bounds m) as [L _].
  destruct (Z_le_gt_dec (Z.pos (digits2_pos m)) k) as [|G]; [assumption|].
  assert (2 ^ k <= 2 ^ (Z.pos (digits2_pos m) - 1)) by (apply pow2_le; lia).
  lia.
Qed.

Lemma digits_ge (m : positive) (k : Z) :
  0 <= k -> 2 ^ k <= Z.pos m -> k + 1 <= Z.pos (digits2_pos m).
Proof.
  intros Hk H. destruct (digits_bounds m) as [_ U].
  destruct (Z_le_gt_dec (k + 1) (Z.pos (digits2_pos m))) as [|G]; [assumption|].
  assert (2 ^ Z.pos (digits2_pos m) <= 2 ^ k) by (apply pow2_le; lia).
  lia.
Qed.

(** *** Shifting right with a round and a sticky bit *)

Lemma iter_pos_nat {A} (f : A -> A) (p : positive) :
  forall x, SpecFloat.iter_pos f p x = Nat.iter (Pos.to_nat p) f x.
Proof.
  induction p as [p IH|p IH|]; intros x; cbn [SpecFloat.iter_pos].
  - rewrite !IH, Pos2Nat.inj_xI.
    replace (S (2 * Pos.to_nat p)) with (Pos.to_nat p + (Pos.to_nat p + 1))%nat
      by lia.
    rewrite !Nat.iter_add. reflexivity.
  - rewrite !IH, Pos2Nat.inj_xO.
    replace (2 * Pos.to_nat p)%nat with (Pos.to_nat p + Pos.to_nat p)%nat
      by lia.
    rewrite Nat.iter_add. reflexivity.
  - reflexivity.
Qed.

Lemma shr_1_nonneg (m : Z) (r s : bool) :
  0 <= m ->
  shr_1 {| shr_m := m; shr_r := r; shr_s := s |} =
  {| shr_m := m / 2; shr_r := Z.odd m; shr_s := r || s |}.
Proof.
  intros Hm. unfold shr_1.
  destruct m as [|p|p]; [reflexivity| |lia].
  destruct p as [p|p|]; cbn [Z.odd].
  - f_equal. rewrite Pos2Z.inj_xI.
    apply (Z.div_unique _ _ _ 1); lia.
  - f_equal. rewrite Pos2Z.inj_xO.
    apply (Z.div_unique _ _ _ 0); lia.
  - reflexivity.
Qed.

Lemma mod_pow2_succ (m k : Z) :
  0 <= k ->
  m mod 2 ^ (k + 1) = m mod 2 ^ k + 2 ^ k * Z.b2z (Z.odd (m / 2 ^ k)).
Proof.
  intros Hk. pose proof (pow2_pos k Hk) as Hp.
  rewrite pow2_add by lia. change (2 ^ 1) with 2.
  pose proof (Z.div_mod m (2 ^ k) ltac:(lia)) as E1.
  pose proof (Z.mod_pos_bound m (2 ^ k) Hp) as B1.
  pose proof (Z.div_mod (m / 2 ^ k) 2 ltac:(lia)) as E2.
  rewrite Zmod_odd in E2.
  symmetry. apply Z.mod_unique with (q := m / 2 ^ k / 2).
  - left. destruct (Z.odd (m / 2 ^ k)); cbn [Z.b2z]; nia.
  - destruct (Z.odd (m / 2 ^ k)); cbn [Z.b2z] in *; nia.
Qed.

Lemma shifted_step (m0 : Z) (k : nat) (r : shr_record) :
  0 <= m0 -> shifted m0 k r -> shifted m0 (S k) (shr_1 r).
Proof.
  intros Hm [Hv Hb]. destruct r as [m r s]. cbn in Hv. subst m.
  assert (Hq : 0 <= m0 / 2 ^ Z.of_nat k)
    by (apply Z.div_pos; [lia | apply pow2_pos; lia]).
  rewrite shr_1_nonneg by assumption. split; cbn [shr_m shr_r shr_s].
  - rewrite Nat2Z.inj_succ, Z.pow_succ_r by lia.
    pose proof (pow2_pos (Z.of_nat k) ltac:(lia)) as Hp.
    rewrite Z.div_div by lia.
    f_equal. lia.
  - split; [reflexivity|].
    destruct k as [|k']; cbn [shr_r shr_s] in Hb; destruct Hb as [-> ->].
    + cbn. now rewrite Z.mod_1_r.
    + rewrite (Nat2Z.inj_succ k').
      replace (Z.succ (Z.of_nat k')) with (Z.of_nat k' + 1) by lia.
      rewrite mod_pow2_succ by lia.
      pose proof (pow2_pos (Z.of_nat k') ltac:(lia)) as Hp.
      pose proof (Z.mod_pos_bound m0 (2 ^ Z.of_nat k') Hp).
      destruct (Z.odd (m0 / 2 ^ Z.of_nat k')); cbn [Z.b2z orb negb].
      * symmetry. apply negb_true_iff, Z.eqb_neq. lia.
      * rewrite Z.mul_0_r, Z.add_0_r. reflexivity.
Qed.

Lemma shifted_iter (m0 : Z) (k : nat) :
  0 <= m0 ->
  shifted m0 k
    (Nat.iter k shr_1 {| shr_m := m0; shr_r := false; shr_s := false |}).
Proof.
  intros Hm. induction k as [|k IH].
  - split; cbn; [now rewrite Z.div_1_r | auto].
  - cbn [Nat.iter]. now apply shifted_step.
Qed.

Lemma shr_spec (m e n : Z) :
  0 <= m -> 0 <= n ->
  let r := shr {| shr_m := m; shr_r := false; shr_s := false |} e n in
  snd r = e + n /\ shifted m (Z.to_nat n) (fst r).
Proof.
  intros Hm Hn. unfold shr. destruct n as [|p|p]; [| |lia]; cbn [fst snd].
  - split; [lia|]. split; cbn; [now rewrite Z.div_1_r | auto].
  - split; [reflexivity|]. rewrite iter_pos_nat.
    change (Z.to_nat (Z.pos p)) with (Pos.to_nat p).
    now apply shifted_iter.
Qed.

Lemma shr_nonpos (r : shr_record) (e n : Z) : n <= 0 -> shr r e n = (r, e).
Proof.
  intros Hn. unfold shr.
  destruct n as [|p|p]; [reflexivity|lia|reflexivity].
Qed.

(** The mantissa kept after the shift and the rounding is within half a
    unit of the exact quotient. *)
Lemma rounded_shift (m n : Z) (r : shr_record) :
  0 <= m -> 0 <= n -> shifted m (Z.to_nat n) r ->
  let m2 := round_nearest_even (shr_m r) (loc_of_shr_record r) in
  m / 2 ^ n <= m2 <= m / 2 ^ n + 1 /\
  2 * Z.abs (m2 * 2 ^ n - m) <= 2 ^ n.
Proof.
  intros Hm Hn [Hv Hb] m2. subst m2. rewrite Z2Nat.id in Hv by lia.
  pose proof (pow2_pos n Hn) as Hp.
  pose proof (Z.div_mod m (2 ^ n) ltac:(lia)) as E.
  pose proof (Z.mod_pos_bound m (2 ^ n) Hp) as B.
  destruct (Z.to_nat n) as [|k] eqn:Ek.
  - assert (n = 0) by lia. subst n. destruct Hb as [Hr Hs].
    destruct r as [m1 r s]. cbn [shr_m shr_r shr_s] in *. subst.
    cbn [loc_of_shr_record round_nearest_even shr_m].
    change (2 ^ 0) with 1. rewrite Z.div_1_r. lia.
  - assert (En : n = Z.of_nat k + 1) by lia.
    destruct Hb as [Hr Hs]. destruct r as [m1 r s].
    cbn [shr_m shr_r shr_s] in Hv, Hr, Hs. subst m1.
    pose proof (mod_pow2_succ m (Z.of_nat k) ltac:(lia)) as Em.
    rewrite <- En in Em.
    pose proof (pow2_pos (Z.of_nat k) ltac:(lia)) as Hpk.
    pose proof (Z.mod_pos_bound m (2 ^ Z.of_nat k) Hpk) as Bk.
    assert (Eq2 : 2 ^ n = 2 * 2 ^ Z.of_nat k).
    { rewrite En, pow2_add by lia. change (2 ^ 1) with 2. lia. }
    rewrite <- Hr in Em. cbn [loc_of_shr_record shr_m].
    destruct r, s; cbn [round_nearest_even Z.b2z] in *.
    + symmetry in Hs. apply negb_true_iff, Z.eqb_neq in Hs. lia.
    + symmetry in Hs. apply negb_false_iff, Z.eqb_eq in Hs.
      destruct (Z.even (m / 2 ^ n)); lia.
    + symmetry in Hs. apply negb_true_iff, Z.eqb_neq in Hs. lia.
    + symmetry in Hs. apply negb_false_iff, Z.eqb_eq in Hs. lia.
Qed.

(** A mantissa within half a unit of the quotient gives a nearest multiple. *)
Lemma nearest_multiple (x q a k : Z) :
  0 < q -> 2 * Z.abs (a * q - x) <= q ->
  Z.abs (a * q - x) <= Z.abs (k * q - x).
Proof.
  intros Hq H.
  destruct (Z.lt_trichotomy k a) as [L|[->|G]]; [|lia|].
  - assert (k * q <= a * q - q) by nia. lia.
  - assert (a * q + q <= k * q) by nia. lia.
Qed.

Lemma Zdigits2_pos (m : positive) :
  Zdigits2 (Z.pos m) = Z.pos (digits2_pos m).
Proof. reflexivity. Qed.

Lemma quotient_lt (m : positive) (e : Z) :
  let E := fexp (Z.pos (digits2_pos m) + e) in
  e <= E -> Z.pos m / 2 ^ (E - e) < 2 ^ 53.
Proof.
  intros E HE. destruct (digits_bounds m) as [_ U].
  set (d := Z.pos (digits2_pos m)) in *.
  assert (Hd : d - 53 <= E - e) by (unfold E; rewrite fexp_eq; lia).
  pose proof (pow2_pos (E - e) ltac:(lia)) as Hp.
  apply Z.div_lt_upper_bound; [lia|].
  destruct (Z_le_gt_dec d (E - e)) as [L|G].
  - assert (2 ^ d <= 2 ^ (E - e)) by (apply pow2_le; subst d; lia).
    pose proof (pow2_pos 53 ltac:(lia)). nia.
  - assert (2 ^ d <= 2 ^ (E - e + 53)) by (apply pow2_le; subst d; lia).
    rewrite pow2_add in H by lia. lia.
Qed.

(** The steps of [binary_round_aux] on an exact input whose exponent is
    not above the one of its normal form. *)
Lemma round_aux_shape (s : bool) (m : positive) (e : Z) :
  let E := fexp (Z.pos (digits2_pos m) + e) in
  e <= E ->
  exists m2 : Z,
    Z.pos m / 2 ^ (E - e) <= m2 <= Z.pos m / 2 ^ (E - e) + 1 /\
    2 * Z.abs (m2 * 2 ^ (E - e) - Z.pos m) <= 2 ^ (E - e) /\
    m2 <= 2 ^ 53 /\
    binary_round_aux prec emax s (Z.pos m) e loc_Exact =
    match m2 with
    | Z0 => S754_zero s
    | Z.pos p =>
        if Z.pos p <? 2 ^ 53 then finite_or_inf s p E
        else finite_or_inf s (2 ^ 52)%positive (E + 1)
    | Z.neg _ => S754_nan
    end.
Proof.
  intros E HE.
  unfold binary_round_aux, shr_fexp. rewrite Zdigits2_pos.
  fold (fexp (Z.pos (digits2_pos m) + e)). fold E.
  cbn [shr_record_of_loc].
  pose proof (shr_spec (Z.pos m) e (E - e) ltac:(lia) ltac:(lia)) as Hs.
  cbv zeta in Hs. destruct Hs as [H1 H2].
  destruct (shr _ e (E - e)) as [r1 e1].
  cbn [fst snd] in H1. cbn [fst snd] in H2.
  assert (He1 : e1 = E) by lia. clear H1. subst e1.
  pose proof (rounded_shift (Z.pos m) (E - e) r1 ltac:(lia) ltac:(lia) H2)
    as Hr.
  cbv zeta in Hr. destruct Hr as [B1 B2].
  set (m2 := round_nearest_even (shr_m r1) (loc_of_shr_record r1)) in *.
  pose proof (quotient_lt m e HE) as Hq. fold E in Hq.
  assert (HEmin : -1074 <= E) by (unfold E; rewrite fexp_eq; lia).
  exists m2. split; [exact B1|]. split; [exact B2|].
  split; [lia|].
  assert (Hq0 : 0 <= Z.pos m / 2 ^ (E - e))
    by (apply Z.div_pos; [lia | apply pow2_pos; lia]).
  destruct m2 as [|p|p] eqn:Em2; [| |lia].
  - rewrite shr_nonpos; [reflexivity|].
    cbn [Zdigits2]. fold (fexp (0 + E)). rewrite fexp_eq. lia.
  - rewrite Zdigits2_pos. fold (fexp (Z.pos (digits2_pos p) + E)).
    destruct (Z.pos p <? 2 ^ 53) eqn:Lp.
    + apply Z.ltb_lt in Lp.
      pose proof (digits_le p 53 ltac:(lia) Lp) as Hd.
      rewrite shr_nonpos by (rewrite fexp_eq; lia).
      cbn [shr_m]. unfold finite_or_inf. reflexivity.
    + apply Z.ltb_ge in Lp.
      assert (Ep : Z.pos p = 2 ^ 53) by lia.
      assert (Epp : p = (2 ^ 53)%positive) by (apply Pos2Z.inj; exact Ep).
      subst p.
      replace (fexp (Z.pos (digits2_pos (2 ^ 53)) + E) - E) with 1
        by (change (Z.pos (digits2_pos (2 ^ 53))) with 54;
            rewrite fexp_eq; lia).
      cbn [shr SpecFloat.iter_pos shr_1 fst snd shr_m].
      unfold finite_or_inf.
      reflexivity.
Qed.

(** *** Normal forms and values *)

Lemma canonical_bounds (m : positive) (e : Z) :
  canonical m e ->
  -1074 <= e /\ Z.pos m < 2 ^ 53 /\ (-1074 < e -> 2 ^ 52 <= Z.pos m).
Proof.
  unfold canonical. rewrite fexp_eq. intros H.
  destruct (digits_bounds m) as [L U].
  set (d := Z.pos (digits2_pos m)) in *.
  assert (Hd : 1 <= d) by (subst d; lia).
  split; [lia|]. split.
  - assert (2 ^ d <= 2 ^ 53) by (apply pow2_le; lia). lia.
  - intros He. assert (d = 53) by lia.
    replace (d - 1) with 52 in L by lia. exact L.
Qed.

Lemma valid_canonical (s : bool) (m : positive) (e : Z) :
  valid_binary (S754_finite s m e) = true -> canonical m e /\ e <= 971.
Proof.
  cbn [SpecFloat.valid_binary]. unfold bounded, canonical_mantissa.
  intros H. apply andb_true_iff in H. destruct H as [H1 H2].
  apply Z.eqb_eq in H1. apply Z.leb_le in H2.
  split; [exact H1 | exact H2].
Qed.

Lemma canonical_valid (s : bool) (m : positive) (e : Z) :
  canonical m e -> e <= 971 -> valid_binary (S754_finite s m e) = true.
Proof.
  intros H1 H2. cbn [SpecFloat.valid_binary].
  unfold bounded, canonical_mantissa. apply andb_true_iff.
  split; [apply Z.eqb_eq; exact H1 | apply Z.leb_le; exact H2].
Qed.

(** Among normal forms, a smaller exponent means a smaller magnitude. *)
Lemma canonical_lt (k : Z) (m1 : positive) (e1 : Z) (m2 : positive) (e2 : Z) :
  canonical m1 e1 -> canonical m2 e2 -> 0 <= e1 + k -> e1 < e2 ->
  Z.pos m1 * 2 ^ (e1 + k) < Z.pos m2 * 2 ^ (e2 + k).
Proof.
  intros C1 C2 Hk He.
  destruct (canonical_bounds _ _ C1) as (L1 & U1 & _).
  destruct (canonical_bounds _ _ C2) as (L2 & _ & N2).
  specialize (N2 ltac:(lia)).
  replace (e2 + k) with ((e2 - e1 - 1) + 1 + (e1 + k)) by lia.
  rewrite (pow2_add (e2 - e1 - 1 + 1) (e1 + k)) by lia.
  rewrite (pow2_add (e2 - e1 - 1) 1) by lia. change (2 ^ 1) with 2.
  pose proof (pow2_pos (e1 + k) Hk) as P1.
  pose proof (pow2_pos (e2 - e1 - 1) ltac:(lia)) as P2.
  change (2 ^ 53) with (2 * 2 ^ 52) in U1.
  generalize dependent (2 ^ (e1 + k)). generalize dependent (2 ^ (e2 - e1 - 1)).
  generalize dependent (2 ^ 52). intros c U1 N2 b Hb a Ha.
  assert (Z.pos m1 * a < 2 * c * a) by (apply Z.mul_lt_mono_pos_r; lia).
  assert (c * a <= Z.pos m2 * a) by (apply Z.mul_le_mono_nonneg_r; lia).
  assert (Z.pos m2 * a * 1 <= Z.pos m2 * a * b)
    by (apply Z.mul_le_mono_nonneg_l; lia).
  lia.
Qed.

Lemma compare_scaled (a b p : Z) : 0 < p -> (a * p ?= b * p) = (a ?= b).
Proof. intros Hp. symmetry. apply Zmult_compare_compat_r. lia. Qed.

Lemma SFcompare_sval (f1 f2 : spec_float) :
  representable f1 -> representable f2 ->
  SFcompare f1 f2 = Some (sval f1 ?= sval f2).
Proof.
  intros [V1 F1] [V2 F2].
  destruct f1 as [s1| | |s1 m1 e1]; try discriminate F1;
  destruct f2 as [s2| | |s2 m2 e2]; try discriminate F2;
  cbn [SFcompare sval].
  - reflexivity.
  - apply valid_canonical in V2. destruct V2 as [C2 _].
    destruct (canonical_bounds _ _ C2) as (L2 & _).
    pose proof (pow2_pos (e2 + 1074) ltac:(lia)).
    destruct s2; cbn [cond_Zopp]; f_equal; symmetry.
    + apply Z.compare_gt_iff. nia.
    + apply Z.compare_lt_iff. nia.
  - apply valid_canonical in V1. destruct V1 as [C1 _].
    destruct (canonical_bounds _ _ C1) as (L1 & _).
    pose proof (pow2_pos (e1 + 1074) ltac:(lia)).
    destruct s1; cbn [cond_Zopp]; f_equal; symmetry.
    + apply Z.compare_lt_iff. nia.
    + apply Z.compare_gt_iff. nia.
  - apply valid_canonical in V1, V2.
    destruct V1 as [C1 _], V2 as [C2 _].
    destruct (canonical_bounds _ _ C1) as (L1 & _).
    destruct (canonical_bounds _ _ C2) as (L2 & _).
    pose proof (pow2_pos (e1 + 1074) ltac:(lia)) as P1.
    pose proof (pow2_pos (e2 + 1074) ltac:(lia)) as P2.
    assert (Hlt : forall ma ea mb eb, canonical ma ea -> canonical mb eb ->
              -1074 <= ea -> ea < eb ->
              Z.pos ma * 2 ^ (ea + 1074) < Z.pos mb * 2 ^ (eb + 1074)).
    { intros. apply canonical_lt; try assumption; lia. }
    f_equal. destruct s1, s2; cbn [cond_Zopp].
    + rewrite Z.compare_opp.
      destruct (Z.compare_spec e1 e2) as [E|L|G].
      * subst e2. rewrite compare_scaled by assumption.
        rewrite <- Pos.compare_antisym. reflexivity.
      * symmetry. apply Z.compare_gt_iff. apply Hlt; assumption.
      * symmetry. apply Z.compare_lt_iff. apply Hlt; assumption.
    + symmetry. apply Z.compare_lt_iff. nia.
    + symmetry. apply Z.compare_gt_iff. nia.
    + destruct (Z.compare_spec e1 e2) as [E|L|G].
      * subst e2. rewrite compare_scaled by assumption. reflexivity.
      * symmetry. apply Z.compare_lt_iff. apply Hlt; assumption.
      * symmetry. apply Z.compare_gt_iff. apply Hlt; assumption.
Qed.

(** *** A nearest number of the format *)

Lemma abs_cond_Zopp (s : bool) (x : Z) : Z.abs (cond_Zopp s x) = Z.abs x.
Proof. destruct s; cbn [cond_Zopp]; lia. Qed.

Lemma scale_mul (k e : Z) :
  1074 <= k -> -1074 <= e -> 2 ^ (k - 1074) * 2 ^ (e + 1074) = 2 ^ (e + k).
Proof.
  intros Hk He. rewrite <- pow2_add by lia. f_equal. lia.
Qed.

Lemma scale_cond_Zopp (s : bool) (p k e : Z) :
  1074 <= k -> -1074 <= e ->
  2 ^ (k - 1074) * cond_Zopp s (p * 2 ^ (e + 1074)) =
  cond_Zopp s (p * 2 ^ (e + k)).
Proof.
  intros Hk He. rewrite <- (scale_mul k e Hk He).
  destruct s; cbn [cond_Zopp]; ring.
Qed.

(** The magnitude of a representable number is on the grid of spacing
    [2 ^ (E + k)], or below the first normal number of that spacing. *)
Lemma magnitude_cases (b : spec_float) (E k : Z) :
  representable b -> 1074 <= k -> -1074 <= E ->
  (exists n, 2 ^ (k - 1074) * Z.abs (sval b) = n * 2 ^ (E + k)) \/
  (-1074 < E /\ 2 ^ (k - 1074) * Z.abs (sval b) < 2 ^ 52 * 2 ^ (E + k)).
Proof.
  intros [V F] Hk HE.
  destruct b as [sb| | |sb mb eb]; try discriminate F.
  - left. exists 0. cbn [sval]. rewrite Z.abs_0. ring.
  - apply valid_canonical in V. destruct V as [C _].
    destruct (canonical_bounds _ _ C) as (Lb & Ub & _).
    cbn [sval]. rewrite abs_cond_Zopp.
    pose proof (pow2_pos (eb + 1074) ltac:(lia)) as Pb.
    rewrite Z.abs_eq by nia.
    rewrite Z.mul_comm, <- Z.mul_assoc, (Z.mul_comm _ (2 ^ (k - 1074))).
    rewrite scale_mul by lia.
    destruct (Z_le_gt_dec E eb) as [L|G].
    + left. exists (Z.pos mb * 2 ^ (eb - E)).
      rewrite <- Z.mul_assoc, <- pow2_add by lia. do 2 f_equal. lia.
    + right. split; [lia|].
      replace (E + k) with ((E - eb - 1) + 1 + (eb + k)) by lia.
      rewrite (pow2_add (E - eb - 1 + 1) (eb + k)) by lia.
      rewrite (pow2_add (E - eb - 1) 1) by lia. change (2 ^ 1) with 2.
      pose proof (pow2_pos (eb + k) ltac:(lia)) as P1.
      pose proof (pow2_pos (E - eb - 1) ltac:(lia)) as P2.
      change (2 ^ 53) with (2 * 2 ^ 52) in Ub.
      generalize dependent (2 ^ (eb + k)).
      generalize dependent (2 ^ (E - eb - 1)).
      generalize dependent (2 ^ 52). intros c Ub u Hu a Ha.
      assert (Z.pos mb * a < 2 * c * a) by (apply Z.mul_lt_mono_pos_r; lia).
      assert (0 < c) by lia.
      assert (c * (2 * a) * 1 <= c * (2 * a) * u)
        by (apply Z.mul_le_mono_nonneg_l; nia).
      lia.
Qed.

(** Every representable magnitude is at most the largest finite number. *)
Lemma magnitude_max (b : spec_float) (k : Z) :
  representable b -> 1074 <= k ->
  2 ^ (k - 1074) * Z.abs (sval b) <= (2 ^ 53 - 1) * 2 ^ (971 + k).
Proof.
  intros [V F] Hk.
  pose proof (pow2_pos (971 + k) ltac:(lia)) as P0.
  destruct b as [sb| | |sb mb eb]; try discriminate F.
  - cbn [sval]. rewrite Z.abs_0. lia.
  - apply valid_canonical in V. destruct V as [C M].
    destruct (canonical_bounds _ _ C) as (Lb & Ub & _).
    cbn [sval]. rewrite abs_cond_Zopp.
    pose proof (pow2_pos (eb + 1074) ltac:(lia)) as Pb.
    rewrite Z.abs_eq by nia.
    rewrite Z.mul_comm, <- Z.mul_assoc, (Z.mul_comm _ (2 ^ (k - 1074))).
    rewrite scale_mul by lia.
    assert (2 ^ (eb + k) <= 2 ^ (971 + k)) by (apply pow2_le; lia).
    pose proof (pow2_pos (eb + k) ltac:(lia)) as P1.
    generalize dependent (2 ^ (eb + k)). generalize dependent (2 ^ (971 + k)).
    generalize dependent (2 ^ 53). intros c Ub t Ht a Ha1 Ha2.
    assert (Z.pos mb * a <= (c - 1) * a)
      by (apply Z.mul_le_mono_nonneg_r; lia).
    assert ((c - 1) * a <= (c - 1) * t)
      by (apply Z.mul_le_mono_nonneg_l; lia).
    lia.
Qed.

(** A value on the grid within half a step of [X] is at least as close to
    [X] as every representable magnitude. *)
Lemma nearest_on_grid (E k m2 X : Z) (b : spec_float) :
  1074 <= k -> -1074 <= E -> 0 <= X ->
  2 * Z.abs (m2 * 2 ^ (E + k) - X) <= 2 ^ (E + k) ->
  (-1074 < E -> 2 ^ 52 * 2 ^ (E + k) <= X) ->
  representable b ->
  Z.abs (m2 * 2 ^ (E + k) - X) <=
  Z.abs (2 ^ (k - 1074) * Z.abs (sval b) - X).
Proof.
  intros Hk HE HX HY HN Hb.
  pose proof (pow2_pos (E + k) ltac:(lia)) as Pq.
  destruct (magnitude_cases b E k Hb Hk HE) as [[n ->]|[HE' HB]].
  - apply nearest_multiple; assumption.
  - specialize (HN HE').
    pose proof (nearest_multiple X (2 ^ (E + k)) m2 (2 ^ 52) Pq HY).
    lia.
Qed.

Lemma signed_distance (s : bool) (Y X t : Z) :
  0 <= X -> Z.abs (Y - X) <= Z.abs (Z.abs t - X) ->
  Z.abs (cond_Zopp s Y - cond_Zopp s X) <= Z.abs (t - cond_Zopp s X).
Proof. intros HX H. destruct s; cbn [cond_Zopp]; lia. Qed.

Lemma Nearest_finite_or_inf (s : bool) (p : positive) (E k X : Z) :
  1074 <= k -> -1074 <= E -> 0 < X ->
  (forall b, representable b ->
     Z.abs (Z.pos p * 2 ^ (E + k) - X) <=
     Z.abs (2 ^ (k - 1074) * Z.abs (sval b) - X)) ->
  (971 < E -> (2 ^ 53 - 1) * 2 ^ (971 + k) < X) ->
  Nearest (2 ^ (k - 1074)) (cond_Zopp s X) (finite_or_inf s p E).
Proof.
  intros Hk HE HX Hnear Hover. unfold finite_or_inf.
  pose proof (pow2_pos (k - 1074) ltac:(lia)) as Pc.
  destruct (E <=? 971) eqn:Le.
  - cbn [Nearest sval].
    pose proof (pow2_pos (E + 1074) ltac:(lia)) as P1.
    assert (0 < Z.pos p * 2 ^ (E + 1074)) by nia.
    split; [destruct s; cbn [cond_Zopp]; lia|].
    split; [destruct s; cbn [cond_Zopp]; lia|].
    intros b Hb. rewrite scale_cond_Zopp by lia.
    apply signed_distance; [lia|].
    rewrite Z.abs_mul, (Z.abs_eq (2 ^ (k - 1074))) by lia.
    apply Hnear; assumption.
  - apply Z.leb_gt in Le. cbn [Nearest]. intros b Hb.
    rewrite abs_cond_Zopp, (Z.abs_eq X) by lia.
    pose proof (magnitude_max b k Hb Hk). specialize (Hover Le). lia.
Qed.

Lemma round_aux_nearest (s : bool) (m : positive) (e k : Z) :
  1074 <= k -> 0 <= e + k -> e <= fexp (Z.pos (digits2_pos m) + e) ->
  Nearest (2 ^ (k - 1074)) (cond_Zopp s (Z.pos m * 2 ^ (e + k)))
    (binary_round_aux prec emax s (Z.pos m) e loc_Exact).
Proof.
  intros Hk Hek HE.
  destruct (round_aux_shape s m e HE) as (m2 & B1 & B2 & B3 & ->).
  set (E := fexp (Z.pos (digits2_pos m) + e)) in *.
  assert (HEmin : -1074 <= E) by (unfold E; rewrite fexp_eq; lia).
  pose proof (pow2_pos (e + k) Hek) as Pe.
  pose proof (pow2_pos (E - e) ltac:(lia)) as Pd.
  pose proof (pow2_pos (E + k) ltac:(lia)) as Pq.
  pose proof (pow2_pos (k - 1074) ltac:(lia)) as Pc.
  assert (Hq : 2 ^ (E + k) = 2 ^ (E - e) * 2 ^ (e + k)).
  { rewrite <- pow2_add by lia. f_equal. lia. }
  assert (HX : 0 < Z.pos m * 2 ^ (e + k)) by nia.
  assert (HY : 2 * Z.abs (m2 * 2 ^ (E + k) - Z.pos m * 2 ^ (e + k))
               <= 2 ^ (E + k)).
  { rewrite Hq.
    replace (m2 * (2 ^ (E - e) * 2 ^ (e + k)) - Z.pos m * 2 ^ (e + k))
      with ((m2 * 2 ^ (E - e) - Z.pos m) * 2 ^ (e + k)) by ring.
    rewrite Z.abs_mul, (Z.abs_eq (2 ^ (e + k))) by lia.
    rewrite Z.mul_assoc. apply Z.mul_le_mono_nonneg_r; lia. }
  assert (HN : -1074 < E ->
               2 ^ 52 * 2 ^ (E + k) <= Z.pos m * 2 ^ (e + k)).
  { intros HE'. destruct (digits_bounds m) as [L _].
    assert (EE : E = Z.pos (digits2_pos m) + e - 53)
      by (unfold E in *; rewrite fexp_eq in *; lia).
    rewrite <- pow2_add by lia.
    replace (52 + (E + k)) with (Z.pos (digits2_pos m) - 1 + (e + k)) by lia.
    rewrite pow2_add by lia.
    apply Z.mul_le_mono_nonneg_r; lia. }
  assert (Hnear : forall b, representable b ->
            Z.abs (m2 * 2 ^ (E + k) - Z.pos m * 2 ^ (e + k)) <=
            Z.abs (2 ^ (k - 1074) * Z.abs (sval b) - Z.pos m * 2 ^ (e + k))).
  { intros b Hb. apply nearest_on_grid; try assumption; lia. }
  set (X := Z.pos m * 2 ^ (e + k)) in *.
  destruct m2 as [|p|p].
  - cbn [Nearest sval]. split; [lia|]. split; [lia|].
    intros b Hb. rewrite Z.mul_0_r.
    replace (0 - cond_Zopp s X) with (cond_Zopp s 0 - cond_Zopp s X)
      by (destruct s; reflexivity).
    apply signed_distance; [lia|].
    rewrite Z.abs_mul, (Z.abs_eq (2 ^ (k - 1074))) by lia.
    specialize (Hnear b Hb). rewrite Z.mul_0_l in Hnear. exact Hnear.
  - destruct (Z.pos p <? 2 ^ 53) eqn:Lp.
    + apply Nearest_finite_or_inf; try assumption.
      intros HE'. specialize (HN ltac:(lia)).
      assert (2 ^ (972 + k) <= 2 ^ (E + k)) by (apply pow2_le; lia).
      replace (972 + k) with (1 + (971 + k)) in H by lia.
      rewrite pow2_add in H by lia. change (2 ^ 1) with 2 in H.
      pose proof (pow2_pos (971 + k) ltac:(lia)).
      change (2 ^ 53) with (2 * 2 ^ 52).
      generalize dependent (2 ^ 52). intros; nia.
    + apply Z.ltb_ge in Lp.
      assert (Ep : Z.pos p = 2 ^ 53) by lia. rewrite Ep in *.
      assert (Hq2 : Z.pos (2 ^ 52) * 2 ^ (E + 1 + k) = 2 ^ 53 * 2 ^ (E + k)).
      { replace (E + 1 + k) with (1 + (E + k)) by lia.
        rewrite pow2_add by lia. change (2 ^ 1) with 2.
        change (Z.pos (2 ^ 52)) with (2 ^ 52).
        change (2 ^ 53) with (2 ^ 52 * 2).
        ring. }
      apply Nearest_finite_or_inf; try assumption; try lia.
      * intros b Hb. rewrite Hq2. apply Hnear; assumption.
      * intros HE'.
        assert (2 ^ (971 + k) <= 2 ^ (E + k)) by (apply pow2_le; lia).
        pose proof (pow2_pos (971 + k) ltac:(lia)).
        generalize dependent (2 ^ 53). intros; nia.
  - assert (0 <= Z.pos m / 2 ^ (E - e)) by (apply Z.div_pos; lia). lia.
Qed.

(** *** Addition, subtraction and multiplication *)

Lemma iter_xO_value (m d : positive) :
  Z.pos (Pos.iter xO m d) = Z.pos m * 2 ^ Z.pos d.
Proof.
  change (Pos.iter xO m d) with (shift_pos d m).
  rewrite shift_pos_correct. change (Z.pow_pos 2 d) with (2 ^ Z.pos d). ring.
Qed.

Lemma iter_xO_digits (m d : positive) :
  digits2_pos (Pos.iter xO m d) = (digits2_pos m + d)%positive.
Proof.
  induction d as [|d IH] using Pos.peano_ind.
  - cbn. lia.
  - rewrite Pos.iter_succ. cbn [digits2_pos]. rewrite IH. lia.
Qed.

(** Aligning to a smaller exponent keeps the value. *)
Lemma shl_align_spec (m : positive) (e e' : Z) :
  e' <= e ->
  exists m', shl_align m e e' = (m', e') /\
    Z.pos m' = Z.pos m * 2 ^ (e - e') /\
    Z.pos (digits2_pos m') + e' = Z.pos (digits2_pos m) + e.
Proof.
  intros H. unfold shl_align.
  destruct (e' - e) as [|d|d] eqn:Ed; [|lia|].
  - assert (e' = e) by lia. subst e'. exists m.
    rewrite Z.sub_diag. change (2 ^ 0) with 1.
    split; [reflexivity|]. split; lia.
  - exists (Pos.iter xO m d). split; [reflexivity|].
    rewrite iter_xO_value, iter_xO_digits.
    replace (e - e') with (Z.pos d) by lia. split; lia.
Qed.

Lemma binary_round_nearest (s : bool) (m : positive) (e k : Z) :
  1074 <= k -> 0 <= e + k ->
  Nearest (2 ^ (k - 1074)) (cond_Zopp s (Z.pos m * 2 ^ (e + k)))
    (binary_round prec emax s m e).
Proof.
  intros Hk He. unfold binary_round.
  fold (fexp (Z.pos (digits2_pos m) + e)).
  set (E := fexp (Z.pos (digits2_pos m) + e)).
  destruct (Z_le_gt_dec e E) as [L|G].
  - assert (Hs : shl_align m e E = (m, e)).
    { unfold shl_align. destruct (E - e) eqn:Ed; try reflexivity. lia. }
    rewrite Hs. apply round_aux_nearest; assumption.
  - destruct (shl_align_spec m e E ltac:(lia)) as (m' & -> & Hv & Hd).
    assert (HEmin : -1074 <= E) by (unfold E; rewrite fexp_eq; lia).
    replace (Z.pos m * 2 ^ (e + k)) with (Z.pos m' * 2 ^ (E + k)).
    + apply round_aux_nearest; [assumption|lia|].
      rewrite Hd. fold E. lia.
    + rewrite Hv, <- Z.mul_assoc, <- pow2_add by lia. do 2 f_equal. lia.
Qed.

Lemma Nearest_zero (c : Z) (s : bool) : Nearest c 0 (S754_zero s).
Proof.
  cbn [Nearest sval]. split; [lia|]. split; [lia|]. intros b _. lia.
Qed.

Lemma Nearest_exact (f : spec_float) (X : Z) :
  finite f = true -> X = sval f -> Nearest 1 X f.
Proof.
  intros F ->. destruct f; try discriminate F; cbn [Nearest].
  - split; [cbn; lia|]. split; [cbn; lia|]. intros b _. cbn [sval]. lia.
  - split; [lia|]. split; [lia|]. intros b _. lia.
Qed.

Lemma normalize_nearest (z e : Z) :
  -1074 <= e ->
  Nearest 1 (z * 2 ^ (e + 1074)) (binary_normalize prec emax z e false).
Proof.
  intros He. destruct z as [|m|m]; cbn [binary_normalize].
  - apply Nearest_zero.
  - apply (binary_round_nearest false m e 1074); lia.
  - replace (Z.neg m * 2 ^ (e + 1074))
      with (cond_Zopp true (Z.pos m * 2 ^ (e + 1074)))
      by (cbn [cond_Zopp]; lia).
    apply (binary_round_nearest true m e 1074); lia.
Qed.

Lemma aligned_value (s : bool) (m : positive) (e e' : Z) :
  e' <= e -> -1074 <= e' ->
  cond_Zopp s (Z.pos (fst (shl_align m e e'))) * 2 ^ (e' + 1074) =
  sval (S754_finite s m e).
Proof.
  intros H H'. destruct (shl_align_spec m e e' H) as (m' & -> & Hv & _).
  cbn [fst sval]. rewrite Hv.
  replace (e + 1074) with ((e - e') + (e' + 1074)) by lia.
  rewrite (pow2_add (e - e') (e' + 1074)) by lia.
  destruct s; cbn [cond_Zopp]; ring.
Qed.

Lemma representable_exponent (s : bool) (m : positive) (e : Z) :
  representable (S754_finite s m e) -> -1074 <= e.
Proof.
  intros [V _]. apply valid_canonical in V. destruct V as [C _].
  destruct (canonical_bounds _ _ C) as [L _]. exact L.
Qed.

Lemma SFadd_nearest (x y : spec_float) :
  representable x -> representable y ->
  Nearest 1 (sval x + sval y) (SFadd prec emax x y).
Proof.
  intros Hx Hy. pose proof Hx as [Vx Fx]. pose proof Hy as [Vy Fy].
  destruct x as [sx| | |sx mx ex]; try discriminate Fx;
  destruct y as [sy| | |sy my ey]; try discriminate Fy.
  - cbn [SFadd sval]. destruct sx, sy; apply Nearest_zero.
  - apply Nearest_exact; [reflexivity | cbn [SFadd sval]; lia].
  - apply Nearest_exact; [reflexivity | cbn [SFadd sval]; lia].
  - pose proof (representable_exponent _ _ _ Hx).
    pose proof (representable_exponent _ _ _ Hy).
    cbn [SFadd]. cbv zeta.
    rewrite <- (aligned_value sx mx ex (Z.min ex ey)) by lia.
    rewrite <- (aligned_value sy my ey (Z.min ex ey)) by lia.
    rewrite <- Z.mul_add_distr_r.
    apply normalize_nearest. lia.
Qed.

Lemma SFsub_nearest (x y : spec_float) :
  representable x -> representable y ->
  Nearest 1 (sval x - sval y) (SFsub prec emax x y).
Proof.
  intros Hx Hy. pose proof Hx as [Vx Fx]. pose proof Hy as [Vy Fy].
  destruct x as [sx| | |sx mx ex]; try discriminate Fx;
  destruct y as [sy| | |sy my ey]; try discriminate Fy.
  - cbn [SFsub sval]. destruct sx, sy; apply Nearest_zero.
  - apply Nearest_exact; [reflexivity|].
    cbn [SFsub sval]. destruct sy; cbn [cond_Zopp negb]; lia.
  - apply Nearest_exact; [reflexivity | cbn [SFsub sval]; lia].
  - pose proof (representable_exponent _ _ _ Hx).
    pose proof (representable_exponent _ _ _ Hy).
    cbn [SFsub]. cbv zeta.
    rewrite <- (aligned_value sx mx ex (Z.min ex ey)) by lia.
    rewrite <- (aligned_value sy my ey (Z.min ex ey)) by lia.
    rewrite <- Z.mul_sub_distr_r.
    apply normalize_nearest. lia.
Qed.

Lemma SFmul_nearest (x y : spec_float) :
  representable x -> representable y ->
  Nearest (2 ^ 1074) (sval x * sval y) (SFmul prec emax x y).
Proof.
  intros Hx Hy. pose proof Hx as [Vx Fx]. pose proof Hy as [Vy Fy].
  destruct x as [sx| | |sx mx ex]; try discriminate Fx;
  destruct y as [sy| | |sy my ey]; try discriminate Fy;
  cbn [SFmul sval]; rewrite ?Z.mul_0_l, ?Z.mul_0_r; try apply Nearest_zero.
  apply valid_canonical in Vx, Vy. destruct Vx as [Cx _], Vy as [Cy _].
  destruct (canonical_bounds _ _ Cx) as (Lx & Ux & Nx).
  destruct (canonical_bounds _ _ Cy) as (Ly & Uy & Ny).
  replace (cond_Zopp sx (Z.pos mx * 2 ^ (ex + 1074)) *
           cond_Zopp sy (Z.pos my * 2 ^ (ey + 1074)))
    with (cond_Zopp (xorb sx sy) (Z.pos (mx * my) * 2 ^ (ex + ey + 2148))).
  - change (2 ^ 1074) with (2 ^ (2148 - 1074)).
    apply round_aux_nearest; [lia|lia|].
    rewrite fexp_eq.
    destruct (Z.eq_dec ex (-1074)) as [Ex|Ex];
      [destruct (Z.eq_dec ey (-1074)) as [Ey|Ey]|]; [lia| |].
    + specialize (Ny ltac:(lia)).
      assert (53 <= Z.pos (digits2_pos (mx * my))).
      { apply (digits_ge _ 52); [lia|]. rewrite Pos2Z.inj_mul. nia. }
      lia.
    + specialize (Nx ltac:(lia)).
      assert (53 <= Z.pos (digits2_pos (mx * my))).
      { apply (digits_ge _ 52); [lia|]. rewrite Pos2Z.inj_mul. nia. }
      lia.
  - rewrite Pos2Z.inj_mul.
    replace (ex + ey + 2148) with ((ex + 1074) + (ey + 1074)) by lia.
    rewrite (pow2_add (ex + 1074) (ey + 1074)) by lia.
    destruct sx, sy; cbn [cond_Zopp xorb]; ring.
Qed.

(** *** Symmetry, bounds and neighbours *)

Lemma sval_opp (f : spec_float) : sval (SFopp f) = - sval f.
Proof.
  destruct f as [s| | |s m e]; cbn [SFopp sval]; try reflexivity.
  destruct s; cbn [negb cond_Zopp]; lia.
Qed.

Lemma representable_opp (f : spec_float) :
  representable f -> representable (SFopp f).
Proof. intros [V F]. destruct f; try discriminate F; split; assumption. Qed.

Lemma SFopp_involutive (f : spec_float) : SFopp (SFopp f) = f.
Proof. destruct f; cbn [SFopp]; rewrite ?negb_involutive; reflexivity. Qed.

Lemma Nearest_opp (c X : Z) (f : spec_float) :
  Nearest c X f -> Nearest c (- X) (SFopp f).
Proof.
  assert (Hb : forall b, c * sval (SFopp b) = - (c * sval b))
    by (intros b; rewrite sval_opp; ring).
  destruct f as [s| s | |s m e]; cbn [SFopp Nearest].
  - intros (H1 & H2 & H3). cbn [sval] in *. split; [lia|]. split; [lia|].
    intros b Rb. specialize (H3 _ (representable_opp b Rb)).
    rewrite Hb in H3. rewrite Z.mul_0_r in *. clear Hb.
    generalize dependent (c * sval b). intros; lia.
  - intros H b Rb. specialize (H _ (representable_opp b Rb)).
    rewrite sval_opp, Z.abs_opp in H. rewrite Z.abs_opp. exact H.
  - trivial.
  - intros (H1 & H2 & H3).
    change (S754_finite (negb s) m e) with (SFopp (S754_finite s m e)).
    rewrite sval_opp. split; [lia|]. split; [lia|].
    intros b Rb. specialize (H3 _ (representable_opp b Rb)).
    rewrite Hb in H3. rewrite Z.mul_opp_r. clear Hb.
    generalize dependent (c * sval b).
    generalize dependent (c * sval (S754_finite s m e)). intros; lia.
Qed.

Lemma Nearest_between (c X : Z) (f a b : spec_float) :
  0 < c -> Nearest c X f -> representable a -> representable b ->
  c * sval a <= X <= c * sval b ->
  finite f = true /\ sval a <= sval f <= sval b.
Proof.
  intros Hc HN Ra Rb HX.
  destruct f as [s| s | |s m e]; cbn [Nearest] in HN.
  - destruct HN as (_ & _ & Hn).
    pose proof (Hn a Ra) as Ha. pose proof (Hn b Rb) as Hb.
    cbn [sval] in *. split; [reflexivity|]. nia.
  - pose proof (HN a Ra) as Ha. pose proof (HN b Rb) as Hb.
    exfalso.
    assert (c * Z.abs (sval a) = Z.abs (c * sval a))
      by (rewrite Z.abs_mul, (Z.abs_eq c); lia).
    assert (c * Z.abs (sval b) = Z.abs (c * sval b))
      by (rewrite Z.abs_mul, (Z.abs_eq c); lia).
    lia.
  - destruct HN.
  - destruct HN as (_ & _ & Hn).
    pose proof (Hn a Ra) as Ha. pose proof (Hn b Rb) as Hb.
    split; [reflexivity|].
    generalize dependent (sval (S754_finite s m e)). intros; nia.
Qed.

Lemma representable_zero : representable (S754_zero false).
Proof. split; reflexivity. Qed.

(** Every multiple of 2^-1074 below 2^-1021 is a number of the format. *)
Lemma small_representable (D : Z) :
  0 <= D < 2 ^ 53 -> exists b, representable b /\ sval b = D.
Proof.
  intros [H0 H1]. destruct D as [|p|p]; [| |lia].
  - exists (S754_zero false). split; [apply representable_zero | reflexivity].
  - exists (S754_finite false p (-1074)). split.
    + split; [|reflexivity]. apply canonical_valid; [|lia].
      unfold canonical. rewrite fexp_eq.
      pose proof (digits_le p 53 ltac:(lia) H1). lia.
    + cbn [sval cond_Zopp]. change (2 ^ (-1074 + 1074)) with 1. lia.
Qed.

Lemma digits_eq (m : positive) (k : Z) :
  0 <= k -> 2 ^ k <= Z.pos m < 2 ^ (k + 1) -> Z.pos (digits2_pos m) = k + 1.
Proof.
  intros Hk [L U].
  pose proof (digits_le m (k + 1) ltac:(lia) U).
  pose proof (digits_ge m k Hk L). lia.
Qed.

(** A representable number is at most [n] steps of the grid of exponent
    [e0] when [n] is a normal mantissa and bounds the numbers of the grid. *)
Lemma below_grid_point (n : Z) (b : spec_float) (e0 : Z) :
  -1074 <= e0 -> representable b -> 2 ^ 52 <= n ->
  (forall mb eb, b = S754_finite false mb eb -> e0 <= eb ->
     Z.pos mb * 2 ^ (eb - e0) <= n) ->
  sval b <= n * 2 ^ (e0 + 1074).
Proof.
  intros He0 [Vb Fb] Hn Hgrid.
  pose proof (pow2_pos (e0 + 1074) ltac:(lia)) as P0.
  destruct b as [sb| | |sb mb eb]; try discriminate Fb; cbn [sval]; [nia|].
  apply valid_canonical in Vb. destruct Vb as [Cb _].
  destruct (canonical_bounds _ _ Cb) as (Lb & Ub & _).
  pose proof (pow2_pos (eb + 1074) ltac:(lia)) as Pb.
  destruct sb; cbn [cond_Zopp]; [nia|].
  destruct (Z_le_gt_dec e0 eb) as [Le|Gt].
  - specialize (Hgrid mb eb eq_refl Le).
    replace (eb + 1074) with ((eb - e0) + (e0 + 1074)) by lia.
    rewrite (pow2_add (eb - e0) (e0 + 1074)) by lia.
    rewrite Z.mul_assoc. apply Z.mul_le_mono_nonneg_r; lia.
  - clear Hgrid.
    assert (H : 2 ^ (eb + 1074 + 1) <= 2 ^ (e0 + 1074)) by (apply pow2_le; lia).
    rewrite (pow2_add (eb + 1074) 1) in H by lia.
    change (2 ^ 1) with 2 in H.
    change (2 ^ 53) with (2 * 2 ^ 52) in Ub.
    generalize dependent (2 ^ (eb + 1074)).
    generalize dependent (2 ^ (e0 + 1074)).
    generalize dependent (2 ^ 52). intros c Hn Ub a Ha t Ht Hlt.
    assert (Z.pos mb * t <= 2 * c * t)
      by (apply Z.mul_le_mono_nonneg_r; lia).
    assert (c * (t * 2) <= c * a) by (apply Z.mul_le_mono_nonneg_l; lia).
    assert (c * a <= n * a) by (apply Z.mul_le_mono_nonneg_r; lia).
    lia.
Qed.

(** The number of the format just below a positive normal number. *)
Lemma pred_exists (d : spec_float) :
  representable d -> 2 ^ 53 <= sval d ->
  exists d', representable d' /\ 0 <= sval d' < sval d /\
    (forall b, representable b -> sval b < sval d -> sval b <= sval d') /\
    2 ^ 52 * (sval d - sval d') < sval d.
Proof.
  intros [V F] Hd.
  destruct d as [s| | |s M E]; try discriminate F; [cbn in Hd; lia|].
  apply valid_canonical in V. destruct V as [C HE].
  destruct (canonical_bounds _ _ C) as (L & U & N).
  pose proof (pow2_pos (E + 1074) ltac:(lia)) as PQ.
  cbn [sval] in Hd |- *.
  destruct s; cbn [cond_Zopp] in Hd |- *; [nia|].
  assert (HE1 : -1074 < E).
  { destruct (Z.eq_dec E (-1074)) as [->|]; [|lia].
    change (2 ^ (-1074 + 1074)) with 1 in Hd. lia. }
  specialize (N HE1).
  destruct (Z.eq_dec (Z.pos M) (2 ^ 52)) as [EM|NM].
  - (* the least mantissa: the number below has the exponent below *)
    exists (S754_finite false (2 ^ 53 - 1) (E - 1)).
    assert (Hq : 2 ^ (E + 1074) = 2 * 2 ^ (E - 1 + 1074)).
    { replace (E + 1074) with (1 + (E - 1 + 1074)) by lia.
      rewrite (pow2_add 1 (E - 1 + 1074)) by lia. reflexivity. }
    pose proof (pow2_pos (E - 1 + 1074) ltac:(lia)) as PP.
    cbn [sval cond_Zopp]. rewrite EM, Hq.
    change (Z.pos (2 ^ 53 - 1)) with (2 ^ 53 - 1).
    change (2 ^ 53) with (2 * 2 ^ 52).
    split; [|split; [|split]].
    + split; [|reflexivity]. apply canonical_valid; [|lia].
      unfold canonical. change (Z.pos (digits2_pos (2 ^ 53 - 1))) with 53.
      rewrite fexp_eq. lia.
    + generalize dependent (2 ^ 52). intros; nia.
    + intros b Rb Hb.
      apply (below_grid_point _ b (E - 1)); [lia|assumption|lia|].
      intros mb eb -> Heb.
      destruct Rb as [Vb _]. apply valid_canonical in Vb.
      destruct Vb as [Cb _].
      destruct (canonical_bounds _ _ Cb) as (Lb & Ub & Nb).
      destruct (Z.eq_dec eb (E - 1)) as [->|Ne].
      * rewrite Z.sub_diag. change (2 ^ 0) with 1.
        change (2 ^ 53) with (2 * 2 ^ 52) in Ub. lia.
      * exfalso. specialize (Nb ltac:(lia)).
        cbn [sval cond_Zopp] in Hb.
        assert (H : 2 ^ (E + 1074) <= 2 ^ (eb + 1074)) by (apply pow2_le; lia).
        rewrite Hq in H.
        generalize dependent (2 ^ (eb + 1074)).
        generalize dependent (2 ^ (E - 1 + 1074)).
        generalize dependent (2 ^ 52). intros c; intros.
        assert (c * (2 * z) <= c * z0)
          by (apply Z.mul_le_mono_nonneg_l; lia).
        assert (c * z0 <= Z.pos mb * z0)
          by (apply Z.mul_le_mono_nonneg_r; lia).
        lia.
    + generalize dependent (2 ^ 52). intros; nia.
  - (* a larger mantissa: one less, same exponent *)
    assert (HM : 2 ^ 52 < Z.pos M) by lia.
    exists (S754_finite false (Pos.pred M) E).
    assert (HP : Z.pos (Pos.pred M) = Z.pos M - 1).
    { rewrite Pos2Z.inj_pred; [lia|]. intros ->. cbn in HM. lia. }
    cbn [sval cond_Zopp]. rewrite HP.
    split; [|split; [|split]].
    + split; [|reflexivity]. apply canonical_valid; [|lia].
      unfold canonical.
      rewrite (digits_eq (Pos.pred M) 52)
        by (rewrite ?HP; change (52 + 1) with 53; lia).
      rewrite fexp_eq. lia.
    + nia.
    + intros b Rb Hb.
      apply (below_grid_point _ b E); [lia|assumption|lia|].
      intros mb eb -> Heb. cbn [sval cond_Zopp] in Hb.
      replace (eb + 1074) with ((eb - E) + (E + 1074)) in Hb by lia.
      rewrite (pow2_add (eb - E) (E + 1074)) in Hb by lia.
      rewrite Z.mul_assoc in Hb.
      apply Z.mul_lt_mono_pos_r in Hb; lia.
    + generalize dependent (2 ^ 52). intros; nia.
Qed.

(** *** The product with a number below one *)

Lemma Nearest_sign (c X : Z) (f : spec_float) :
  Nearest c X f -> finite f = true ->
  (0 <= X -> 0 <= sval f) /\ (X <= 0 -> sval f <= 0).
Proof.
  intros HN F. destruct f; try discriminate F; cbn [Nearest] in HN;
    destruct HN as (H1 & H2 & _); split; assumption.
Qed.

Lemma Nearest_closer (c X : Z) (f b : spec_float) :
  Nearest c X f -> finite f = true -> representable b ->
  Z.abs (c * sval f - X) <= Z.abs (c * sval b - X).
Proof.
  intros HN F Rb. destruct f; try discriminate F; cbn [Nearest] in HN;
    destruct HN as (_ & _ & H); apply H; exact Rb.
Qed.

(** A number below one is at most [1 - 2^-53]. *)
Lemma below_one (r : spec_float) :
  representable r -> sval r < 2 ^ 1074 -> sval r <= 2 ^ 1074 - 2 ^ 1021.
Proof.
  intros [V F] H.
  destruct r as [s| | |s m e]; try discriminate F; [cbn; lia|].
  apply valid_canonical in V. destruct V as [C _].
  destruct (canonical_bounds _ _ C) as (L & U & N).
  cbn [sval] in H |- *.
  pose proof (pow2_pos (e + 1074) ltac:(lia)) as P.
  destruct s; cbn [cond_Zopp] in H |- *; [nia|].
  destruct (Z_le_gt_dec e (-53)) as [Le|Gt].
  - assert (H1 : 2 ^ (e + 1074) <= 2 ^ 1021) by (apply pow2_le; lia).
    assert (A1 : Z.pos m * 2 ^ (e + 1074) <= (2 ^ 53 - 1) * 2 ^ (e + 1074))
      by (apply Z.mul_le_mono_nonneg_r; lia).
    assert (A2 : (2 ^ 53 - 1) * 2 ^ (e + 1074) <= (2 ^ 53 - 1) * 2 ^ 1021)
      by (apply Z.mul_le_mono_nonneg_l; lia).
    change (2 ^ 1074) with ((2 ^ 53 - 1) * 2 ^ 1021 + 2 ^ 1021).
    lia.
  - exfalso. specialize (N ltac:(lia)).
    assert (H1 : 2 ^ 1022 <= 2 ^ (e + 1074)) by (apply pow2_le; lia).
    assert (A1 : 2 ^ 52 * 2 ^ (e + 1074) <= Z.pos m * 2 ^ (e + 1074))
      by (apply Z.mul_le_mono_nonneg_r; lia).
    assert (A2 : 2 ^ 52 * 2 ^ 1022 <= 2 ^ 52 * 2 ^ (e + 1074))
      by (apply Z.mul_le_mono_nonneg_l; lia).
    change (2 ^ 1074) with (2 ^ 52 * 2 ^ 1022) in H.
    lia.
Qed.

(** The rounded product of a number of [0, 1) and of the rounded width
    of a range stays within the exact width. *)
Lemma product_between (r d p : spec_float) (D : Z) :
  representable r -> representable d -> valid_binary p = true ->
  0 <= sval r < 2 ^ 1074 -> 0 <= D ->
  Nearest 1 D d -> Nearest (2 ^ 1074) (sval r * sval d) p ->
  finite p = true /\ 0 <= sval p <= D.
Proof.
  intros Rr Rd Vp [Hr0 Hr1] HD Nd Np.
  pose proof (below_one r Rr Hr1) as Hr.
  destruct (Nearest_sign _ _ _ Nd (proj2 Rd)) as [Hd0 _].
  specialize (Hd0 HD).
  assert (Hc : 0 < 2 ^ 1074) by (apply pow2_pos; lia).
  assert (Hp : finite p = true /\ sval (S754_zero false) <= sval p <= sval d).
  { apply (Nearest_between (2 ^ 1074) (sval r * sval d));
      try assumption; [apply representable_zero|].
    cbn [sval]. generalize dependent (2 ^ 1074). intros; nia. }
  destruct Hp as [Fp [Hp0 Hp1]]. cbn [sval] in Hp0.
  split; [exact Fp|]. split; [exact Hp0|].
  destruct (Z_le_gt_dec (sval d) D) as [Le|Gt]; [lia|].
  (* the width was rounded up: it is a normal number *)
  assert (HD53 : 2 ^ 53 <= D).
  { destruct (Z_le_gt_dec (2 ^ 53) D) as [|Small]; [assumption|].
    destruct (small_representable D ltac:(lia)) as (b & Rb & Eb).
    pose proof (Nearest_closer _ _ _ _ Nd (proj2 Rd) Rb) as Hb.
    rewrite Eb in Hb. lia. }
  destruct (pred_exists d Rd ltac:(lia))
    as (d' & Rd' & [Hd'0 Hd'1] & Hgap & Hstep).
  assert (Hd'D : sval d' <= D).
  { pose proof (Nearest_closer _ _ _ _ Nd (proj2 Rd) Rd') as Hb. lia. }
  assert (Hne : sval p <> sval d).
  { intros Epd.
    pose proof (Nearest_closer _ _ _ _ Np Fp Rd') as Hb.
    rewrite Epd in Hb.
    assert (A : sval r * sval d <= (2 ^ 1074 - 2 ^ 1021) * sval d)
      by (apply Z.mul_le_mono_nonneg_r; lia).
    generalize dependent (sval r * sval d). clear Hgap.
    generalize dependent (sval d'). generalize dependent (sval d).
    intros. lia. }
  assert (sval p < sval d) by lia.
  specialize (Hgap p (conj Vp Fp)).
  lia.
Qed.

(** *** The three roundings of the sampler *)

Lemma valid_opp (f : spec_float) : valid_binary (SFopp f) = valid_binary f.
Proof. destruct f; reflexivity. Qed.

Lemma finite_opp (f : spec_float) : finite (SFopp f) = finite f.
Proof. destruct f; reflexivity. Qed.

(** The three roundings of [r * (hi - lo) + lo] keep the result between
    the two ends of the range, whichever is the larger. *)
Lemma sampler_between (lo hi r : spec_float) :
  representable lo -> representable hi -> representable r ->
  0 <= sval r < 2 ^ 1074 ->
  representable (SFsub prec emax hi lo) ->
  valid_binary (SFmul prec emax r (SFsub prec emax hi lo)) = true ->
  let v := SFadd prec emax (SFmul prec emax r (SFsub prec emax hi lo)) lo in
  finite v = true /\
  (sval lo <= sval hi -> sval lo <= sval v <= sval hi) /\
  (sval hi <= sval lo -> sval hi <= sval v <= sval lo).
Proof.
  intros Rlo Rhi Rr Hr Rd Vp v. subst v.
  pose proof (SFsub_nearest hi lo Rhi Rlo) as Nd.
  pose proof (SFmul_nearest r _ Rr Rd) as Np.
  set (d := SFsub prec emax hi lo) in *.
  set (p := SFmul prec emax r d) in *.
  destruct (Z_le_gt_dec (sval lo) (sval hi)) as [Le|Gt].
  - destruct (product_between r d p (sval hi - sval lo))
      as (Fp & Hp0 & Hp1); try assumption; [lia|].
    pose proof (SFadd_nearest p lo (conj Vp Fp) Rlo) as Nv.
    destruct (Nearest_between 1 _ _ lo hi ltac:(lia) Nv Rlo Rhi ltac:(lia))
      as [Fv Hv].
    split; [exact Fv|]. split; intros; lia.
  - destruct (product_between r (SFopp d) (SFopp p) (- (sval hi - sval lo)))
      as (Fp & Hp0 & Hp1); try assumption.
    + apply representable_opp; assumption.
    + rewrite valid_opp; assumption.
    + lia.
    + apply Nearest_opp; assumption.
    + rewrite sval_opp, Z.mul_opp_r. apply Nearest_opp; assumption.
    + rewrite finite_opp in Fp. rewrite sval_opp in Hp0, Hp1.
      pose proof (SFadd_nearest p lo (conj Vp Fp) Rlo) as Nv.
      destruct (Nearest_between 1 _ _ hi lo ltac:(lia) Nv Rhi Rlo ltac:(lia))
        as [Fv Hv].
      split; [exact Fv|]. split; intros; lia.
Qed.

(** *** Primitive floats *)

Lemma SFcompare_refl (s : bool) (m : positive) (e : Z) :
  SFcompare (S754_finite s m e) (S754_finite s m e) = Some Eq.
Proof.
  cbn [SFcompare]. rewrite Z.compare_refl, Pos.compare_cont_refl.
  destruct s; reflexivity.
Qed.

Lemma is_finite_spec (x : float) : is_finite x = finite (Prim2SF x).
Proof.
  unfold is_finite, is_nan, is_infinity.
  rewrite !FloatAxioms.eqb_spec, FloatAxioms.abs_spec.
  change (Prim2SF infinity) with (S754_infinity false).
  destruct (Prim2SF x) as [s|s| |s m e]; cbn [SFabs finite]; unfold SFeqb.
  - destruct s; reflexivity.
  - destruct s; reflexivity.
  - reflexivity.
  - rewrite SFcompare_refl. reflexivity.
Qed.

Lemma is_finite_representable (x : float) :
  is_finite x = true -> representable (Prim2SF x).
Proof.
  intros H. split; [apply FloatAxioms.Prim2SF_valid|].
  rewrite <- is_finite_spec. exact H.
Qed.

Lemma leb_value (x y : float) :
  is_finite x = true -> is_finite y = true ->
  (x <=? y)%float = (value x <=? value y).
Proof.
  intros Hx Hy. rewrite FloatAxioms.leb_spec. unfold SFleb, value.
  rewrite SFcompare_sval by (apply is_finite_representable; assumption).
  unfold Z.leb. destruct (_ ?= _); reflexivity.
Qed.

Lemma ltb_value (x y : float) :
  is_finite x = true -> is_finite y = true ->
  (x <? y)%float = (value x <? value y).
Proof.
  intros Hx Hy. rewrite FloatAxioms.ltb_spec. unfold SFltb, value.
  rewrite SFcompare_sval by (apply is_finite_representable; assumption).
  unfold Z.ltb. destruct (_ ?= _); reflexivity.
Qed.

Lemma eqb_value (x y : float) :
  is_finite x = true -> is_finite y = true ->
  (x =? y)%float = (value x =? value y).
Proof.
  intros Hx Hy. rewrite FloatAxioms.eqb_spec. unfold SFeqb, value.
  rewrite SFcompare_sval by (apply is_finite_representable; assumption).
  unfold Z.eqb at 1. 
  destruct (Z.compare_spec (sval (Prim2SF x)) (sval (Prim2SF y))) as [E|L|G];
    symmetry; [apply Z.eqb_eq | apply Z.eqb_neq | apply Z.eqb_neq]; lia.
Qed.

(** A number of [0, 1), as Math.random returns. *)
Lemma unit_interval (r : float) :
  (0 <=? r)%float = true -> (r <? 1)%float = true ->
  is_finite r = true /\ 0 <= value r < 2 ^ 1074.
Proof.
  intros H0 H1.
  assert (F : is_finite r = true).
  { rewrite is_finite_spec.
    rewrite FloatAxioms.leb_spec in H0. rewrite FloatAxioms.ltb_spec in H1.
    change (Prim2SF 0) with (S754_zero false) in H0.
    change (Prim2SF 1) with (S754_finite false (2 ^ 52) (-52)) in H1.
    destruct (Prim2SF r) as [s|s| |s m e]; try reflexivity.
    - destruct s; discriminate.
    - discriminate. }
  split; [exact F|].
  rewrite leb_value in H0 by (reflexivity || assumption).
  rewrite ltb_value in H1 by (reflexivity || assumption).
  apply Z.leb_le in H0. apply Z.ltb_lt in H1.
  change (value 0) with 0 in H0. change (value 1) with (2 ^ 1074) in H1.
  lia.
Qed.

Lemma sampler_float (lo hi r : float) :
  (0 <=? r)%float = true -> (r <? 1)%float = true ->
  is_finite lo = true -> is_finite hi = true ->
  is_finite (hi - lo) = true ->
  let v := (r * (hi - lo) + lo)%float in
  is_finite v = true /\
  (value lo <= value hi -> value lo <= value v <= value hi) /\
  (value hi <= value lo -> value hi <= value v <= value lo).
Proof.
  intros H0 H1 Flo Fhi Fd v. subst v.
  destruct (unit_interval r H0 H1) as [Fr Hr].
  unfold value in *. rewrite is_finite_spec.
  pose proof (FloatAxioms.Prim2SF_valid (r * (hi - lo))) as Vp.
  apply is_finite_representable in Fd.
  rewrite FloatAxioms.add_spec, FloatAxioms.mul_spec.
  rewrite FloatAxioms.mul_spec in Vp.
  rewrite FloatAxioms.sub_spec in *.
  apply sampler_between; try assumption;
    apply is_finite_representable; assumption.
Qed.

(** ** The sampler *)

(** What a comparison of doubles says about the values of the two ends of a
    range and of a sample. *)
Lemma sampler_value (Math_random : nat -> float) (lo hi : float) (i : nat) :
  (0 <=? Math_random i)%float = true ->
  (Math_random i <? 1)%float = true ->
  is_finite lo = true -> is_finite hi = true ->
  is_finite (hi - lo) = true ->
  let v := fst (getRandomValue Math_random lo hi i) in
  is_finite v = true /\
  (value lo <= value hi -> value lo <= value v <= value hi) /\
  (value hi <= value lo -> value hi <= value v <= value lo).
Proof.
  intros H0 H1 Flo Fhi Fd.
  exact (sampler_float lo hi (Math_random i) H0 H1 Flo Fhi Fd).
Qed.

(** C2 (as amended).  When [Math.random()] returns a number of [0, 1), as it
    must, and the two ends [lo <= hi] of the range and their difference are
    finite, [getRandomValue lo hi] draws one random number and returns a
    finite [v] with [lo <= v <= hi]: none of the three roundings of
    [random * (hi - lo) + lo] takes it out of the range.  When [lo == hi]
    it returns that constant.  The upper end itself can be returned. *)
Theorem sampler_within_range (Math_random : nat -> float) (lo hi : float)
    (i : nat) :
  (0 <=? Math_random i)%float = true ->
  (Math_random i <? 1)%float = true ->
  is_finite lo = true -> is_finite hi = true ->
  is_finite (hi - lo) = true ->
  (lo <=? hi)%float = true ->
  let v := fst (getRandomValue Math_random lo hi i) in
  snd (getRandomValue Math_random lo hi i) = S i /\
  is_finite v = true /\
  (lo <=? v)%float = true /\ (v <=? hi)%float = true /\
  ((lo =? hi)%float = true -> (v =? lo)%float = true).
Proof.
  intros H0 H1 Flo Fhi Fd Hle v.
  destruct (sampler_value Math_random lo hi i H0 H1 Flo Fhi Fd)
    as (Fv & Hin & _).
  fold v in Fv, Hin.
  rewrite leb_value in Hle by assumption. apply Z.leb_le in Hle.
  specialize (Hin Hle).
  split; [reflexivity|]. split; [exact Fv|].
  rewrite !leb_value by assumption.
  split; [apply Z.leb_le; lia|]. split; [apply Z.leb_le; lia|].
  rewrite !eqb_value by assumption.
  intros He. apply Z.eqb_eq in He. apply Z.eqb_eq. lia.
Qed.

Lemma sampler_within_range_witness :
  let v := fst (getRandomValue Example.half 1 2 0%nat) in
  snd (getRandomValue Example.half 1 2 0%nat) = 1%nat /\
  is_finite v = true /\
  (1 <=? v)%float = true /\ (v <=? 2)%float = true /\
  ((1 =? 2)%float = true -> (v =? 1)%float = true).
Proof.
  exact (sampler_within_range Example.half 1 2 0%nat
           eq_refl eq_refl eq_refl eq_refl eq_refl eq_refl).
Defined.

(** The sample is not always below the upper end of the range: with the
    range [1, 2] and a random number of [1 - 2^-53] the product is rounded
    up to 1 and the sample is 2; with the range [2^53, 2^53 + 2] and a
    random number of three quarters the sum is rounded up to the upper
    end. *)
Lemma sampler_reaches_max :
  (0 <=? Example.almostOne 0)%float = true /\
  (Example.almostOne 0 <? 1)%float = true /\
  (1 <? 2)%float = true /\
  (fst (getRandomValue Example.almostOne 1 2 0%nat) <? 2)%float = false /\
  (Example.big <? Example.bigNext)%float = true /\
  (fst (getRandomValue Example.threeQuarters Example.big Example.bigNext
          0%nat) <? Example.bigNext)%float = false.
Proof. vm_compute. repeat split. Qed.

(** C10 (as amended).  When the ends of the range are inverted, [hi < lo],
    and both and their difference are finite, [getRandomValue lo hi]
    returns for a random number of [0, 1) a finite [v] of the closed
    interval between them: [hi <= v <= lo].  Both ends can be returned. *)
Theorem sampler_inverted_range (Math_random : nat -> float) (lo hi : float)
    (i : nat) :
  (0 <=? Math_random i)%float = true ->
  (Math_random i <? 1)%float = true ->
  is_finite lo = true -> is_finite hi = true ->
  is_finite (hi - lo) = true ->
  (hi <? lo)%float = true ->
  let v := fst (getRandomValue Math_random lo hi i) in
  is_finite v = true /\ (hi <=? v)%float = true /\ (v <=? lo)%float = true.
Proof.
  intros H0 H1 Flo Fhi Fd Hlt v.
  destruct (sampler_value Math_random lo hi i H0 H1 Flo Fhi Fd)
    as (Fv & _ & Hin).
  fold v in Fv, Hin.
  rewrite ltb_value in Hlt by assumption. apply Z.ltb_lt in Hlt.
  specialize (Hin ltac:(lia)).
  split; [exact Fv|].
  rewrite !leb_value by assumption.
  split; apply Z.leb_le; lia.
Qed.

Lemma sampler_inverted_range_witness :
  let v := fst (getRandomValue Example.half 2 1 0%nat) in
  is_finite v = true /\ (1 <=? v)%float = true /\ (v <=? 2)%float = true.
Proof.
  exact (sampler_inverted_range Example.half 2 1 0%nat
           eq_refl eq_refl eq_refl eq_refl eq_refl eq_refl).
Defined.

(** The interval of an inverted range is not open at its lower end: with
    [lo = 2], [hi = 1] and a random number of [1 - 2^-53] the sample is 1;
    with [lo = 2^53 + 2], [hi = 2^53] and a random number of three quarters
    it is [2^53]. *)
Lemma sampler_inverted_reaches_max :
  (0 <=? Example.almostOne 0)%float = true /\
  (Example.almostOne 0 <? 1)%float = true /\
  (1 <? 2)%float = true /\
  (1 <? fst (getRandomValue Example.almostOne 2 1 0%nat))%float = false /\
  (Example.big <? Example.bigNext)%float = true /\
  (Example.big <? fst (getRandomValue Example.threeQuarters Example.bigNext
                         Example.big 0%nat))%float = false.
Proof. vm_compute. repeat split. Qed.

(** * Further properties *)

Local Close Scope Z_scope.

(** ** The audit list and the random numbers of [buildFilterChain] *)

Section AuditList.

Lemma Grows_emit (c : Chain) (k : Kind) (f a : string) (i d : nat) :
  Grows 1 d c i (emit c k f a, (i + d)%nat).
Proof.
  unfold Grows, emit, push. cbn. rewrite !length_app. cbn. lia.
Qed.

Lemma Grows_skip (c : Chain) (i d : nat) : Grows 0 d c i (c, (i + d)%nat).
Proof. unfold Grows. cbn. lia. Qed.

Section Effects.

Variable Math_random : nat -> float.
Variable toString_other : float -> string.
Variable params : VideoProcessingParameters.

Local Abbreviation run block c i :=
  (block Math_random toString_other params c i).

Lemma sample_draws (p : Range.t) (i : nat) :
  snd (sample Math_random p i) = S i.
Proof. reflexivity. Qed.

Lemma noise_block_grows (c : Chain) (i : nat) :
  let b := Nat.b2n (Range.enabled (noise params)) in
  Grows b b c i (run noise_block c i).
Proof.
  unfold noise_block. destruct (Range.enabled (noise params)); cbn [Nat.b2n].
  - rewrite bind_run. unfold ret. rewrite sample_draws.
    replace (S i) with (i + 1)%nat by lia. apply Grows_emit.
  - unfold ret. replace i with (i + 0)%nat at 2 by lia. apply Grows_skip.
Qed.

Lemma rotation_block_grows (c : Chain) (i : nat) :
  let b := Nat.b2n (Range.enabled (rotation params)) in
  Grows b b c i (run rotation_block c i).
Proof.
  unfold rotation_block. destruct (Range.enabled (rotation params));
    cbn [Nat.b2n].
  - rewrite bind_run. unfold ret. rewrite sample_draws.
    replace (S i) with (i + 1)%nat by lia. apply Grows_emit.
  - unfold ret. replace i with (i + 0)%nat at 2 by lia. apply Grows_skip.
Qed.

Lemma flip_block_grows (c : Chain) (i : nat) :
  Grows (Nat.b2n (Toggle.enabled (flipHorizontally params))) 0 c i
    (flip_block params c i).
Proof.
  unfold flip_block. destruct (Toggle.enabled (flipHorizontally params));
    cbn [Nat.b2n]; unfold ret.
  - replace i with (i + 0)%nat at 2 by lia. apply Grows_emit.
  - replace i with (i + 0)%nat at 2 by lia. apply Grows_skip.
Qed.

Lemma zoom_block_grows (c : Chain) (i : nat) :
  exists n, (n <= Nat.b2n (Range.enabled (zoom params)))%nat /\
    Grows n (Nat.b2n (Range.enabled (zoom params))) c i (run zoom_block c i).
Proof.
  unfold zoom_block. destruct (Range.enabled (zoom params)); cbn [Nat.b2n].
  - rewrite bind_run, sample_draws.
    destruct (0 <? fst (sample Math_random (zoom params) i))%float.
    + exists 1%nat. split; [lia|]. unfold ret.
      replace (S i) with (i + 1)%nat by lia. apply Grows_emit.
    + exists 0%nat. split; [lia|]. unfold ret.
      replace (S i) with (i + 1)%nat by lia. apply Grows_skip.
  - exists 0%nat. split; [lia|]. unfold ret.
    replace i with (i + 0)%nat at 2 by lia. apply Grows_skip.
Qed.

Lemma pixelShift_block_grows (c : Chain) (i : nat) :
  exists n, (n <= Nat.b2n (Range.enabled (pixelShift params)))%nat /\
    Grows n (Nat.b2n (Range.enabled (pixelShift params))) c i
      (run pixelShift_block c i).
Proof.
  unfold pixelShift_block.
  destruct (Range.enabled (pixelShift params)); cbn [Nat.b2n].
  - rewrite bind_run, sample_draws.
    destruct (0 <? fst (sample Math_random (pixelShift params) i))%float.
    + exists 1%nat. split; [lia|]. unfold ret.
      replace (S i) with (i + 1)%nat by lia. apply Grows_emit.
    + exists 0%nat. split; [lia|]. unfold ret.
      replace (S i) with (i + 1)%nat by lia. apply Grows_skip.
  - exists 0%nat. split; [lia|]. unfold ret.
    replace i with (i + 0)%nat at 2 by lia. apply Grows_skip.
Qed.

Lemma vignette_block_grows (c : Chain) (i : nat) :
  exists n, (n <= Nat.b2n (Range.enabled (vignette params)))%nat /\
    Grows n (Nat.b2n (Range.enabled (vignette params))) c i
      (run vignette_block c i).
Proof.
  unfold vignette_block.
  destruct (Range.enabled (vignette params)); cbn [Nat.b2n].
  - rewrite bind_run, sample_draws.
    destruct (0 <? fst (sample Math_random (vignette params) i))%float.
    + exists 1%nat. split; [lia|]. unfold ret.
      replace (S i) with (i + 1)%nat by lia. apply Grows_emit.
    + exists 0%nat. split; [lia|]. unfold ret.
      replace (S i) with (i + 1)%nat by lia. apply Grows_skip.
  - exists 0%nat. split; [lia|]. unfold ret.
    replace i with (i + 0)%nat at 2 by lia. apply Grows_skip.
Qed.

Lemma waveformShift_block_grows (c : Chain) (i : nat) :
  exists n, (n <= Nat.b2n (Range.enabled (waveformShift params)))%nat /\
    Grows n (Nat.b2n (Range.enabled (waveformShift params))) c i
      (run waveformShift_block c i).
Proof.
  unfold waveformShift_block.
  destruct (Range.enabled (waveformShift params)); cbn [Nat.b2n].
  - rewrite bind_run, sample_draws.
    destruct (0 <? fst (sample Math_random (waveformShift params) i))%float.
    + exists 1%nat. split; [lia|]. unfold ret.
      replace (S i) with (i + 1)%nat by lia. apply Grows_emit.
    + exists 0%nat. split; [lia|]. unfold ret.
      replace (S i) with (i + 1)%nat by lia. apply Grows_skip.
  - exists 0%nat. split; [lia|]. unfold ret.
    replace i with (i + 0)%nat at 2 by lia. apply Grows_skip.
Qed.

Lemma randomPixelSize_block_grows (c : Chain) (i : nat) :
  let b := Nat.b2n (Toggle.enabled (randomPixelSize params)) in
  Grows b b c i (run randomPixelSize_block c i).
Proof.
  unfold randomPixelSize_block.
  destruct (Toggle.enabled (randomPixelSize params)); cbn [Nat.b2n].
  - rewrite bind_run. unfold ret, random. cbn [fst snd].
    replace (S i) with (i + 1)%nat by lia. apply Grows_emit.
  - unfold ret. replace i with (i + 0)%nat at 2 by lia. apply Grows_skip.
Qed.

Lemma speed_block_grows (c : Chain) (i : nat) :
  let b := Nat.b2n (Range.enabled (speed params)) in
  Grows b b c i (run speed_block c i).
Proof.
  unfold speed_block. destruct (Range.enabled (speed params)); cbn [Nat.b2n].
  - rewrite bind_run. unfold ret. rewrite sample_draws.
    replace (S i) with (i + 1)%nat by lia. apply Grows_emit.
  - unfold ret. replace i with (i + 0)%nat at 2 by lia. apply Grows_skip.
Qed.

Lemma framerate_block_grows (c : Chain) (i : nat) :
  let b := Nat.b2n (Range.enabled (framerate params)) in
  Grows b b c i (run framerate_block c i).
Proof.
  unfold framerate_block. destruct (Range.enabled (framerate params));
    cbn [Nat.b2n].
  - rewrite bind_run. unfold ret. rewrite sample_draws.
    replace (S i) with (i + 1)%nat by lia. apply Grows_emit.
  - unfold ret. replace i with (i + 0)%nat at 2 by lia. apply Grows_skip.
Qed.

(** The colour block pushes one audit string per enabled colour parameter
    and at most one directive. *)
Lemma color_block_grows (c : Chain) (i : nat) :
  let r := run color_block c i in
  List.length (filters (fst r)) =
    (List.length (filters c) + Nat.b2n (0 <? enabledColours params))%nat /\
  List.length (appliedFilters (fst r)) =
    (List.length (appliedFilters c) + enabledColours params)%nat /\
  snd r = (i + enabledColours params)%nat.
Proof.
  unfold color_block, color_param, enabledColours, sample, getRandomValue,
    random.
  rewrite !bind_run.
  destruct (Range.enabled (saturation params)),
           (Range.enabled (contrast params)),
           (Range.enabled (brightness params)),
           (Range.enabled (gamma params)); cbn;
    unfold push; rewrite ?length_app; cbn; repeat split; lia.
Qed.

Lemma Grows_then (n1 d1 n2 d2 : nat) (c c1 : Chain) (i i1 : nat)
    (r : Chain * nat) :
  Grows n1 d1 c i (c1, i1) -> Grows n2 d2 c1 i1 r ->
  Grows (n1 + n2) (d1 + d2) c i r.
Proof.
  unfold Grows. cbn [fst snd]. intros (F1 & A1 & S1) (F2 & A2 & S2).
  repeat split; lia.
Qed.

End Effects.

(** X1.  The audit list of [buildFilterChain] has one entry per directive,
    except for the colour block: it audits every enabled colour parameter
    but pushes a single combined directive.  The two lists have the same
    length exactly when at most one colour parameter is enabled.  The
    builder calls [Math.random] once for every enabled parameter it reads
    (none for the flip), whether or not the block then pushes a
    directive. *)
Theorem audit_list_and_draws (Math_random : nat -> float)
    (toString_other : float -> string) (params : VideoProcessingParameters)
    (i : nat) :
  let r := buildFilterChain Math_random toString_other params i in
  (List.length (appliedFilters (fst r))
   + Nat.b2n (0 <? enabledColours params) =
   List.length (videoFilters (fst r)) + enabledColours params)%nat /\
  (List.length (appliedFilters (fst r)) = List.length (videoFilters (fst r))
   <-> (enabledColours params <= 1)%nat) /\
  snd r = (i + chainDraws params)%nat.
Proof.
  cbv zeta. unfold videoFilters. rewrite length_map.
  unfold buildFilterChain. rewrite !bind_run.
  pose proof (color_block_grows Math_random toString_other params
                {| filters := []; appliedFilters := [] |} i) as H0.
  cbv zeta in H0. cbn [filters appliedFilters List.length] in H0.
  destruct (color_block Math_random toString_other params
              {| filters := []; appliedFilters := [] |} i) as [c0 i0].
  cbn [fst snd] in *. destruct H0 as (F0 & A0 & S0).
  pose proof (noise_block_grows Math_random toString_other params c0 i0) as H1.
  cbv zeta in H1.
  destruct (noise_block Math_random toString_other params c0 i0) as [c1 i1].
  cbn [fst snd] in *.
  pose proof (rotation_block_grows Math_random toString_other params c1 i1)
    as H2. cbv zeta in H2.
  destruct (rotation_block Math_random toString_other params c1 i1)
    as [c2 i2]. cbn [fst snd] in *.
  pose proof (flip_block_grows params c2 i2) as H3.
  destruct (flip_block params c2 i2) as [c3 i3]. cbn [fst snd] in *.
  destruct (zoom_block_grows Math_random toString_other params c3 i3)
    as (n4 & L4 & H4).
  destruct (zoom_block Math_random toString_other params c3 i3) as [c4 i4].
  cbn [fst snd] in *.
  destruct (pixelShift_block_grows Math_random toString_other params c4 i4)
    as (n5 & L5 & H5).
  destruct (pixelShift_block Math_random toString_other params c4 i4)
    as [c5 i5]. cbn [fst snd] in *.
  destruct (vignette_block_grows Math_random toString_other params c5 i5)
    as (n6 & L6 & H6).
  destruct (vignette_block Math_random toString_other params c5 i5)
    as [c6 i6]. cbn [fst snd] in *.
  destruct (waveformShift_block_grows Math_random toString_other params c6 i6)
    as (n7 & L7 & H7).
  destruct (waveformShift_block Math_random toString_other params c6 i6)
    as [c7 i7]. cbn [fst snd] in *.
  pose proof (randomPixelSize_block_grows Math_random toString_other params
                c7 i7) as H8. cbv zeta in H8.
  destruct (randomPixelSize_block Math_random toString_other params c7 i7)
    as [c8 i8]. cbn [fst snd] in *.
  pose proof (speed_block_grows Math_random toString_other params c8 i8)
    as H9. cbv zeta in H9.
  destruct (speed_block Math_random toString_other params c8 i8)
    as [c9 i9]. cbn [fst snd] in *.
  pose proof (framerate_block_grows Math_random toString_other params c9 i9)
    as H10. cbv zeta in H10.
  destruct (framerate_block Math_random toString_other params c9 i9)
    as [c10 i10].
  unfold Grows in *. cbn [fst snd] in *. unfold chainDraws.
  assert (Hc : (enabledColours params <= 4)%nat).
  { unfold enabledColours.
    destruct (Range.enabled (saturation params)),
             (Range.enabled (contrast params)),
             (Range.enabled (brightness params)),
             (Range.enabled (gamma params)); cbn; lia. }
  destruct (0 <? enabledColours params)%nat eqn:E;
    [apply Nat.ltb_lt in E | apply Nat.ltb_ge in E]; cbn [Nat.b2n] in *;
    repeat split; try lia.
Qed.

End AuditList.

(** ** Speed in the argument list of the legacy processor *)

Section LegacyArguments.

Local Open Scope string_scope.

Lemma filterHead_append (s t : string) : filterHead s -> filterHead (s ++ t).
Proof.
  intros (c & rest & -> & H1 & H2). exists c, (rest ++ t). auto.
Qed.

Lemma filterHead_concat (t : string) (ts : list string) :
  filterHead t -> filterHead (String.concat "," (t :: ts)).
Proof.
  intros H. destruct ts as [|u us]; cbn [String.concat].
  - exact H.
  - now apply filterHead_append.
Qed.

Lemma filterHead_neq (s : string) (c : ascii) (rest : string) :
  filterHead s -> (c = "-"%char \/ c = "i"%char) ->
  String.eqb (String c rest) s = false.
Proof.
  intros (c' & rest' & -> & H1 & H2) Hc. cbn.
  destruct (Ascii.eqb_spec c c') as [->|]; [|reflexivity].
  destruct Hc; congruence.
Qed.

Lemma Forall_push {A} (P : A -> Prop) (l : list A) (a : A) :
  Forall P l -> P a -> Forall P (push l a).
Proof. intros Hl Ha. unfold push. apply Forall_app. split; auto. Qed.

Section LegacyHeads.

Variable Math_random : nat -> float.
Variable toString_other : float -> string.
Variable params : VideoProcessingParameters.

Local Abbreviation Heads := (Forall (fun d => filterHead (text d))).

Ltac head c rest := exists c, rest; repeat split; discriminate.

Lemma legacy_color_heads (name : string) (p : Range.t) (fs : list Directive)
    (i : nat) :
  Heads fs -> Heads (fst (legacy_color Math_random toString_other name p fs i)).
Proof.
  intros H. unfold legacy_color. destruct (Range.enabled p).
  - rewrite bind_run. unfold ret. cbn [fst]. apply Forall_push; [exact H|].
    cbn [text]. eexists _, _. split; [reflexivity|]. split; discriminate.
  - exact H.
Qed.

Lemma legacyFilters_heads (i : nat) :
  Heads (fst (legacyFilters Math_random toString_other params i)).
Proof.
  unfold legacyFilters. rewrite !bind_run.
  repeat match goal with
         | |- Heads (fst ((if ?b then _ else _) _)) => destruct b
         | |- Heads (fst (bind _ _ _)) => rewrite bind_run; cbv zeta
         | |- Heads (fst (ret _ _)) => unfold ret at 1; cbn [fst]
         | |- Heads (push _ _) =>
             apply Forall_push;
             [| cbn [text]; eexists _, _; split; [reflexivity|];
                split; discriminate]
         | |- Heads (fst (legacy_color _ _ _ _ _ _)) =>
             apply legacy_color_heads
         | |- Heads [] => constructor
         end.
Qed.

(** A filter string that is not empty differs from the arguments pushed
    before it. *)
Lemma buildFilterString_head (i : nat) :
  let s := fst (buildFilterString Math_random toString_other params i) in
  nonempty s = true -> filterHead s.
Proof.
  cbv zeta. unfold buildFilterString. rewrite bind_run. unfold ret.
  cbn [fst]. pose proof (legacyFilters_heads i) as H.
  destruct (fst (legacyFilters Math_random toString_other params i))
    as [|d ds]; cbn [List.length Nat.ltb Nat.leb map].
  - discriminate.
  - intros _. apply filterHead_concat. now inversion H.
Qed.

End LegacyHeads.

Lemma optional_push {A} (b : bool) (m : Rand (list A)) (args : list A)
    (i : nat) :
  (forall j, exists l, fst (m j) = (args ++ l)%list) ->
  exists l, fst ((if b then m else ret args) i) = (args ++ l)%list.
Proof.
  intros H. destruct b.
  - apply H.
  - exists []. unfold ret. cbn [fst]. now rewrite app_nil_r.
Qed.

Ltac pushed_args :=
  intros; rewrite ?bind_run; unfold ret, pushes; cbn [fst];
  eexists; reflexivity.

Section LegacySpeed.

Variable Math_random : nat -> float.
Variable toString_other : float -> string.
Variable params : VideoProcessingParameters.
Variable i : nat.

Local Abbreviation filterString :=
  (fst (buildFilterString Math_random toString_other params i)).
Local Abbreviation crfText :=
  (JS.Number_toString toString_other (crf (videoQuality params))).
Local Abbreviation speedAt j :=
  (JS.toFixed toString_other
     (1 / fst (sample Math_random (speed params) j)) 3).

(** X2.  In the legacy processor, when speed is enabled and the filter
    string is not empty, the speed filter is appended to the argument that
    follows the filter string, which is the flag [-crf]: the filter
    argument stays as it was and the flag becomes [-crf,setpts=...*PTS]. *)
Theorem legacy_speed_appended_to_crf_flag :
  Range.enabled (speed params) = true -> nonempty filterString = true ->
  exists j rest,
    fst (legacyArgs Math_random toString_other params i) =
    (["-i"; "input.mp4"; "-vf"; filterString;
      ("-crf,setpts=" ++ speedAt j ++ "*PTS")%string; crfText] ++ rest)%list.
Proof.
  intros Hs Hf.
  pose proof (buildFilterString_head Math_random toString_other params i Hf)
    as Hh.
  unfold legacyArgs, pushes, inputFileName. rewrite bind_run, Hf.
  cbn [app].
  set (fs := fst (buildFilterString Math_random toString_other params i))
    in *.
  set (base := ["-i"; "input.mp4"; "-vf"; fs; "-crf"; crfText]).
  rewrite bind_run.
  match goal with
  | |- context [fst ((if Range.enabled (videoBitrate params)
                      then ?m else ret base) ?j)] =>
      destruct (optional_push (Range.enabled (videoBitrate params)) m base j
                  ltac:(pushed_args)) as (l1 & ->)
  end.
  rewrite bind_run.
  match goal with
  | |- context [fst ((if Range.enabled (audioBitrate params)
                      then ?m else ret ?a) ?j)] =>
      destruct (optional_push (Range.enabled (audioBitrate params)) m a j
                  ltac:(pushed_args)) as (l2 & ->)
  end.
  rewrite bind_run.
  match goal with
  | |- context [fst ((if Range.enabled (framerate params)
                      then ?m else ret ?a) ?j)] =>
      destruct (optional_push (Range.enabled (framerate params)) m a j
                  ltac:(pushed_args)) as (l3 & ->)
  end.
  rewrite bind_run, Hs.
  rewrite !(bind_run (sample Math_random (speed params))).
  match goal with
  | |- context [sample Math_random (speed params) ?j] => exists j
  end.
  assert (Hidx : indexOf fs (((base ++ l1) ++ l2) ++ l3) = Some 3%nat).
  { unfold base. cbn [app indexOf].
    rewrite (filterHead_neq fs "-" "i") by (auto).
    rewrite (filterHead_neq fs "i" "nput.mp4") by (auto).
    rewrite (filterHead_neq fs "-" "vf") by (auto).
    now rewrite String.eqb_refl. }
  rewrite Hidx. unfold base, ret at 1 2. cbn [app append_at Nat.add fst snd].
  rewrite bind_run.
  match goal with
  | |- context [fst ((if Range.enabled (volume params)
                      then ?m else ret ?a) ?j)] =>
      destruct (optional_push (Range.enabled (volume params)) m a j
                  ltac:(pushed_args)) as (l4 & ->)
  end.
  rewrite bind_run.
  match goal with
  | |- context [fst ((if Range.enabled (trim params)
                      then ?m else ret ?a) ?j)] =>
      destruct (optional_push (Range.enabled (trim params)) m a j
                  ltac:(pushed_args)) as (l5 & ->)
  end.
  unfold ret. cbn [fst].
  eexists. rewrite <- !app_assoc. cbn [app]. reflexivity.
Qed.

End LegacySpeed.

Lemma legacy_speed_appended_to_crf_flag_witness :
  exists j rest,
    fst (legacyArgs Example.half Example.toString_other ExampleSpeed.spedUpFlipped
           0%nat) =
    (["-i"; "input.mp4"; "-vf"; "hflip";
      ("-crf,setpts="
       ++ JS.toFixed Example.toString_other
            (1 / fst (sample Example.half (speed ExampleSpeed.spedUpFlipped) j)) 3
       ++ "*PTS")%string;
      "11"] ++ rest)%list.
Proof.
  exact (legacy_speed_appended_to_crf_flag Example.half
           Example.toString_other ExampleSpeed.spedUpFlipped 0%nat
           eq_refl eq_refl).
Defined.

Section LegacySpeedAlone.

Variable Math_random : nat -> float.
Variable toString_other : float -> string.
Variable params : VideoProcessingParameters.
Variable i : nat.

Local Abbreviation filterString :=
  (fst (buildFilterString Math_random toString_other params i)).
Local Abbreviation crfText :=
  (JS.Number_toString toString_other (crf (videoQuality params))).
Local Abbreviation speedAt j :=
  (JS.toFixed toString_other
     (1 / fst (sample Math_random (speed params) j)) 3).

(** X3.  In the legacy processor, when speed is enabled and no filter was
    pushed, the speed filter is passed as the filter argument without its
    first character: the engine receives [-vf etpts=...*PTS]. *)
Theorem legacy_speed_alone_loses_first_character :
  Range.enabled (speed params) = true -> nonempty filterString = false ->
  exists j before rest,
    fst (legacyArgs Math_random toString_other params i) =
    (["-i"; "input.mp4"; "-crf"; crfText] ++ before
     ++ ["-vf"; ("etpts=" ++ speedAt j ++ "*PTS")%string] ++ rest)%list.
Proof.
  intros Hs Hf.
  unfold legacyArgs, pushes, inputFileName. rewrite bind_run, Hf.
  cbn [app].
  set (base := ["-i"; "input.mp4"; "-crf"; crfText]).
  rewrite bind_run.
  match goal with
  | |- context [fst ((if Range.enabled (videoBitrate params)
                      then ?m else ret base) ?j)] =>
      destruct (optional_push (Range.enabled (videoBitrate params)) m base j
                  ltac:(pushed_args)) as (l1 & ->)
  end.
  rewrite bind_run.
  match goal with
  | |- context [fst ((if Range.enabled (audioBitrate params)
                      then ?m else ret ?a) ?j)] =>
      destruct (optional_push (Range.enabled (audioBitrate params)) m a j
                  ltac:(pushed_args)) as (l2 & ->)
  end.
  rewrite bind_run.
  match goal with
  | |- context [fst ((if Range.enabled (framerate params)
                      then ?m else ret ?a) ?j)] =>
      destruct (optional_push (Range.enabled (framerate params)) m a j
                  ltac:(pushed_args)) as (l3 & ->)
  end.
  rewrite bind_run, Hs.
  rewrite !(bind_run (sample Math_random (speed params))).
  match goal with
  | |- context [sample Math_random (speed params) ?j] => exists j
  end.
  unfold ret at 1 2. cbn [fst snd substring1 append].
  rewrite bind_run.
  match goal with
  | |- context [fst ((if Range.enabled (volume params)
                      then ?m else ret ?a) ?j)] =>
      destruct (optional_push (Range.enabled (volume params)) m a j
                  ltac:(pushed_args)) as (l4 & ->)
  end.
  rewrite bind_run.
  match goal with
  | |- context [fst ((if Range.enabled (trim params)
                      then ?m else ret ?a) ?j)] =>
      destruct (optional_push (Range.enabled (trim params)) m a j
                  ltac:(pushed_args)) as (l5 & ->)
  end.
  unfold ret. cbn [fst].
  exists ((l1 ++ l2) ++ l3)%list. eexists.
  rewrite <- !app_assoc. cbn [app]. reflexivity.
Qed.

End LegacySpeedAlone.

Lemma legacy_speed_alone_loses_first_character_witness :
  exists j before rest,
    fst (legacyArgs Example.half Example.toString_other ExampleSpeed.spedUp
           0%nat) =
    (["-i"; "input.mp4"; "-crf"; "11"] ++ before
     ++ ["-vf";
         ("etpts="
          ++ JS.toFixed Example.toString_other
               (1 / fst (sample Example.half (speed ExampleSpeed.spedUp) j)) 3
          ++ "*PTS")%string] ++ rest)%list.
Proof.
  exact (legacy_speed_alone_loses_first_character Example.half
           Example.toString_other ExampleSpeed.spedUp 0%nat eq_refl eq_refl).
Defined.

End LegacyArguments.

(** ** Progress callbacks of a first job *)

Section ProgressCallbacks.

Section Progress.

Variable U : Type.

Lemma notify_all_length (p : float) (ls : list (Listener U)) :
  forall u, List.length (fst (notify_all p ls u)) = List.length ls.
Proof.
  induction ls as [|l ls IH]; intros u; cbn [notify_all].
  - reflexivity.
  - destruct (notify p l u) as [l' u'].
    specialize (IH u'). destruct (notify_all p ls u') as [ls' u''].
    cbn in *. now rewrite IH.
Qed.

Lemma report_length (events : list float) :
  forall (ls : list (Listener U)) u,
    List.length (fst (report events ls u)) = List.length ls.
Proof.
  induction events as [|p events IH]; intros ls u; cbn [report].
  - reflexivity.
  - pose proof (notify_all_length p ls u) as H.
    destruct (notify_all p ls u) as [ls' u']. cbn in H.
    rewrite IH. exact H.
Qed.

(** A single listener that forwards every event. *)
Lemma report_forwarding (cb : float -> U -> U) (events : list float) :
  forall u,
    let l := {| throttled := false; progressCounter := 0;
                callback := fun ratio => cb (ratio * 100)%float |} in
    report events [l] u = ([l], seen cb events u).
Proof.
  induction events as [|p events IH]; intros u l; cbn [report].
  - reflexivity.
  - cbn [notify_all notify throttled callback l]. unfold l in *.
    cbn [throttled callback]. rewrite IH. reflexivity.
Qed.

(** The events a throttled listener forwards when it has already counted
    [c] of them. *)
Local Abbreviation forwardedFrom c events :=
  (map snd
     (filter (fun kp : nat * float => ((c + S (fst kp)) mod 10 =? 0)%nat)
        (combine (seq 0 (List.length events)) events))).

Lemma forwardedFrom_cons (c : nat) (p : float) (events : list float) :
  forwardedFrom c (p :: events) =
  ((if (S c mod 10 =? 0)%nat then [p] else []) ++ forwardedFrom (S c) events)%list.
Proof.
  cbn [List.length seq combine filter fst].
  replace (c + 1)%nat with (S c) by lia.
  assert (H : forall (n : nat) (es : list float) (k : nat),
             map snd
               (filter (fun kp : nat * float =>
                          ((c + S (fst kp)) mod 10 =? 0)%nat)
                  (combine (seq (S k) n) es)) =
             map snd
               (filter (fun kp : nat * float =>
                          ((S c + S (fst kp)) mod 10 =? 0)%nat)
                  (combine (seq k n) es))).
  { induction n as [|n IHn]; intros es k; [reflexivity|].
    destruct es as [|e es]; [reflexivity|].
    cbn [seq combine filter fst].
    replace (c + S (S k))%nat with (S c + S k)%nat by lia.
    destruct ((S c + S k) mod 10 =? 0)%nat; cbn [map snd];
      now rewrite IHn. }
  rewrite <- H.
  destruct (S c mod 10 =? 0)%nat; reflexivity.
Qed.

Lemma report_throttled (cb : float -> U -> U) (events : list float) :
  forall c u,
    report events
      [{| throttled := true; progressCounter := c;
          callback := fun ratio => cb (ratio * 100)%float |}] u =
    ([{| throttled := true;
         progressCounter := (c + List.length events)%nat;
         callback := fun ratio => cb (ratio * 100)%float |}],
     seen cb (forwardedFrom c events) u).
Proof.
  induction events as [|p events IH]; intros c u.
  - cbn. now rewrite Nat.add_0_r.
  - cbn [report notify_all notify throttled progressCounter callback].
    rewrite IH. rewrite forwardedFrom_cons.
    cbn [List.length]. replace (S c + List.length events)%nat
      with (c + S (List.length events))%nat by lia.
    f_equal. unfold seen. rewrite fold_left_app.
    destruct (S c mod 10 =? 0)%nat; reflexivity.
Qed.

End Progress.

Section FirstJob.

Variable Math_random : nat -> float.
Variable toString_other : float -> string.
Variable engine : nat -> EngineRun.
Variable U : Type.

Ltac proj :=
  cbn [ffmpeg set_ffmpeg caller jobs execLog isLoaded supportsWebCodecs
       randomCalls option_map push app].

Lemma succeeds_engineCall (run : EngineRun) (s : Stage) (w : World U) :
  succeeds run -> engineCall (U:=U) run s w = (Resolved tt, w).
Proof.
  intros H. unfold engineCall, fails_at. now rewrite H.
Qed.

(** X4.  The first job of the enhanced processor after a successful
    [initialize()]: with a readable file and an engine that does not fail,
    the call resolves and the callback has been called once for every
    progress event of the job, in order, with the ratio times 100. *)
Theorem enhanced_progress_forwarded (f : File.t)
    (params : VideoProcessingParameters) (cb : float -> U -> U)
    (w : World U) :
  isLoaded w = true -> ffmpeg w = Some [] -> File.readable f = true ->
  succeeds (engine (jobs w)) ->
  exists r w',
    processVideo Math_random toString_other engine f params (Some cb) w
      = (Resolved r, w') /\
    caller w' = seen cb (progressEvents (engine (jobs w))) (caller w) /\
    output_url r = UrlOfOutput (jobs w).
Proof.
  intros Hl Hf Hr Hs. unfold processVideo. rewrite Hl, Hf. cbn [negb].
  unfold await at 1. unfold arrayBuffer. rewrite Hr. unfold resolve at 1.
  unfold await at 1. unfold startJob.
  unfold await at 1. rewrite (succeeds_engineCall _ _ _ Hs).
  unfold await at 1. unfold draw. cbn [randomCalls].
  destruct (enhancedArgs Math_random toString_other params (randomCalls w))
    as [[args applied] n].
  unfold await at 1. unfold on_progress. proj.
  rewrite Hf. proj.
  unfold await at 1. unfold exec. proj.
  rewrite report_forwarding.
  rewrite (succeeds_engineCall _ _ _ Hs).
  unfold await at 1. rewrite (succeeds_engineCall _ _ _ Hs).
  unfold await at 1. rewrite (succeeds_engineCall _ _ _ Hs).
  unfold resolve. do 2 eexists. split; [reflexivity|]. split; reflexivity.
Qed.

(** X5.  The first job of the legacy processor: the callback is called
    for the tenth, the twentieth, ... progress event of the job only, with
    the ratio times 100; with fewer than ten events it is never called. *)
Theorem legacy_progress_throttled (f : File.t)
    (params : VideoProcessingParameters) (cb : float -> U -> U)
    (w : World U) :
  ffmpeg w = Some [] -> File.readable f = true ->
  succeeds (engine (jobs w)) ->
  exists b w',
    legacy_processVideo Math_random toString_other engine f params (Some cb) w
      = (Resolved b, w') /\
    caller w' =
      seen cb (everyTenth (progressEvents (engine (jobs w)))) (caller w) /\
    ((List.length (progressEvents (engine (jobs w))) < 10)%nat ->
     caller w' = caller w).
Proof.
  intros Hf Hr Hs. unfold legacy_processVideo. rewrite Hf.
  unfold await at 1. unfold arrayBuffer. rewrite Hr. unfold resolve at 1.
  unfold await at 1. unfold startJob.
  unfold await at 1. rewrite (succeeds_engineCall _ _ _ Hs).
  unfold await at 1. unfold draw. cbn [randomCalls].
  destruct (legacyArgs Math_random toString_other params (randomCalls w))
    as [args n].
  unfold await at 1. unfold on_progress. proj.
  rewrite Hf. proj.
  unfold await at 1. unfold exec. proj.
  rewrite report_throttled.
  rewrite (succeeds_engineCall _ _ _ Hs).
  unfold await at 1. rewrite (succeeds_engineCall _ _ _ Hs).
  unfold await at 1. rewrite (succeeds_engineCall _ _ _ Hs).
  unfold resolve. do 2 eexists. split; [reflexivity|].
  cbn [caller]. split; [reflexivity|].
  intros Hlen. unfold everyTenth.
  set (events := progressEvents (engine (jobs w))) in *.
  assert (Hnone : forall k (es : list float) m,
             (k + m <= 9)%nat ->
             filter (fun kp : nat * float => (S (fst kp) mod 10 =? 0)%nat)
               (combine (seq k m) es) = []).
  { intros k es m. revert k es.
    induction m as [|m IHn]; intros k es Hk; [reflexivity|].
    destruct es as [|e es]; [reflexivity|].
    cbn [seq combine filter fst].
    rewrite (Nat.mod_small (S k) 10) by lia.
    cbn [Nat.eqb]. apply IHn. lia. }
  cbn [Nat.add]. rewrite Hnone by lia. reflexivity.
Qed.

End FirstJob.

End ProgressCallbacks.

(** ** Listeners are never removed *)

Section ListenerCount.

Section Leak.

Variable Math_random : nat -> float.
Variable toString_other : float -> string.
Variable engine : nat -> EngineRun.
Variable U : Type.

Ltac proj :=
  cbn [ffmpeg set_ffmpeg caller jobs execLog isLoaded supportsWebCodecs
       randomCalls option_map push app].

(** A job of the engine that gets as far as [exec] leaves one listener
    more, whether [exec] resolves or rejects. *)
Lemma exec_listeners (run : EngineRun) (args : list string) (w : World U) :
  listenerCount (snd (exec run args w)) = listenerCount w /\
  isLoaded (snd (exec run args w)) = isLoaded w.
Proof.
  unfold exec, listenerCount.
  pose proof (report_length U (progressEvents run)
                (match ffmpeg w with Some ls => ls | None => [] end)
                (caller w)) as H.
  destruct (report (progressEvents run) _ (caller w)) as [ls' u'].
  cbn [fst] in H. unfold engineCall.
  destruct (fails_at run AtExec); cbn [reject resolve snd]; proj;
    (destruct (ffmpeg w); cbn [option_map]; [now rewrite H | auto]).
Qed.

Lemma processVideo_listener (f : File.t) (params : VideoProcessingParameters)
    (cb : float -> U -> U) (w w' : World U) (r : ProcessingResult) (k : nat) :
  isLoaded w = true -> listenerCount w = Some k ->
  processVideo Math_random toString_other engine f params (Some cb) w
    = (Resolved r, w') ->
  isLoaded w' = true /\ listenerCount w' = Some (S k).
Proof.
  intros Hl Hk. unfold processVideo. rewrite Hl. cbn [negb].
  unfold listenerCount in Hk.
  destruct (ffmpeg w) as [ls|] eqn:Hf; [|discriminate].
  cbn [option_map] in Hk. injection Hk as Hk.
  unfold await at 1. unfold arrayBuffer.
  destruct (File.readable f); [|discriminate]. unfold resolve at 1.
  unfold await at 1. unfold startJob.
  unfold await at 1. unfold engineCall at 1.
  destruct (fails_at (engine (jobs w)) AtWriteFile); [discriminate|].
  unfold resolve at 1.
  unfold await at 1. unfold draw. proj.
  destruct (enhancedArgs Math_random toString_other params (randomCalls w))
    as [[args applied] n].
  unfold await at 1. unfold on_progress. proj. rewrite Hf. proj.
  unfold await at 1.
  match goal with
  | |- context [exec ?run ?a ?w0] =>
      destruct (exec_listeners run a w0) as [Hc Hi];
      destruct (exec run a w0) as [[[]|e] w1]; [|discriminate]
  end.
  cbn [snd] in Hc, Hi. unfold listenerCount in Hc at 2. proj.
  cbn [ffmpeg isLoaded set_ffmpeg option_map push] in Hc, Hi.
  unfold await at 1. unfold engineCall at 1.
  destruct (fails_at (engine (jobs w)) AtReadFile); [discriminate|].
  unfold resolve at 1.
  unfold await at 1. unfold engineCall at 1.
  destruct (fails_at (engine (jobs w)) AtDeleteFile); [discriminate|].
  unfold resolve. intros H. injection H as _ <-.
  split; [congruence|]. rewrite Hc. f_equal.
  unfold push. rewrite length_app. cbn. lia.
Qed.

Lemma legacy_processVideo_listener (f : File.t)
    (params : VideoProcessingParameters)
    (cb : float -> U -> U) (w w' : World U) (b : Blob.t) (k : nat) :
  listenerCount w = Some k ->
  legacy_processVideo Math_random toString_other engine f params (Some cb) w
    = (Resolved b, w') ->
  listenerCount w' = Some (S k).
Proof.
  intros Hk. unfold legacy_processVideo.
  unfold listenerCount in Hk.
  destruct (ffmpeg w) as [ls|] eqn:Hf; [|discriminate].
  cbn [option_map] in Hk. injection Hk as Hk.
  unfold await at 1. unfold arrayBuffer.
  destruct (File.readable f); [|discriminate]. unfold resolve at 1.
  unfold await at 1. unfold startJob.
  unfold await at 1. unfold engineCall at 1.
  destruct (fails_at (engine (jobs w)) AtWriteFile); [discriminate|].
  unfold resolve at 1.
  unfold await at 1. unfold draw. proj.
  destruct (legacyArgs Math_random toString_other params (randomCalls w))
    as [args n].
  unfold await at 1. unfold on_progress. proj. rewrite Hf. proj.
  unfold await at 1.
  match goal with
  | |- context [exec ?run ?a ?w0] =>
      destruct (exec_listeners run a w0) as [Hc Hi];
      destruct (exec run a w0) as [[[]|e] w1]; [|discriminate]
  end.
  cbn [snd] in Hc, Hi. unfold listenerCount in Hc at 2. proj.
  cbn [ffmpeg isLoaded set_ffmpeg option_map push] in Hc, Hi.
  unfold await at 1. unfold engineCall at 1.
  destruct (fails_at (engine (jobs w)) AtReadFile); [discriminate|].
  unfold resolve at 1.
  unfold await at 1. unfold engineCall at 1.
  destruct (fails_at (engine (jobs w)) AtDeleteFile); [discriminate|].
  unfold resolve. intros H. injection H as _ <-.
  rewrite Hc. f_equal.
  unfold push. rewrite length_app. cbn. lia.
Qed.

(** A loop whose iterations each leave one listener more. *)
Lemma variationLoop_listeners {R} (Inv : World U -> Prop)
    (process : option (float -> U -> U) -> Async U R)
    (onProgress : option (nat -> float -> U -> U)) :
  (forall cb w r w' k,
      Inv w -> listenerCount w = Some k ->
      process (Some cb) w = (Resolved r, w') ->
      Inv w' /\ listenerCount w' = Some (S k)) ->
  forall count i acc w rs w' k,
    Inv w -> listenerCount w = Some k ->
    variationLoop process onProgress i count acc w = (Resolved rs, w') ->
    listenerCount w' = Some (k + count)%nat.
Proof.
  intros Hstep. induction count as [|count IH]; intros i acc w rs w' k Hi Hk H.
  - cbn in H. injection H as _ <-. now rewrite Nat.add_0_r.
  - rewrite variationLoop_step in H. unfold iterationCallback in H.
    match type of H with
    | match process (Some ?cb) w with _ => _ end = _ =>
        destruct (process (Some cb) w) as [[r|e] w1] eqn:E; [|discriminate];
        destruct (Hstep cb w r w1 k Hi Hk E) as [Hi1 Hk1]
    end.
    rewrite (IH _ _ _ _ _ _ Hi1 Hk1 H). f_equal. lia.
Qed.

(** X6.  The listeners registered with the engine are never removed: when
    [generateVariations] resolves, the engine instance holds one progress
    listener more for every variation produced, in the enhanced processor
    with the engine loaded and in the legacy one. *)
Theorem listeners_accumulate (f : File.t) (params : VideoProcessingParameters)
    (n : nat) (onProgress : option (nat -> float -> U -> U))
    (w : World U) (k : nat) :
  listenerCount w = Some k ->
  (forall rs w',
      isLoaded w = true ->
      generateVariations Math_random toString_other engine f params n
        onProgress w = (Resolved rs, w') ->
      listenerCount w' = Some (k + n)%nat) /\
  (forall bs w',
      legacy_generateVariations Math_random toString_other engine f params n
        onProgress w = (Resolved bs, w') ->
      listenerCount w' = Some (k + n)%nat).
Proof.
  intros Hk. split.
  - intros rs w' Hl H. unfold generateVariations in H.
    apply (variationLoop_listeners (fun w => isLoaded w = true)
             (processVideo Math_random toString_other engine f params)
             onProgress) with (k := k) in H; try assumption.
    intros cb w0 r w1 k0 Hi0 Hk0 E.
    apply (processVideo_listener f params cb w0 w1 r k0 Hi0 Hk0 E).
  - intros bs w' H. unfold legacy_generateVariations in H.
    apply (variationLoop_listeners (fun _ => True)
             (legacy_processVideo Math_random toString_other engine f params)
             onProgress) with (k := k) in H; try assumption; [|exact I].
    intros cb w0 b w1 k0 _ Hk0 E. split; [exact I|].
    apply (legacy_processVideo_listener f params cb w0 w1 b k0 Hk0 E).
Qed.

End Leak.

Lemma enhanced_progress_forwarded_witness :
  exists r w',
    processVideo Example.half Example.toString_other Example.steady
      Example.clip Example.disabled (Some (Example.record_call 1))
      (Example.loaded [])
      = (Resolved r, w') /\
    caller w' = [(1%nat, 25%float); (1%nat, 75%float)] /\
    output_url r = UrlOfOutput 0.
Proof.
  exact (enhanced_progress_forwarded Example.half Example.toString_other
           Example.steady Example.Calls Example.clip Example.disabled
           (Example.record_call 1) (Example.loaded [])
           eq_refl eq_refl eq_refl eq_refl).
Defined.

Lemma legacy_progress_throttled_witness :
  exists b w',
    legacy_processVideo Example.half Example.toString_other ExampleEngine.busy
      Example.clip Example.disabled (Some (Example.record_call 1))
      (Example.loaded [])
      = (Resolved b, w') /\
    caller w' = [(1%nat, 62.5%float)] /\
    ((12 < 10)%nat -> caller w' = []).
Proof.
  exact (legacy_progress_throttled Example.half Example.toString_other
           ExampleEngine.busy Example.Calls Example.clip Example.disabled
           (Example.record_call 1) (Example.loaded [])
           eq_refl eq_refl eq_refl).
Defined.

Lemma listeners_accumulate_witness :
  listenerCount
    (snd (generateVariations Example.half Example.toString_other
            Example.steady Example.clip Example.disabled 3
            (Some Example.record_call) (Example.loaded []))) = Some 3%nat.
Proof.
  pose proof (proj1 (listeners_accumulate Example.half Example.toString_other
                       Example.steady Example.Calls Example.clip
                       Example.disabled 3 (Some Example.record_call)
                       (Example.loaded []) 0 eq_refl)) as H.
  destruct (generateVariations Example.half Example.toString_other
              Example.steady Example.clip Example.disabled 3
              (Some Example.record_call) (Example.loaded []))
    as [[rs|e] w'] eqn:E.
  - exact (H rs w' eq_refl eq_refl).
  - vm_compute in E. discriminate E.
Defined.

End ListenerCount.

(** ** Downloads *)

Section Downloads.

Import Download.

Lemma removeChild_appended (node : nat) (children : list nat) :
  Forall (fun c => c < node) children ->
  removeChild node (appendChild node children) = Some children.
Proof.
  unfold appendChild. induction children as [|c rest IH]; intros H.
  - cbn. now rewrite Nat.eqb_refl.
  - inversion H as [|? ? Hc Hrest]; subst. cbn [filter].
    assert (E : Nat.eqb c node = false) by (apply Nat.eqb_neq; lia).
    rewrite E. cbn [negb app removeChild]. rewrite E.
    now rewrite (IH Hrest).
Qed.

Lemma revoke_appended (n : nat) (b : Payload) (live : list (nat * Payload)) :
  Forall (fun u => fst u < n) live -> revoke n (live ++ [(n, b)]) = live.
Proof.
  intros H. unfold revoke. rewrite filter_app. cbn.
  rewrite Nat.eqb_refl. cbn. rewrite app_nil_r.
  induction H as [|u live Hu H IH]; [reflexivity|].
  cbn. assert (E : Nat.eqb (fst u) n = false) by (apply Nat.eqb_neq; lia).
  rewrite E. cbn. now rewrite IH.
Qed.

Lemma Forall_lt_S {A} (f : A -> nat) (n : nat) (l : list A) :
  Forall (fun x => f x < n) l -> Forall (fun x => f x < S n) l.
Proof. apply Forall_impl. intros; lia. Qed.

Lemma tidy_iff (p : Page) :
  tidy p = true <->
  Forall (fun c => c < elements p) (body p) /\
  Forall (fun u => fst u < objectUrls p) (liveUrls p).
Proof.
  unfold tidy. rewrite andb_true_iff, !forallb_forall, !Forall_forall.
  split; intros [H1 H2]; split; intros x Hx.
  - apply Nat.ltb_lt. now apply H1.
  - apply Nat.ltb_lt. now apply H2.
  - apply Nat.ltb_lt. now apply H1.
  - apply Nat.ltb_lt. now apply H2.
Qed.

(** What one call of [downloadBlob] does to a tidy page. *)
Lemma downloadBlob_tidy (blob : Source) (filename : string) (p : Page) :
  tidy p = true ->
  exists p',
    downloadBlob blob filename p = Completed p' /\ tidy p' = true /\
    body p' = body p /\ liveUrls p' = liveUrls p /\
    clicked p' =
      (clicked p ++
       [{| href := match blob with
                   | FromString u => Given u
                   | FromBlob _ => ObjectUrl (objectUrls p)
                   end;
           download := filename |}])%list.
Proof.
  intros Hp. apply tidy_iff in Hp. destruct Hp as [Hb Hl].
  unfold downloadBlob.
  destruct blob as [b|u]; rewrite (removeChild_appended _ _ Hb);
    eexists; (split; [reflexivity|]); rewrite tidy_iff;
    cbn [body liveUrls clicked elements objectUrls].
  - rewrite (revoke_appended _ _ _ Hl).
    repeat split; try reflexivity.
    + now apply (Forall_lt_S (fun c => c)).
    + now apply (Forall_lt_S (fun u => fst u)).
  - repeat split; try reflexivity; try assumption.
    now apply (Forall_lt_S (fun c => c)).
Qed.

Local Open Scope string_scope.

Lemma digitString_uint (d : Decimal.uint) :
  digitString (NilEmpty.string_of_uint d) = true.
Proof. induction d; cbn; auto. Qed.

Lemma digitString_ordinal (i : nat) : digitString (ordinal i) = true.
Proof.
  unfold ordinal, JS.digits_of_Z.
  destruct (Z.of_nat (i + 1)) as [|p|p] eqn:E; [lia| |lia].
  cbn. pose proof (Unsigned.to_uint_nonnil p) as Hn.
  destruct (Pos.to_uint p) eqn:Ep; [congruence|..];
    rewrite <- Ep; unfold NilZero.string_of_uint;
    rewrite Ep; apply (digitString_uint).
Qed.

Lemma ordinal_inj (i j : nat) : ordinal i = ordinal j -> i = j.
Proof.
  unfold ordinal. intros H. apply digits_of_Z_inj in H. lia.
Qed.

(** Digits followed by something that does not start with a digit can be
    split in one way only. *)
Lemma digits_then_suffix (d1 d2 s1 s2 : string) (c1 c2 : ascii)
    (r1 r2 : string) :
  digitString d1 = true -> digitString d2 = true ->
  s1 = String c1 r1 -> s2 = String c2 r2 ->
  digitString (String c1 "") = false -> digitString (String c2 "") = false ->
  d1 ++ s1 = d2 ++ s2 -> d1 = d2 /\ s1 = s2.
Proof.
  intros H1 H2 -> -> N1 N2. revert d2 H2.
  induction d1 as [|a d1 IH]; intros [|b d2] H2 H; cbn in H.
  - now split.
  - exfalso. inversion H; subst. cbn in H2, N1.
    rewrite andb_true_r in N1. apply andb_true_iff in H2. destruct H2 as [H2 _].
    congruence.
  - exfalso. inversion H; subst. cbn in H1, N2.
    rewrite andb_true_r in N2. apply andb_true_iff in H1. destruct H1 as [H1 _].
    congruence.
  - inversion H; subst. cbn in H1, H2.
    apply andb_true_iff in H1, H2. destruct H1 as [_ H1], H2 as [_ H2].
    destruct (IH H1 d2 H2) as [-> E]; [assumption|]. now split.
Qed.

Lemma zip_name_inj (base : string) (i j : nat) (s1 s2 : string)
    (c1 c2 : ascii) (r1 r2 : string) :
  s1 = String c1 r1 -> s2 = String c2 r2 ->
  digitString (String c1 "") = false -> digitString (String c2 "") = false ->
  base ++ "_variation_" ++ ordinal i ++ s1 =
  base ++ "_variation_" ++ ordinal j ++ s2 ->
  i = j /\ s1 = s2.
Proof.
  intros E1 E2 N1 N2 H.
  apply append_cancel in H. apply (append_cancel "_variation_") in H.
  destruct (digits_then_suffix _ _ _ _ c1 c2 r1 r2
              (digitString_ordinal i) (digitString_ordinal j) E1 E2 N1 N2 H)
    as [Ho Es].
  split; [now apply ordinal_inj | exact Es].
Qed.

Lemma zipNames_NoDup (base : string) (n : nat) :
  forall i, NoDup (flat_map (zipNames base) (seq i n)).
Proof.
  induction n as [|n IH]; intros i; cbn [seq flat_map]; [constructor|].
  unfold zipNames at 1. cbn [app].
  assert (Hlater : forall x k, In x (flat_map (zipNames base) (seq (S i) n)) ->
             x = base ++ "_variation_" ++ ordinal k ++ ".webm" \/
             x = base ++ "_variation_" ++ ordinal k ++ "_metadata.json" ->
             k <> i).
  { intros x k Hx Hk ->. apply in_flat_map in Hx.
    destruct Hx as (j & Hj & Hx). apply in_seq in Hj.
    unfold zipNames in Hx. cbn [In] in Hx.
    destruct Hx as [<-|[<-|[]]], Hk as [Hk|Hk];
      eapply zip_name_inj in Hk; try reflexivity; try (cbn; reflexivity);
      destruct Hk as [Hk Es]; try discriminate; lia. }
  constructor; [|constructor; [|apply IH]].
  - intros [H|H].
    + eapply zip_name_inj in H; try reflexivity; try (cbn; reflexivity).
      destruct H as [_ H]. discriminate.
    + apply (Hlater _ i H); auto.
  - intros H. apply (Hlater _ i H); auto.
Qed.

Lemma NoDup_map_injective {A B} (f : A -> B) (l : list A) :
  (forall a b, f a = f b -> a = b) -> NoDup l -> NoDup (map f l).
Proof.
  intros Hf H. induction H as [|a l Ha H IH]; cbn; constructor; [|exact IH].
  intros Hin. apply in_map_iff in Hin. destruct Hin as (b & E & Hb).
  apply Hf in E. now subst.
Qed.

Lemma legacyZipName_NoDup (base : string) (n : nat) :
  forall i, NoDup (map (legacyZipName base) (seq i n)).
Proof.
  intros i. apply NoDup_map_injective; [|apply seq_NoDup].
  intros a b H. unfold legacyZipName in H.
  eapply zip_name_inj in H; try reflexivity; try (cbn; reflexivity).
  tauto.
Qed.

(** The loops on a tidy page. *)
Lemma zipLoop_tidy (base : string) (results : list ProcessingResult) :
  forall i p,
    tidy p = true ->
    exists p',
      zipLoop base i results p = Completed p' /\ tidy p' = true /\
      body p' = body p /\ liveUrls p' = liveUrls p /\
      exists new,
        clicked p' = (clicked p ++ new)%list /\
        map download new =
          flat_map (zipNames base) (seq i (List.length results)) /\
        map href (filter (fun a => match href a with
                                   | Given _ => true
                                   | ObjectUrl _ => false
                                   end) new) =
          map (fun r => Given (output_url r)) results.
Proof.
  induction results as [|r rest IH]; intros i p Hp; cbn [zipLoop].
  - exists p. split; [reflexivity|]. split; [assumption|].
    split; [reflexivity|]. split; [reflexivity|]. exists [].
    rewrite app_nil_r. repeat split.
  - destruct (downloadBlob_tidy (FromString (output_url r))
                (base ++ "_variation_" ++ ordinal i ++ ".webm") p Hp)
      as (p1 & -> & Hp1 & Hb1 & Hl1 & Hc1).
    destruct (downloadBlob_tidy (FromBlob (MetadataJson r))
                (base ++ "_variation_" ++ ordinal i ++ "_metadata.json")
                p1 Hp1)
      as (p2 & -> & Hp2 & Hb2 & Hl2 & Hc2).
    destruct (IH (S i) p2 Hp2)
      as (p' & -> & Hp' & Hb' & Hl' & new & Hc' & Hn & Hh).
    exists p'. split; [reflexivity|]. split; [assumption|].
    split; [congruence|]. split; [congruence|].
    eexists. split.
    + rewrite Hc', Hc2, Hc1, <- !app_assoc. reflexivity.
    + cbn [app map download List.length seq flat_map filter href].
      rewrite Hn, Hh. split; reflexivity.
Qed.

Lemma legacy_zipLoop_tidy (base : string) (variations : list Blob.t) :
  forall i p,
    tidy p = true ->
    exists p',
      legacy_zipLoop base i variations p = Completed p' /\ tidy p' = true /\
      body p' = body p /\ liveUrls p' = liveUrls p /\
      exists new,
        clicked p' = (clicked p ++ new)%list /\
        map download new =
          map (legacyZipName base) (seq i (List.length variations)).
Proof.
  induction variations as [|v rest IH]; intros i p Hp; cbn [legacy_zipLoop].
  - exists p. split; [reflexivity|]. split; [assumption|].
    split; [reflexivity|]. split; [reflexivity|]. exists [].
    rewrite app_nil_r. repeat split.
  - unfold legacy_downloadBlob.
    destruct (downloadBlob_tidy (FromBlob (Variation v))
                (base ++ "_variation_" ++ ordinal i ++ ".mp4") p Hp)
      as (p1 & -> & Hp1 & Hb1 & Hl1 & Hc1).
    destruct (IH (S i) p1 Hp1)
      as (p' & -> & Hp' & Hb' & Hl' & new & Hc' & Hn).
    exists p'. split; [reflexivity|]. split; [assumption|].
    split; [congruence|]. split; [congruence|].
    eexists. split.
    + rewrite Hc', Hc1, <- !app_assoc. reflexivity.
    + cbn [app map download List.length seq]. now rewrite Hn.
Qed.

Import Download.
Local Open Scope string_scope.

(** X7.  On a page whose children and object URLs were made before,
    [downloadBlob] does not throw and clicks one link with the given file
    name; it leaves [document.body] and the set of live object URLs as they
    were: the URL it makes for a Blob is revoked, a URL passed in as a
    string is neither made nor revoked. *)
Theorem downloadBlob_restores_page (blob : Source) (filename : string)
    (p : Page) :
  tidy p = true ->
  exists p',
    downloadBlob blob filename p = Completed p' /\ tidy p' = true /\
    body p' = body p /\ liveUrls p' = liveUrls p /\
    objectUrls p' = (match blob with
                     | FromString _ => objectUrls p
                     | FromBlob _ => S (objectUrls p)
                     end) /\
    clicked p' =
      (clicked p ++
       [{| href := match blob with
                   | FromString u => Given u
                   | FromBlob _ => ObjectUrl (objectUrls p)
                   end;
           download := filename |}])%list.
Proof.
  intros Hp.
  destruct (downloadBlob_tidy blob filename p Hp)
    as (p' & E & Hp' & Hb & Hl & Hc).
  exists p'. repeat (split; [assumption|]). split; [|assumption].
  unfold downloadBlob in E. apply tidy_iff in Hp. destruct Hp as [Hbody _].
  rewrite (removeChild_appended _ _ Hbody) in E.
  destruct blob; injection E as <-; reflexivity.
Qed.

Lemma zipNames_length (base : string) (n : nat) :
  forall i,
    List.length (flat_map (zipNames base) (seq i n)) = (2 * n)%nat.
Proof.
  induction n as [|n IH]; intros i; cbn [seq flat_map]; [reflexivity|].
  unfold zipNames at 1. cbn [app List.length]. rewrite IH. lia.
Qed.

(** X8.  The enhanced [createZipWithVariations] on a tidy page: it does not
    throw; for every result, in order, it saves the result's own URL as
    [base_variation_k.webm] and then a metadata Blob as
    [base_variation_k_metadata.json], [k] counting from 1; the file names
    are pairwise distinct; the body and the live object URLs are left as
    they were. *)
Theorem createZip_saves_every_result (results : list ProcessingResult)
    (base : string) (p : Page) :
  tidy p = true ->
  exists p' new,
    createZipWithVariations results base p = Completed p' /\
    tidy p' = true /\ body p' = body p /\ liveUrls p' = liveUrls p /\
    clicked p' = (clicked p ++ new)%list /\
    List.length new = (2 * List.length results)%nat /\
    map download new =
      flat_map (zipNames base) (seq 0 (List.length results)) /\
    NoDup (map download new) /\
    map href (filter (fun a => match href a with
                               | Given _ => true
                               | ObjectUrl _ => false
                               end) new) =
      map (fun r => Given (output_url r)) results.
Proof.
  intros Hp. unfold createZipWithVariations.
  destruct (zipLoop_tidy base results 0 p Hp)
    as (p' & E & Hp' & Hb & Hl & new & Hc & Hn & Hh).
  exists p', new. repeat (split; [assumption|]).
  split; [|split; [assumption|split; [|assumption]]].
  - rewrite <- (length_map download), Hn. apply zipNames_length.
  - rewrite Hn. apply zipNames_NoDup.
Qed.

Lemma createZip_saves_every_result_witness :
  exists p' new,
    createZipWithVariations [ExamplePage.resultOf 0; ExamplePage.resultOf 1]
      "clip" ExamplePage.blankPage = Completed p' /\
    tidy p' = true /\ body p' = [] /\ liveUrls p' = [] /\
    clicked p' = ([] ++ new)%list /\
    List.length new = 4%nat /\
    map download new =
      ["clip_variation_1.webm"; "clip_variation_1_metadata.json";
       "clip_variation_2.webm"; "clip_variation_2_metadata.json"] /\
    NoDup (map download new) /\
    map href (filter (fun a => match href a with
                               | Given _ => true
                               | ObjectUrl _ => false
                               end) new) =
      [Given (UrlOfOutput 0); Given (UrlOfOutput 1)].
Proof.
  exact (createZip_saves_every_result
           [ExamplePage.resultOf 0; ExamplePage.resultOf 1] "clip"
           ExamplePage.blankPage eq_refl).
Defined.

Lemma downloadBlob_restores_page_witness :
  exists p',
    downloadBlob (FromBlob (Variation ExamplePage.mp4)) "a.mp4"
      ExamplePage.blankPage = Completed p' /\
    tidy p' = true /\ body p' = [] /\ liveUrls p' = [] /\
    objectUrls p' = 1%nat /\
    clicked p' = [{| href := ObjectUrl 0; download := "a.mp4" |}].
Proof.
  exact (downloadBlob_restores_page (FromBlob (Variation ExamplePage.mp4))
           "a.mp4" ExamplePage.blankPage eq_refl).
Defined.

(** The sum of the lengths and the length of the concatenation. *)
Lemma fold_left_lengths (items : list QueueItem) :
  forall (all : list Blob.t) (sum : nat),
    List.length all = sum ->
    List.length
      (fold_left (fun all item => (all ++ variations item)%list) items all) =
    fold_left (fun sum item => (sum + List.length (variations item))%nat)
      items sum.
Proof.
  induction items as [|item items IH]; intros all sum H; cbn [fold_left].
  - exact H.
  - apply IH. rewrite length_app. lia.
Qed.

(** X9.  [downloadAllAsZip] of the batch component on a tidy page: it ends
    with the toast "Download started"; the number of files it saves is the
    number [totalVariations] shown on its button, and it is the number the
    toast announces; the files are named [batch_processing_variation_k.mp4]
    with [k] counting from 1 through the variations of all completed
    videos, so the names are pairwise distinct. *)
Theorem batch_download_all_counts (queue : list QueueItem) (p : Page) :
  tidy p = true ->
  exists p' new,
    downloadAllAsZip queue p =
      (p', {| title := "Download started";
              description :=
                "Downloading all " ++ numeral (totalVariations queue)
                  ++ " variations from batch processing";
              destructive := false |}) /\
    tidy p' = true /\ body p' = body p /\ liveUrls p' = liveUrls p /\
    clicked p' = (clicked p ++ new)%list /\
    List.length new = totalVariations queue /\
    map download new =
      map (legacyZipName "batch_processing") (seq 0 (totalVariations queue)) /\
    NoDup (map download new).
Proof.
  intros Hp. unfold downloadAllAsZip, legacy_createZipWithVariations.
  set (all := fold_left (fun all item => (all ++ variations item)%list)
                (completedItems queue) []).
  assert (Hall : List.length all = totalVariations queue)
    by (apply fold_left_lengths; reflexivity).
  destruct (legacy_zipLoop_tidy "batch_processing" all 0 p Hp)
    as (p' & -> & Hp' & Hb & Hl & new & Hc & Hn).
  rewrite Hall in *. exists p', new.
  split; [reflexivity|]. repeat (split; [assumption|]).
  split; [|split; [assumption|]].
  - rewrite <- (length_map download), Hn, length_map. apply length_seq.
  - rewrite Hn. apply legacyZipName_NoDup.
Qed.

Lemma batch_download_all_counts_witness :
  exists p' new,
    downloadAllAsZip
      [ExamplePage.doneItem "1_a.mp4" Example.clip [ExamplePage.mp4; ExamplePage.mp4];
       Example.itemB;
       ExamplePage.doneItem "1_c.mp4" Example.clip [ExamplePage.mp4]]
      ExamplePage.blankPage =
      (p', {| title := "Download started";
              description :=
                "Downloading all 3 variations from batch processing";
              destructive := false |}) /\
    tidy p' = true /\ body p' = [] /\ liveUrls p' = [] /\
    clicked p' = ([] ++ new)%list /\
    List.length new = 3%nat /\
    map download new =
      ["batch_processing_variation_1.mp4"; "batch_processing_variation_2.mp4";
       "batch_processing_variation_3.mp4"] /\
    NoDup (map download new).
Proof.
  exact (batch_download_all_counts
           [ExamplePage.doneItem "1_a.mp4" Example.clip
              [ExamplePage.mp4; ExamplePage.mp4];
            Example.itemB;
            ExamplePage.doneItem "1_c.mp4" Example.clip [ExamplePage.mp4]]
           ExamplePage.blankPage eq_refl).
Defined.

Lemma split_nonempty (sep : ascii) (s : string) : Text.split sep s <> [].
Proof.
  destruct s as [|c rest]; cbn; [discriminate|].
  destruct (Ascii.eqb c sep); [discriminate|].
  destruct (Text.split sep rest); discriminate.
Qed.

(** The first piece is what stands before the first separator. *)
Lemma firstPart_spec (name : string) :
  exists rest,
    name = firstPart name ++ rest /\
    (rest = "" \/ exists r, rest = String "." r) /\
    contains "." (firstPart name) = false.
Proof.
  unfold firstPart. induction name as [|c name IH]; cbn [Text.split].
  - exists "". cbn. auto.
  - destruct (Ascii.eqb_spec c ".") as [->|Hc].
    + exists (String "." name). cbn. eauto.
    + destruct IH as (rest & E & Hr & Hd).
      pose proof (split_nonempty "." name) as Hne.
      destruct (Text.split "." name) as [|piece pieces]; [congruence|].
      cbn [hd] in *. exists rest. split; [cbn; now rewrite <- E|].
      split; [exact Hr|]. cbn.
      apply Ascii.eqb_neq in Hc. now rewrite Hc.
Qed.

(** X10.  [downloadVideoVariations] of the batch component on a tidy page:
    the variations of a video are saved as [base_variation_k.mp4], where
    [base] is the part of the file name before its first dot (the whole
    name if it has none): whatever follows the first dot is dropped.  The
    toast announces the number of files saved. *)
Theorem batch_download_drops_after_first_dot (variations : list Blob.t)
    (fileName : string) (p : Page) :
  tidy p = true ->
  exists base rest p' new,
    fileName = base ++ rest /\
    (rest = "" \/ exists r, rest = String "." r) /\
    contains "." base = false /\
    downloadVideoVariations variations fileName p =
      (p', {| title := "Download started";
              description :=
                "Downloading " ++ numeral (List.length variations)
                  ++ " variations for " ++ fileName;
              destructive := false |}) /\
    clicked p' = (clicked p ++ new)%list /\
    map download new =
      map (legacyZipName base) (seq 0 (List.length variations)) /\
    NoDup (map download new).
Proof.
  intros Hp. destruct (firstPart_spec fileName) as (rest & E & Hr & Hd).
  unfold downloadVideoVariations, legacy_createZipWithVariations.
  destruct (legacy_zipLoop_tidy (firstPart fileName) variations 0 p Hp)
    as (p' & -> & Hp' & Hb & Hl & new & Hc & Hn).
  exists (firstPart fileName), rest, p', new.
  repeat (split; [assumption || reflexivity|]).
  rewrite Hn. apply legacyZipName_NoDup.
Qed.

Lemma batch_download_drops_after_first_dot_witness :
  exists base rest p' new,
    "holiday.2024.mp4" = base ++ rest /\
    (rest = "" \/ exists r, rest = String "." r) /\
    contains "." base = false /\
    downloadVideoVariations [ExamplePage.mp4; ExamplePage.mp4] "holiday.2024.mp4"
      ExamplePage.blankPage =
      (p', {| title := "Download started";
              description :=
                "Downloading 2 variations for holiday.2024.mp4";
              destructive := false |}) /\
    clicked p' = ([] ++ new)%list /\
    map download new =
      map (legacyZipName base) (seq 0 2) /\
    NoDup (map download new).
Proof.
  exact (batch_download_drops_after_first_dot [ExamplePage.mp4; ExamplePage.mp4]
           "holiday.2024.mp4" ExamplePage.blankPage eq_refl).
Defined.

Lemma nth_zipNames (base : string) (n : nat) :
  forall i k,
    (k < n)%nat ->
    nth (2 * k) (flat_map (zipNames base) (seq i n)) "" =
    base ++ "_variation_" ++ ordinal (i + k) ++ ".webm".
Proof.
  induction n as [|n IH]; intros i k Hk; [lia|].
  cbn [seq flat_map]. unfold zipNames at 1. cbn [app].
  destruct k as [|k].
  - cbn. now rewrite Nat.add_0_r.
  - replace (2 * S k)%nat with (S (S (2 * k))) by lia. cbn [nth].
    rewrite IH by lia. now replace (S i + k)%nat with (i + S k)%nat by lia.
Qed.

(** X11.  The two download buttons of the enhanced component agree on the
    name of variation [i] exactly when the name of the uploaded file does
    not start with a dot: "Download all" falls back to the base name
    [video] when the part before the first dot is empty, the button of a
    single variation does not. *)
Theorem download_names_agree (f : File.t) (results : list ProcessingResult)
    (i : nat) (p : Page) :
  tidy p = true -> (i < List.length results)%nat ->
  let one := fst (downloadResult (Some f) (nth i results
                                             (ExamplePage.resultOf 0)) i p) in
  let all := fst (downloadAllResults (Some f) results p) in
  let since := List.length (clicked p) in
  downloadsSince since one =
    [firstPart (File.name f) ++ "_variation_" ++ ordinal i ++ ".webm"] /\
  (nth (2 * i) (downloadsSince since all) "" =
     nth 0 (downloadsSince since one) ""
   <-> nonempty (firstPart (File.name f)) = true).
Proof.
  intros Hp Hi one all since.
  assert (Hone : downloadsSince since one =
                 [firstPart (File.name f) ++ "_variation_" ++ ordinal i
                    ++ ".webm"]).
  { unfold one, downloadResult, shownBase.
    match goal with
    | |- context [downloadBlob ?b ?n p] =>
        destruct (downloadBlob_tidy b n p Hp) as (p1 & -> & _ & _ & _ & Hc)
    end.
    cbn [fst]. unfold downloadsSince, since. rewrite Hc.
    rewrite skipn_app, skipn_all, Nat.sub_diag. reflexivity. }
  split; [exact Hone|]. rewrite Hone. cbn [nth].
  assert (Hall : downloadsSince since all =
                 flat_map (zipNames (zipBase (Some f)))
                   (seq 0 (List.length results))).
  { unfold all, downloadAllResults.
    destruct (List.length results =? 0)%nat eqn:E;
      [apply Nat.eqb_eq in E; lia|].
    unfold createZipWithVariations.
    destruct (zipLoop_tidy (zipBase (Some f)) results 0 p Hp)
      as (p' & -> & _ & _ & _ & new & Hc & Hn & _).
    cbn [fst]. unfold downloadsSince, since. rewrite Hc.
    rewrite skipn_app, skipn_all, Nat.sub_diag. exact Hn. }
  rewrite Hall, nth_zipNames by exact Hi. cbn [Nat.add zipBase].
  destruct (nonempty (firstPart (File.name f))) eqn:Hn.
  - split; reflexivity.
  - split; [|discriminate]. intros H. exfalso.
    destruct (firstPart (File.name f)); [|discriminate].
    apply (f_equal String.length) in H. rewrite !string_length_append in H.
    cbn in H. lia.
Qed.

Lemma download_names_agree_witness :
  downloadsSince 0
    (fst (downloadResult (Some ExamplePage.dotted) (ExamplePage.resultOf 1) 1
            ExamplePage.blankPage)) =
    ["holiday_variation_2.webm"] /\
  (nth 2 (downloadsSince 0
            (fst (downloadAllResults (Some ExamplePage.dotted)
                    [ExamplePage.resultOf 0; ExamplePage.resultOf 1]
                    ExamplePage.blankPage))) "" =
   nth 0 (downloadsSince 0
            (fst (downloadResult (Some ExamplePage.dotted) (ExamplePage.resultOf 1)
                    1 ExamplePage.blankPage))) ""
   <-> true = true).
Proof.
  exact (download_names_agree ExamplePage.dotted
           [ExamplePage.resultOf 0; ExamplePage.resultOf 1] 1 ExamplePage.blankPage
           eq_refl (le_n 2)).
Defined.

End Downloads.

(** ** The queue of the batch component *)

Section QueueOperations.

Local Open Scope string_scope.

Lemma removeFromQueue_app (itemId : string) (q1 q2 : list QueueItem) :
  removeFromQueue itemId (q1 ++ q2) =
  (removeFromQueue itemId q1 ++ removeFromQueue itemId q2)%list.
Proof. apply filter_app. Qed.

Lemma newItems_frozen (Date_now : nat -> Z) (now : Z) (fs : list File.t) :
  forall readings,
    (forall k, (readings <= k < readings + List.length fs)%nat ->
               Date_now k = now) ->
    newItems Date_now readings fs = map (pendingItem now) fs.
Proof.
  induction fs as [|f fs IH]; intros readings H; cbn [newItems map].
  - reflexivity.
  - rewrite (H readings) by (cbn; lia). f_equal.
    apply IH. intros k Hk. apply H. cbn. lia.
Qed.

Lemma uploadId_same (now : Z) (f g : File.t) :
  String.eqb (uploadId now g) (uploadId now f) =
  String.eqb (File.name g) (File.name f).
Proof.
  unfold uploadId.
  destruct (String.eqb_spec (File.name g) (File.name f)) as [E|N].
  - rewrite E. apply String.eqb_refl.
  - apply String.eqb_neq. intros E. apply N.
    apply append_cancel in E. now apply append_cancel in E.
Qed.

(** X12.  Files added in one upload while the clock does not advance get
    ids that differ only by the file name: removing one of them by its id
    removes every file of that name added with it, and keeps the other new
    entries in their order. *)
Theorem remove_takes_same_named_uploads (Date_now : nat -> Z) (now : Z)
    (files : list File.t) (readings : nat) (queue : list QueueItem)
    (f : File.t) :
  (forall k, (readings <= k < readings + List.length files)%nat ->
             Date_now k = now) ->
  removeFromQueue (uploadId now f) (uploaded Date_now files readings queue) =
  (removeFromQueue (uploadId now f) queue ++
   map (pendingItem now)
     (filter (fun g => isVideo g
                       && negb (String.eqb (File.name g) (File.name f)))
        files))%list.
Proof.
  intros H. unfold uploaded, handleFileUpload.
  assert (Hlen : (List.length (filter isVideo files) <= List.length files)%nat)
    by apply filter_length_le.
  assert (E : removeFromQueue (uploadId now f)
                (newItems Date_now readings (filter isVideo files)) =
              map (pendingItem now)
                (filter (fun g => isVideo g
                           && negb (String.eqb (File.name g) (File.name f)))
                   files)).
  { rewrite (newItems_frozen Date_now now)
      by (intros k Hk; apply H; lia).
    clear. induction files as [|g files IH]; [reflexivity|].
    cbn [filter]. destruct (isVideo g); cbn [andb map]; [|exact IH].
    unfold removeFromQueue in *. cbn [filter map id pendingItem].
    rewrite uploadId_same.
    destruct (String.eqb (File.name g) (File.name f)); cbn [negb map];
      now rewrite IH. }
  destruct (List.length (filter isVideo files) =? 0)%nat eqn:E0; cbn [fst].
  - apply Nat.eqb_eq, length_zero_iff_nil in E0. rewrite E0 in E.
    cbn in E. rewrite <- E. now rewrite app_nil_r.
  - now rewrite removeFromQueue_app, E.
Qed.

Lemma remove_takes_same_named_uploads_witness :
  removeFromQueue (uploadId 1700000000000 Example.clip)
    (uploaded ExampleUpload.frozen
       [Example.clip; ExampleUpload.still; ExampleUpload.other; Example.clip] 0
       [Example.itemA]) =
  [Example.itemA; pendingItem 1700000000000 ExampleUpload.other].
Proof.
  exact (remove_takes_same_named_uploads ExampleUpload.frozen 1700000000000
           [Example.clip; ExampleUpload.still; ExampleUpload.other; Example.clip] 0
           [Example.itemA] Example.clip (fun k _ => eq_refl)).
Defined.

Lemma removeFromQueue_fresh (itemId : string) (queue : list QueueItem) :
  (forall old, In old queue -> id old <> itemId) ->
  removeFromQueue itemId queue = queue.
Proof.
  intros H. induction queue as [|q queue IH]; [reflexivity|].
  unfold removeFromQueue in *. cbn [filter].
  destruct (String.eqb_spec (id q) itemId) as [E|_].
  - exfalso. apply (H q); [now left|exact E].
  - cbn [negb]. f_equal. apply IH. intros old Ho. apply H. now right.
Qed.

Lemma removeFromQueue_In (itemId : string) (item : QueueItem)
    (queue : list QueueItem) :
  In item (removeFromQueue itemId queue) ->
  In item queue /\ id item <> itemId.
Proof.
  unfold removeFromQueue. rewrite filter_In. intros [Hi Hn].
  split; [exact Hi|]. now apply String.eqb_neq, negb_true_iff.
Qed.

Lemma removeEach_own (queue : list QueueItem) (items : list QueueItem) :
  forall rest,
    (forall old, In old queue ->
       forall item, In item items -> id old <> id item) ->
    (forall r, In r rest -> exists item, In item items /\ id r = id item) ->
    removeEach items (queue ++ rest) = queue.
Proof.
  induction items as [|item items IH]; intros rest Hq Hr; cbn.
  - destruct rest as [|r rest]; [apply app_nil_r|].
    destruct (Hr r (or_introl eq_refl)) as (item & [] & _).
  - unfold removeEach in IH. rewrite removeFromQueue_app.
    rewrite (removeFromQueue_fresh (id item) queue)
      by (intros old Ho; apply Hq; [exact Ho|now left]).
    apply IH.
    + intros old Ho it Hit. apply Hq; [exact Ho|now right].
    + intros r Hin. apply removeFromQueue_In in Hin as [Hin Hne].
      destruct (Hr r Hin) as (it & [<-|Hit] & E); [congruence|eauto].
Qed.

(** X13.  Upload and removal undo each other: when no entry of the queue
    carries an id the upload hands out, removing the added entries one by
    one gives back the queue as it was before the upload, whatever the
    clock shows and whatever files were chosen. *)
Theorem upload_then_remove (Date_now : nat -> Z) (files : list File.t)
    (readings : nat) (queue : list QueueItem) :
  let added := newItems Date_now readings (filter isVideo files) in
  (forall old, In old queue ->
     forall item, In item added -> id old <> id item) ->
  removeEach added (uploaded Date_now files readings queue) = queue.
Proof.
  intros added H. unfold uploaded, handleFileUpload. fold added.
  destruct (List.length (filter isVideo files) =? 0)%nat eqn:E0; cbn [fst].
  - apply Nat.eqb_eq, length_zero_iff_nil in E0. subst added.
    rewrite E0. reflexivity.
  - apply removeEach_own; [exact H|]. intros r Hr. eauto.
Qed.

Lemma upload_then_remove_witness :
  removeEach
    (newItems ExampleUpload.ticking 0
       (filter isVideo [Example.clip; ExampleUpload.still; Example.clip]))
    (uploaded ExampleUpload.ticking
       [Example.clip; ExampleUpload.still; Example.clip] 0 [Example.itemA]) =
  [Example.itemA].
Proof.
  refine (upload_then_remove ExampleUpload.ticking
            [Example.clip; ExampleUpload.still; Example.clip] 0 [Example.itemA]
            _).
  intros old [<-|[]] item [<-|[<-|[]]]; discriminate.
Defined.

End QueueOperations.

(** ** The engine shown by the component *)

Section EngineLabel.

Local Open Scope string_scope.

Section Label.

Variable Math_random : nat -> float.
Variable toString_other : float -> string.
Variable engine : nat -> EngineRun.

Ltac proj :=
  cbn [ffmpeg set_ffmpeg caller jobs execLog isLoaded supportsWebCodecs
       randomCalls option_map push app].

(** With the engine loaded a job that resolves went through the engine:
    its result is in the format of the engine. *)
Lemma processVideo_loaded_format (U : Type) (f : File.t)
    (params : VideoProcessingParameters) (cb : option (float -> U -> U))
    (w w' : World U) (r : ProcessingResult) :
  isLoaded w = true ->
  processVideo Math_random toString_other engine f params cb w
    = (Resolved r, w') ->
  format (metadata r) = "webm" /\ output_url r = UrlOfOutput (jobs w).
Proof.
  intros Hl. unfold processVideo. rewrite Hl. cbn [negb].
  destruct (ffmpeg w) as [ls|] eqn:Hf; [|discriminate].
  unfold await at 1. unfold arrayBuffer.
  destruct (File.readable f); [|discriminate]. unfold resolve at 1.
  unfold await at 1. unfold startJob.
  unfold await at 1. unfold engineCall at 1.
  destruct (fails_at (engine (jobs w)) AtWriteFile); [discriminate|].
  unfold resolve at 1.
  unfold await at 1. unfold draw. proj.
  destruct (enhancedArgs Math_random toString_other params (randomCalls w))
    as [[args applied] n].
  unfold await at 1.
  destruct cb as [cb|];
    [unfold on_progress; proj; rewrite Hf; proj | unfold resolve at 1];
    unfold await at 1;
    (match goal with
     | |- context [exec ?run ?a ?w0] =>
         destruct (exec run a w0) as [[[]|e] w2]; [|discriminate]
     end);
    unfold await at 1; unfold engineCall at 1;
    (destruct (fails_at (engine (jobs w)) AtReadFile); [discriminate|]);
    unfold resolve at 1;
    unfold await at 1; unfold engineCall at 1;
    (destruct (fails_at (engine (jobs w)) AtDeleteFile); [discriminate|]);
    unfold resolve; intros H; injection H as <- _; split; reflexivity.
Qed.

(** X14.  The engine the component shows after [initializeProcessor] is the
    one the next job uses.  If the engine was loaded before or loads now,
    the label is [FFmpeg.wasm], the status is [success], the toast speaks
    of full threading support (never of a fallback mode) and a job that
    resolves returns a [webm] result.  Otherwise the status is [failed] and
    the label and the toast name [WebCodecs] or [Canvas], whose marker the
    next job returns. *)
Theorem engine_label_names_engine (loads : bool) (w : World Panel)
    (f : File.t) (params : VideoProcessingParameters)
    (cb : option (float -> Panel -> Panel)) :
  let w' := snd (initializeProcessor loads w) in
  let shown := caller w' in
  let next := processVideo Math_random toString_other engine f params cb w' in
  if isLoaded w || loads then
    getEngineLabel (shownCapabilities shown) = "FFmpeg.wasm" /\
    initializationStatus shown = Init.success /\
    toasts shown =
      push (toasts (caller w))
        {| title := "Video processor ready";
           description :=
             "FFmpeg loaded successfully with full threading support";
           destructive := false |} /\
    forall r w'', next = (Resolved r, w'') -> format (metadata r) = "webm"
  else if supportsWebCodecs w then
    getEngineLabel (shownCapabilities shown) = "WebCodecs" /\
    initializationStatus shown = Init.failed /\
    toasts shown =
      push (toasts (caller w))
        {| title := "Processing engine limited";
           description := "FFmpeg unavailable. Using WebCodecs fallback.";
           destructive := true |} /\
    next = (Resolved (webCodecsResult f), w')
  else
    getEngineLabel (shownCapabilities shown) = "Canvas" /\
    initializationStatus shown = Init.failed /\
    toasts shown =
      push (toasts (caller w))
        {| title := "Processing engine limited";
           description := "FFmpeg unavailable. Using Canvas fallback.";
           destructive := true |} /\
    next = (Resolved (canvasResult f), w').
Proof.
  intros w' shown next.
  assert (Hw : w' = snd (initializeProcessor loads w)) by reflexivity.
  clearbody w'.
  unfold initializeProcessor, setInitializationStatus, setCapabilities,
    toast, try_catch, await, setState, initialize, capabilities in Hw.
  cbn [isLoaded set_caller caller] in Hw.
  destruct (isLoaded w) eqn:Hl; cbn [orb].
  - cbn in Hw. rewrite Hl in Hw. subst shown next. rewrite Hw.
    do 3 (split; [reflexivity|]).
    intros r w'' H. apply processVideo_loaded_format in H; [apply H|].
    exact Hl.
  - destruct loads; cbn in Hw; subst shown next; rewrite Hw.
    + do 3 (split; [reflexivity|]).
      intros r w'' H. apply processVideo_loaded_format in H; [apply H|].
      reflexivity.
    + unfold processVideo. cbn. rewrite Hl.
      destruct (supportsWebCodecs w); cbn; repeat split.
Qed.

End Label.

End EngineLabel.

(** ** Updates of the parameters *)

Section ParameterUpdates.

Import Heap.

Local Open Scope string_scope.
Local Open Scope list_scope.

Lemma split_dotfree (k : string) :
  contains "." k = false -> Text.split "." k = [k].
Proof.
  induction k as [|c k IH]; cbn; [reflexivity|].
  intros H. apply orb_false_iff in H as [Hc Hk].
  rewrite Hc, (IH Hk). reflexivity.
Qed.

Lemma split_dotted (k1 rest : string) :
  contains "." k1 = false ->
  Text.split "." (k1 ++ String "." rest)%string = k1 :: Text.split "." rest.
Proof.
  induction k1 as [|c k IH]; cbn; [reflexivity|].
  intros H. apply orb_false_iff in H as [Hc Hk].
  rewrite Hc, (IH Hk). reflexivity.
Qed.

Lemma get_set_same (o : Object) (key : string) (v : Value) :
  get (set o key v) key = Some v.
Proof.
  induction o as [|[k x] o IH]; cbn.
  - now rewrite String.eqb_refl.
  - destruct (String.eqb k key) eqn:E; cbn; now rewrite E.
Qed.

Lemma get_set_other (o : Object) (key key' : string) (v : Value) :
  key' <> key -> get (set o key v) key' = get o key'.
Proof.
  intros Hne. induction o as [|[k x] o IH]; cbn.
  - apply String.eqb_neq in Hne. rewrite String.eqb_sym in Hne.
    now rewrite Hne.
  - destruct (String.eqb_spec k key) as [->|N]; cbn.
    + apply String.eqb_neq in Hne. rewrite String.eqb_sym in Hne.
      now rewrite Hne.
    + now rewrite IH.
Qed.

Lemma object_write_same (s : Store) (l : nat) (o : Object) :
  (l < List.length s)%nat -> object (write s l o) l = Some o.
Proof.
  unfold object. revert l.
  induction s as [|x s IH]; intros [|l] H; cbn in *; try lia.
  - reflexivity.
  - apply IH. lia.
Qed.

Lemma object_write_other (s : Store) (l l' : nat) (o : Object) :
  l' <> l -> object (write s l o) l' = object s l'.
Proof.
  unfold object. revert l l'.
  induction s as [|x s IH]; intros [|l] [|l'] H; cbn; try reflexivity.
  - congruence.
  - apply IH. congruence.
Qed.

Lemma object_spread_old (s : Store) (o : Object) (l : nat) :
  (l < List.length s)%nat -> object (s ++ [o]) l = object s l.
Proof. intros H. unfold object. now apply nth_error_app1. Qed.

Lemma object_spread_new (s : Store) (o : Object) :
  object (s ++ [o]) (List.length s) = Some o.
Proof.
  unfold object. rewrite nth_error_app2 by lia.
  now rewrite Nat.sub_diag.
Qed.

Lemma object_bound (s : Store) (l : nat) (o : Object) :
  object s l = Some o -> (l < List.length s)%nat.
Proof. intros H. apply nth_error_Some. unfold object in H. congruence. Qed.

(** X15.  A change of a nested setting is written into the object that the
    previous state still refers to: after [updateParameter("k1.k2", v)] the
    new state and the previous one both read [v] at [k1.k2], and both hold
    the same nested object; only the outer object is a copy. *)
Theorem nested_update_reaches_previous_state (s : Store) (p q : nat)
    (o oq : Object) (k1 k2 : string) (v : Value) :
  object s p = Some o -> get o k1 = Some (VObject q) ->
  object s q = Some oq -> q <> p ->
  contains "." k1 = false -> contains "." k2 = false ->
  k2 <> "__proto__" ->
  exists s',
    updateParameter p (k1 ++ "." ++ k2)%string v s = Some (s', List.length s) /\
    read s' (List.length s) [k1; k2] = Some v /\
    read s' p [k1; k2] = Some v /\
    read s' (List.length s) [k1] = read s' p [k1] /\
    object s' p = Some o /\ object s' (List.length s) = Some o /\
    List.length s <> p.
Proof.
  intros Hp Hk1 Hq Hqp Hd1 Hd2 Hproto.
  pose proof (object_bound _ _ _ Hp) as Bp.
  pose proof (object_bound _ _ _ Hq) as Bq.
  unfold updateParameter. rewrite Hp. unfold spread.
  change (k1 ++ "." ++ k2)%string with (k1 ++ String "." k2)%string.
  rewrite (split_dotted k1 k2 Hd1), (split_dotfree k2 Hd2).
  cbn [removelast last walk].
  rewrite object_spread_new, Hk1.
  rewrite object_spread_old by exact Bq. rewrite Hq.
  apply String.eqb_neq in Hproto. rewrite Hproto.
  eexists. split; [reflexivity|].
  assert (Hnew : object (write (s ++ [o]) q (set oq k2 v)) (List.length s)
                 = Some o).
  { rewrite object_write_other by lia. apply object_spread_new. }
  assert (Hold : object (write (s ++ [o]) q (set oq k2 v)) p = Some o).
  { rewrite object_write_other by congruence.
    rewrite object_spread_old by exact Bp. exact Hp. }
  assert (Hnested : object (write (s ++ [o]) q (set oq k2 v)) q
                    = Some (set oq k2 v)).
  { apply object_write_same. rewrite length_app. cbn. lia. }
  cbn [read]. rewrite Hnew, Hold, Hk1, Hnested, get_set_same.
  repeat split. lia.
Qed.

Lemma nested_update_reaches_previous_state_witness :
  exists s',
    updateParameter 1 "saturation.min" (VNumber 1.25) ExampleStore.store
      = Some (s', 2%nat) /\
    read s' 2 ["saturation"; "min"] = Some (VNumber 1.25) /\
    read s' 1 ["saturation"; "min"] = Some (VNumber 1.25) /\
    read s' 2 ["saturation"] = read s' 1 ["saturation"] /\
    object s' 1 = object ExampleStore.store 1 /\
    object s' 2 = object ExampleStore.store 1 /\
    2%nat <> 1%nat.
Proof.
  exact (nested_update_reaches_previous_state ExampleStore.store 1 0 _ _
           "saturation" "min" (VNumber 1.25) eq_refl eq_refl eq_refl
           (fun H => O_S 0 H) eq_refl eq_refl
           (fun H => ltac:(discriminate H))).
Defined.

(** X16.  A change of a setting of the outer object leaves every object
    of the previous state as it was: the call adds one object, a copy of
    the previous state that reads [v] at the key and agrees with it on
    every other key. *)
Theorem top_level_update_copies (s : Store) (p : nat) (o : Object)
    (k : string) (v : Value) :
  object s p = Some o -> contains "." k = false -> k <> "__proto__" ->
  exists o',
    updateParameter p k v s = Some ((s ++ [o'])%list, List.length s) /\
    get o' k = Some v /\
    (forall k', k' <> k -> get o' k' = get o k') /\
    (forall l, (l < List.length s)%nat ->
               object (s ++ [o']) l = object s l).
Proof.
  intros Hp Hd Hproto. exists (set o k v).
  unfold updateParameter. rewrite Hp. unfold spread.
  rewrite (split_dotfree k Hd). cbn [removelast last walk].
  rewrite object_spread_new.
  apply String.eqb_neq in Hproto. rewrite Hproto.
  split.
  - do 2 f_equal. clear. induction s as [|x s IH]; cbn; [reflexivity|].
    now rewrite IH.
  - split; [apply get_set_same|]. split.
    + intros k' Hk. now apply get_set_other.
    + intros l Hl. now apply object_spread_old.
Qed.

Lemma top_level_update_copies_witness :
  exists o',
    updateParameter 1 "videoQuality" (VNumber 55) ExampleStore.store
      = Some ((ExampleStore.store ++ [o'])%list, 2%nat) /\
    get o' "videoQuality" = Some (VNumber 55) /\
    (forall k', k' <> "videoQuality" ->
                get o' k' = get [("videoQuality", VNumber 80);
                                 ("saturation", VObject 0)] k') /\
    (forall l, (l < 2)%nat ->
               object (ExampleStore.store ++ [o']) l = object ExampleStore.store l).
Proof.
  exact (top_level_update_copies ExampleStore.store 1 _ "videoQuality"
           (VNumber 55) eq_refl eq_refl (fun H => ltac:(discriminate H))).
Defined.

End ParameterUpdates.

(** ** The frame sizes of the size block *)

Section FrameSizes.

Local Open Scope Z_scope.

Lemma all_sizes (toString_other : float -> string) :
  forallb (sameSize toString_other) (seq 0 360) = true.
Proof. vm_compute. reflexivity. Qed.

(** *** Numbers of the format are told apart by their values *)

Lemma sval_finite_nonzero (s : bool) (m : positive) (e : Z) :
  -1074 <= e -> sval (S754_finite s m e) <> 0.
Proof.
  intros He. cbn [sval].
  pose proof (pow2_pos (e + 1074) ltac:(lia)) as P.
  destruct s; cbn [cond_Zopp]; nia.
Qed.

Lemma representable_exponent_min (s : bool) (m : positive) (e : Z) :
  representable (S754_finite s m e) -> -1074 <= e.
Proof.
  intros [V _]. apply valid_canonical in V. destruct V as [C _].
  destruct (canonical_bounds _ _ C) as (L & _). exact L.
Qed.

Lemma sval_inj (f1 f2 : spec_float) :
  representable f1 -> representable f2 ->
  sval f1 = sval f2 -> sval f1 <> 0 -> f1 = f2.
Proof.
  intros R1 R2 E N.
  pose proof (SFcompare_sval f1 f2 R1 R2) as H.
  rewrite E, Z.compare_refl in H.
  destruct f1 as [s1| | |s1 m1 e1]; try (destruct R1 as [_ F]; discriminate F);
    [cbn in N; lia|].
  destruct f2 as [s2| | |s2 m2 e2]; try (destruct R2 as [_ F]; discriminate F).
  - exfalso. rewrite E in N. cbn in N. lia.
  - cbn [SFcompare] in H.
    destruct s1, s2; try discriminate H.
    + destruct (Z.compare_spec e1 e2) as [He|He|He]; try discriminate H.
      injection H as H. subst e2.
      destruct (Pos.compare_cont Eq m1 m2) eqn:Hm; try discriminate H.
      apply Pos.compare_eq in Hm. now subst.
    + destruct (Z.compare_spec e1 e2) as [He|He|He]; try discriminate H.
      injection H as H. subst e2.
      apply Pos.compare_eq in H. now subst.
Qed.

(** *** Integers as doubles *)

Lemma of_nonneg_Z_nearest (q : Z) :
  0 <= q < 2 ^ 63 ->
  Nearest 1 (q * 2 ^ 1074) (Prim2SF (JS.of_nonneg_Z q)).
Proof.
  intros Hq. unfold JS.of_nonneg_Z.
  rewrite FloatAxioms.of_uint63_spec, Uint63.of_Z_spec.
  rewrite Z.mod_small by (change wB with (2 ^ 63); lia).
  exact (normalize_nearest q 0 ltac:(lia)).
Qed.

(** A double whose value is an integer below 2^63 is the conversion of
    that integer. *)
Lemma integer_double (x : float) (q : Z) :
  is_finite x = true -> 0 < q < 2 ^ 63 -> value x = q * 2 ^ 1074 ->
  x = JS.of_nonneg_Z q.
Proof.
  intros Fx Hq Hx.
  pose proof (is_finite_representable x Fx) as Rx.
  pose proof (of_nonneg_Z_nearest q ltac:(lia)) as HN.
  assert (Fq : finite (Prim2SF (JS.of_nonneg_Z q)) = true).
  { destruct (Prim2SF (JS.of_nonneg_Z q)) as [s|s| |s m e] eqn:E;
      try reflexivity; cbn [Nearest] in HN; [|destruct HN].
    exfalso. specialize (HN _ Rx). unfold value in Hx. rewrite Hx in HN.
    lia. }
  pose proof (Nearest_closer _ _ _ _ HN Fq Rx) as Hc.
  unfold value in Hx. rewrite Hx in Hc.
  apply FloatAxioms.Prim2SF_inj. apply sval_inj.
  - exact Rx.
  - split; [apply FloatAxioms.Prim2SF_valid | exact Fq].
  - lia.
  - rewrite Hx. pose proof (pow2_pos 1074 ltac:(lia)). nia.
Qed.

(** *** [Math.floor] of a small non-negative number *)

Lemma Math_floor_small (x : float) (N : Z) :
  is_finite x = true -> 0 < N <= 2 ^ 52 ->
  0 <= value x < N * 2 ^ 1074 ->
  exists q,
    0 <= q < N /\
    (JS.Math_floor x = JS.of_nonneg_Z q \/
     q = 0 /\ exists s, JS.Math_floor x = SF2Prim (S754_zero s)).
Proof.
  intros Fx HN Hx.
  pose proof (is_finite_representable x Fx) as Rx.
  pose proof (FloatAxioms.SF2Prim_Prim2SF x) as Ex.
  assert (P : 0 < 2 ^ 1074) by (apply pow2_pos; lia).
  unfold JS.Math_floor, value in *.
  destruct (Prim2SF x) as [s|s| |s m e] eqn:E;
    try (destruct Rx as [_ F]; discriminate F).
  - exists 0. split; [lia|]. right. split; [reflexivity|].
    exists s. now rewrite Ex.
  - pose proof (representable_exponent_min _ _ _ Rx) as He.
    destruct Rx as [V _]. apply valid_canonical in V. destruct V as [C _].
    destruct (canonical_bounds _ _ C) as (_ & U & Nm).
    assert (Pe : 0 < 2 ^ (e + 1074)) by (apply pow2_pos; lia).
    cbn [sval] in Hx.
    destruct s; cbn [cond_Zopp] in Hx; [exfalso; nia|].
    destruct (Z.leb_spec 0 e) as [Le|Lt].
    + exfalso. specialize (Nm ltac:(lia)).
      assert (A : 2 ^ 1074 <= 2 ^ (e + 1074)) by (apply pow2_le; lia).
      assert (B : 2 ^ 52 * 2 ^ 1074 <= Z.pos m * 2 ^ (e + 1074)).
      { transitivity (2 ^ 52 * 2 ^ (e + 1074)).
        - apply Z.mul_le_mono_nonneg_l; lia.
        - apply Z.mul_le_mono_nonneg_r; lia. }
      assert (D : N * 2 ^ 1074 <= 2 ^ 52 * 2 ^ 1074)
        by (apply Z.mul_le_mono_nonneg_r; lia).
      lia.
    + rewrite Z.shiftr_div_pow2, Z.shiftl_mul_pow2 by lia.
      set (k := - e) in *.
      assert (Pk : 0 < 2 ^ k) by (apply pow2_pos; lia).
      assert (Hsplit : 2 ^ 1074 = 2 ^ (e + 1074) * 2 ^ k).
      { rewrite <- pow2_add by lia. f_equal. lia. }
      assert (Hq : Z.pos m / 2 ^ k < N).
      { apply Z.div_lt_upper_bound; [lia|].
        rewrite Hsplit in Hx.
        apply (Z.mul_lt_mono_pos_r (2 ^ (e + 1074))); [lia|]. lia. }
      assert (Hq0 : 0 <= Z.pos m / 2 ^ k) by (apply Z.div_pos; lia).
      exists (Z.pos m / 2 ^ k). split; [lia|]. left.
      destruct (Z.eqb_spec (Z.pos m / 2 ^ k * 2 ^ k) (Z.pos m)) as [Exact|_].
      * apply integer_double; [exact Fx| |].
        -- split; [|lia].
           destruct (Z.eq_dec (Z.pos m / 2 ^ k) 0) as [Z0|]; [|lia].
           rewrite Z0 in Exact. lia.
        -- unfold value. rewrite E. cbn [sval cond_Zopp].
           rewrite Hsplit. rewrite <- Exact at 1. ring.
      * reflexivity.
Qed.

(** *** The base height *)

(** The product of a number of [0, 1) and 360 is rounded to a number
    below 360: the largest product lies nearer to the double before 360
    than to 360. *)
Lemma product_below_360 (r : float) :
  (0 <=? r)%float = true -> (r <? 1)%float = true ->
  is_finite (r * 360) = true /\ 0 <= value (r * 360) < 360 * 2 ^ 1074.
Proof.
  intros H0 H1. destruct (unit_interval r H0 H1) as [Fr Hr].
  pose proof (is_finite_representable r Fr) as Rr.
  assert (R360 : representable (Prim2SF 360)) by (split; reflexivity).
  assert (Rb : representable (Prim2SF below360)) by (split; reflexivity).
  assert (V360 : sval (Prim2SF 360) = 360 * 2 ^ 1074)
    by (vm_compute; reflexivity).
  assert (Vb : sval (Prim2SF below360) = 360 * 2 ^ 1074 - 512 * 2 ^ 1021)
    by (vm_compute; reflexivity).
  pose proof (SFmul_nearest _ _ Rr R360) as HN.
  rewrite <- FloatAxioms.mul_spec in HN.
  pose proof (below_one _ Rr (proj2 Hr)) as Hb.
  unfold value in *. rewrite V360 in HN.
  set (R := sval (Prim2SF r)) in *.
  set (p := sval (Prim2SF (r * 360))) in *.
  assert (Hc : 0 < 2 ^ 1074) by (apply pow2_pos; lia).
  assert (HK : 0 < 2 ^ 1021) by (apply pow2_pos; lia).
  assert (Hp : finite (Prim2SF (r * 360)) = true /\
               sval (S754_zero false) <= p <= sval (Prim2SF 360)).
  { apply (Nearest_between (2 ^ 1074) (R * (360 * 2 ^ 1074))
             (Prim2SF (r * 360)) (S754_zero false) (Prim2SF 360)
             Hc HN representable_zero R360).
    rewrite V360. cbn [sval].
    generalize dependent (2 ^ 1074). intros; nia. }
  destruct Hp as [Fp [Hp0 Hp1]]. cbn [sval] in Hp0. rewrite V360 in Hp1.
  split; [now rewrite is_finite_spec|]. split; [exact Hp0|].
  destruct (Z.eq_dec p (360 * 2 ^ 1074)) as [Ep|]; [exfalso|lia].
  pose proof (Nearest_closer _ _ _ _ HN Fp Rb) as Hcl.
  fold p in Hcl. rewrite Ep, Vb in Hcl.
  assert (A : 2 ^ 1074 * 2 ^ 1021 <= 2 ^ 1074 * (2 ^ 1074 - R))
    by (apply Z.mul_le_mono_nonneg_l; lia).
  replace (2 ^ 1074 * (360 * 2 ^ 1074) - R * (360 * 2 ^ 1074))
    with (360 * (2 ^ 1074 * (2 ^ 1074 - R))) in Hcl by ring.
  replace (2 ^ 1074 * (360 * 2 ^ 1074 - 512 * 2 ^ 1021)
           - R * (360 * 2 ^ 1074))
    with (360 * (2 ^ 1074 * (2 ^ 1074 - R))
          - 512 * (2 ^ 1074 * 2 ^ 1021)) in Hcl by ring.
  assert (B : 0 < 2 ^ 1074 * 2 ^ 1021) by (apply Z.mul_pos_pos; lia).
  generalize dependent (2 ^ 1074 * (2 ^ 1074 - R)).
  generalize dependent (2 ^ 1074 * 2 ^ 1021).
  intros. lia.
Qed.

Lemma base_height (r : float) :
  (0 <=? r)%float = true -> (r <? 1)%float = true ->
  exists q,
    0 <= q < 360 /\
    (720 + JS.Math_floor (r * 360))%float = (720 + JS.of_nonneg_Z q)%float.
Proof.
  intros H0 H1. destruct (product_below_360 r H0 H1) as [Fp Hp].
  destruct (Math_floor_small (r * 360) 360 Fp ltac:(lia) Hp)
    as (q & Hq & [E|[-> [s E]]]).
  - exists q. split; [exact Hq|]. now rewrite E.
  - exists 0. split; [lia|]. rewrite E. destruct s; vm_compute; reflexivity.
Qed.

Lemma exactSize_bounds (B : Z) :
  720 <= B <= 1079 ->
  404 <= fst (exactSize B) <= 606 /\ 720 <= snd (exactSize B) <= 1078 /\
  Z.even (fst (exactSize B)) = true /\ Z.even (snd (exactSize B)) = true.
Proof.
  intros HB. unfold exactSize. cbn [fst snd].
  rewrite !Z.even_mul. cbn [Z.even orb].
  pose proof (Z.div_le_mono (9 * 720) (9 * B) 32 ltac:(lia) ltac:(lia)).
  pose proof (Z.div_le_mono (9 * B) (9 * 1079) 32 ltac:(lia) ltac:(lia)).
  pose proof (Z.div_le_mono 720 B 2 ltac:(lia) ltac:(lia)).
  pose proof (Z.div_le_mono B 1079 2 ltac:(lia) ltac:(lia)).
  change (9 * 720 / 32) with 202 in *. change (9 * 1079 / 32) with 303 in *.
  change (720 / 2) with 360 in *. change (1079 / 2) with 539 in *.
  repeat split; lia.
Qed.

(** X17.  With a random number of [0, 1) the size block writes a frame
    size between 404x720 and 606x1078, both numbers even: the base height
    is an integer [B] of [720, 1079], the height is [B] rounded down to an
    even number and the width is [9 B / 16] rounded down to an even
    number.  A height of 1080 is never written. *)
Theorem random_size_even_and_bounded (Math_random : nat -> float)
    (toString_other : float -> string) (params : VideoProcessingParameters)
    (c : Chain) (i : nat) :
  Toggle.enabled (randomPixelSize params) = true ->
  (0 <=? Math_random i)%float = true ->
  (Math_random i <? 1)%float = true ->
  exists B W H,
    720 <= B <= 1079 /\ W = 2 * (9 * B / 32) /\ H = 2 * (B / 2) /\
    randomPixelSize_block Math_random toString_other params c i =
      (emit c KResize
         ("scale=" ++ JS.digits_of_Z W ++ ":" ++ JS.digits_of_Z H)
         ("randomSize=" ++ JS.digits_of_Z W ++ "x" ++ JS.digits_of_Z H),
       S i) /\
    404 <= W <= 606 /\ 720 <= H <= 1078 /\
    Z.even W = true /\ Z.even H = true.
Proof.
  intros He H0 H1.
  destruct (base_height (Math_random i) H0 H1) as (q & Hq & E).
  pose proof (all_sizes toString_other) as Hall.
  rewrite forallb_forall in Hall.
  specialize (Hall (Z.to_nat q)).
  assert (Hin : In (Z.to_nat q) (seq 0 360)) by (apply in_seq; lia).
  specialize (Hall Hin). unfold sameSize in Hall.
  rewrite Z2Nat.id in Hall by lia.
  apply andb_true_iff in Hall as [Hw Hh].
  apply String.eqb_eq in Hw. apply String.eqb_eq in Hh.
  destruct (exactSize_bounds (720 + q) ltac:(lia)) as (Bw & Bh & Ew & Eh).
  exists (720 + q), (2 * (9 * (720 + q) / 32)), (2 * ((720 + q) / 2)).
  split; [lia|]. do 2 (split; [reflexivity|]).
  split; [|repeat split; (apply Bw || apply Bh || apply Ew || apply Eh)].
  unfold randomPixelSize_block. rewrite He.
  unfold bind, random, ret.
  rewrite E.
  change (JS.Number_toString toString_other
            (JS.Math_floor ((720 + JS.of_nonneg_Z q) * 9 / 16 / 2) * 2)%float)
    with (fst (renderedSize toString_other q)).
  change (JS.Number_toString toString_other
            (JS.Math_floor ((720 + JS.of_nonneg_Z q) / 2) * 2)%float)
    with (snd (renderedSize toString_other q)).
  rewrite Hw, Hh. reflexivity.
Qed.

Lemma random_size_even_and_bounded_witness :
  exists B W H,
    720 <= B <= 1079 /\ W = 2 * (9 * B / 32) /\ H = 2 * (B / 2) /\
    randomPixelSize_block Example.half Example.toString_other
      ExampleSize.resized ExampleSize.emptyChain 0%nat =
      (emit ExampleSize.emptyChain KResize
         ("scale=" ++ JS.digits_of_Z W ++ ":" ++ JS.digits_of_Z H)
         ("randomSize=" ++ JS.digits_of_Z W ++ "x" ++ JS.digits_of_Z H),
       1%nat) /\
    404 <= W <= 606 /\ 720 <= H <= 1078 /\
    Z.even W = true /\ Z.even H = true.
Proof.
  exact (random_size_even_and_bounded Example.half Example.toString_other
           ExampleSize.resized ExampleSize.emptyChain 0%nat
           eq_refl eq_refl eq_refl).
Defined.

End FrameSizes.

(** ** The closing toast of the queue *)

Section ClosingToast.

Local Open Scope string_scope.

Lemma decide_allCompleted (i : string) (ids : list string)
    (vs : list (string * Status.t)) :
  allCompleted ids (decide i Status.completed vs) =
  allCompleted (i :: ids) vs.
Proof.
  unfold allCompleted, decide. rewrite map_map. apply map_ext.
  intros [j s]. cbn [fst existsb].
  destruct (String.eqb j i) eqn:E; cbn [fst orb].
  - now destruct (existsb (String.eqb j) ids).
  - reflexivity.
Qed.

Section QueueFallback.

Variable Math_random : nat -> float.
Variable toString_other : float -> string.
Variable engine : nat -> EngineRun.
Variable parameters : VideoProcessingParameters.
Variable numberOfVariations : nat.

Lemma simulate_resolves (i : string) (total : float) (remaining : nat) :
  forall step (w : World Batch),
    fst (simulate i total step remaining w) = Resolved tt.
Proof.
  induction remaining as [|remaining IH]; intros step w; cbn.
  - reflexivity.
  - unfold await. cbn. apply IH.
Qed.

Lemma mockVariations_resolves (f : File.t) (count : nat) :
  File.readable f = true ->
  forall acc (w : World Batch),
    exists vs, fst (mockVariations f count acc w) = Resolved vs.
Proof.
  intros Hr. induction count as [|count IH]; intros acc w; cbn.
  - now exists acc.
  - unfold await, arrayBuffer. rewrite Hr. cbn. apply IH.
Qed.

Lemma fallback_item_completes (item : QueueItem) (w : World Batch) :
  File.readable (file item) = true ->
  verdict (fst (itemBody Math_random toString_other engine parameters
                  numberOfVariations false item w)) = Status.completed.
Proof.
  intros Hr. unfold itemBody. unfold await at 1.
  pose proof (simulate_resolves (id item)
                (JS.of_Z (Z.of_nat (numberOfVariations * 20))) (S (numberOfVariations * 20)) 0%float w) as Hs.
  destruct (simulate _ _ _ _ w) as [[[]|e] w1]; [|discriminate Hs].
  unfold await.
  destruct (mockVariations_resolves (file item) numberOfVariations Hr [] w1)
    as (vs & Hm).
  destruct (mockVariations _ _ _ w1) as [[vs'|e] w2]; [|discriminate Hm].
  reflexivity.
Qed.

Lemma fallback_items_complete (items : list QueueItem) :
  Forall (fun item => File.readable (file item) = true) items ->
  forall w,
    AllRespect sameButProgress w ->
    verdicts (caller (snd (processItems Math_random toString_other engine
                             parameters numberOfVariations false items w))) =
    allCompleted (map id items) (verdicts (caller w)).
Proof.
  induction 1 as [|item rest Hr _ IH]; intros w Hw; cbn [processItems map].
  - cbn. unfold allCompleted. cbn. now rewrite map_id.
  - unfold await.
    destruct (processItem_verdict Math_random toString_other engine
                parameters numberOfVariations false item w Hw)
      as (H1 & H2 & H3 & _).
    rewrite fallback_item_completes in H2 by exact Hr.
    destruct (processItem _ _ _ _ _ _ item w) as [r1 w1];
      cbn [fst snd] in H1, H2, H3.
    subst r1. rewrite (IH w1 H3), H2. apply decide_allCompleted.
Qed.

(** X18.  The toast at the end of [processQueue] counts the items that
    were completed when the run started, not the ones the run completed.
    Without the engine, with readable files and a queue in which nothing
    is completed yet, the run completes every item and then announces that
    0 videos were processed. *)
Theorem closing_toast_counts_stale_queue (w : World Batch) :
  AllRespect sameButProgress w ->
  queue (caller w) <> [] -> processing (caller w) = false ->
  Forall (fun item => File.readable (file item) = true) (queue (caller w)) ->
  completedItems (queue (caller w)) = [] ->
  let run :=
    processQueue_toast Math_random toString_other engine parameters
      numberOfVariations false w in
  Forall (fun item => status item = Status.completed)
    (queue (caller (snd run))) /\
  List.length (queue (caller (snd run))) = List.length (queue (caller w)) /\
  exists t,
    fst run = Resolved (Some t) /\
    description t =
      "Successfully processed 0 of " ++ numeral (List.length (queue (caller w)))
        ++ " videos with " ++ numeral numberOfVariations ++ " variations each".
Proof.
  intros Hw Hq Hp Hr Hc run.
  assert (Hg : (List.length (queue (caller w)) =? 0)%nat
               || processing (caller w) = false).
  { rewrite Hp. destruct (queue (caller w)); [congruence|reflexivity]. }
  assert (Hrun : exists w1,
             run = (Resolved (Some (closingToast (queue (caller w))
                                      numberOfVariations)),
                    snd (setProcessing false w1)) /\
             verdicts (caller w1) =
               allCompleted (map id (queue (caller w)))
                 (verdicts (caller w))).
  { subst run. unfold processQueue_toast. cbv zeta. rewrite Hg.
    unfold await at 1. unfold processQueue. cbv beta zeta. rewrite Hg.
    unfold await at 1. unfold setProcessing at 1. cbn [setState fst snd].
    set (w0 := set_caller _ w).
    assert (Hw0 : AllRespect sameButProgress w0) by exact Hw.
    pose proof (fallback_items_complete (queue (caller w)) Hr w0 Hw0) as Hv.
    destruct (processItems_settled Math_random toString_other engine
                parameters numberOfVariations false (queue (caller w)) w0 Hw0)
      as (H1 & _).
    unfold await at 1.
    destruct (processItems _ _ _ _ _ _ (queue (caller w)) w0) as [r1 w1].
    cbn [fst snd] in H1, Hv. subst r1.
    exists w1. split; [reflexivity|exact Hv]. }
  clearbody run. destruct Hrun as (w1 & -> & Hv).
  cbn [fst snd setProcessing setState caller set_caller queue].
  split; [|split].
  - apply Forall_forall. intros item Hin.
    assert (Hi : In (id item, status item) (verdicts (caller w1))).
    { unfold verdicts.
      apply (in_map (fun q => (id q, status q))). exact Hin. }
    rewrite Hv in Hi. unfold allCompleted, verdicts in Hi.
    rewrite map_map in Hi. apply in_map_iff in Hi as (q & E & Hq0).
    cbn [fst] in E.
    assert (Hex : existsb (String.eqb (id q)) (map id (queue (caller w)))
                  = true).
    { apply existsb_exists. exists (id q). split.
      - now apply in_map.
      - apply String.eqb_refl. }
    rewrite Hex in E. congruence.
  - apply (f_equal (@List.length _)) in Hv.
    unfold verdicts, allCompleted in Hv.
    rewrite !length_map in Hv. exact Hv.
  - eexists. split; [reflexivity|].
    unfold closingToast, completedCount. cbn [description].
    rewrite Hc. reflexivity.
Qed.

End QueueFallback.

Lemma closing_toast_counts_stale_queue_witness :
  Forall (fun item => status item = Status.completed)
    (queue (caller (snd (processQueue_toast Example.half
                           Example.toString_other Example.steady
                           Example.disabled 3 false Example.batchWorld)))) /\
  List.length
    (queue (caller (snd (processQueue_toast Example.half
                           Example.toString_other Example.steady
                           Example.disabled 3 false Example.batchWorld)))) =
    2%nat /\
  exists t,
    fst (processQueue_toast Example.half Example.toString_other
           Example.steady Example.disabled 3 false Example.batchWorld) =
      Resolved (Some t) /\
    description t =
      "Successfully processed 0 of 2 videos with 3 variations each".
Proof.
  exact (closing_toast_counts_stale_queue Example.half
           Example.toString_other Example.steady Example.disabled 3
           Example.batchWorld (Forall_nil _)
           (fun H => ltac:(discriminate H)) eq_refl
           (Forall_cons Example.itemA (eq_refl true)
              (Forall_cons Example.itemB (eq_refl true) (Forall_nil _)))
           eq_refl).
Defined.

End ClosingToast.

(** ** The legacy single-video component *)

Section LegacySingleComponent.

Local Open Scope string_scope.




Section LegacySingleRun.

Variable Math_random : nat -> float.
Variable toString_other : float -> string.
Variable engine : nat -> EngineRun.



End LegacySingleRun.


End LegacySingleComponent.
